(** * CapWise: valuation, Monte Carlo simulation and risk scoring

    Shallow embedding of the numerical core of
    [src/components/MonteCarloAndRisk.tsx] (the Monte Carlo / risk component
    and, after the separator, the main application with [npv], [irr] and
    [fallbackAnalysis]).

    Numbers.  A JavaScript [number] is modelled by an exact rational or one of
    the three IEEE special values.  Rounding, overflow and underflow of
    binary64 arithmetic and the sign of zero are not modelled: finite results
    are exact and kept in lowest terms, so equal values are equal terms.  A
    zero divisor counts as [+0]; every exact zero divisor of the embedded code
    ([1 + rate] at [rate = -1], [risks.length], [points - 1], [n - 1], an
    accumulated [df]) is a [+0] in binary64 as well.

    The properties are chosen to hold of the rounded computation too.  They
    rest on what rounding keeps: comparisons, counts, operations on whole
    numbers and on zero, the order of two results computed the same way from
    ordered operands, and special values.  Where a result could leave the
    range of binary64, the statement compares numbers as the code would
    ([leb], with the infinities) or carries the range as a hypothesis
    ([in_range], [apart]).  Where rounding itself decides, the function is
    embedded over the binary64 numbers in [Binary64] and evaluated there.

    Counts.  [bins] and [points] are natural numbers, as at their call sites;
    [runs], a slider value, is a number. *)

From Stdlib Require String.
From Stdlib Require Floats.
From Stdlib Require Import QArith Qround Qabs Qreduction Qpower ZArith List Sorted Permutation Lia Lqa Bool.
Import ListNotations.

Local Open Scope Q_scope.

(** ** JavaScript numbers *)

Module JS.

Inductive number : Type :=
| Num (q : Q)
| Infinity
| NegInfinity
| NaN.

(** A finite result, in lowest terms. *)
Definition num (q : Q) : number := Num (Qred q).

(** [array.length], loop counters: a natural number read as a number. *)
Definition of_nat (n : nat) : number := Num (inject_Z (Z.of_nat n)).

Definition isFinite (a : number) : bool :=
  match a with Num _ => true | _ => false end.

Definition neg (a : number) : number :=
  match a with
  | Num x => num (- x)
  | Infinity => NegInfinity
  | NegInfinity => Infinity
  | NaN => NaN
  end.

Definition add (a b : number) : number :=
  match a, b with
  | NaN, _ | _, NaN => NaN
  | Num x, Num y => num (x + y)
  | Infinity, NegInfinity | NegInfinity, Infinity => NaN
  | Infinity, _ | _, Infinity => Infinity
  | NegInfinity, _ | _, NegInfinity => NegInfinity
  end.

Definition sub (a b : number) : number :=
  match a, b with
  | NaN, _ | _, NaN => NaN
  | Num x, Num y => num (x - y)
  | Infinity, Infinity | NegInfinity, NegInfinity => NaN
  | Infinity, _ | _, NegInfinity => Infinity
  | NegInfinity, _ | _, Infinity => NegInfinity
  end.

(** The infinity whose sign is the sign of [x * s], [s] being [+1]
    ([pos = true]) or [-1]; [0 * Infinity] is [NaN]. *)
Definition scaled_inf (x : Q) (pos : bool) : number :=
  match x ?= 0 with
  | Eq => NaN
  | Gt => if pos then Infinity else NegInfinity
  | Lt => if pos then NegInfinity else Infinity
  end.

Definition mul (a b : number) : number :=
  match a, b with
  | NaN, _ | _, NaN => NaN
  | Num x, Num y => num (x * y)
  | Num x, Infinity | Infinity, Num x => scaled_inf x true
  | Num x, NegInfinity | NegInfinity, Num x => scaled_inf x false
  | Infinity, Infinity | NegInfinity, NegInfinity => Infinity
  | Infinity, NegInfinity | NegInfinity, Infinity => NegInfinity
  end.

Definition div (a b : number) : number :=
  match a, b with
  | NaN, _ | _, NaN => NaN
  | Num x, Num y =>
      if Qeq_bool y 0 then
        match x ?= 0 with Eq => NaN | Gt => Infinity | Lt => NegInfinity end
      else num (x / y)
  | Num _, _ => Num 0
  | Infinity, Num y =>
      match y ?= 0 with Lt => NegInfinity | _ => Infinity end
  | NegInfinity, Num y =>
      match y ?= 0 with Lt => Infinity | _ => NegInfinity end
  | _, _ => NaN
  end.

(** [a < b], [a > b], [a <= b], [a === b]: every comparison with [NaN] is
    false. *)
Definition ltb (a b : number) : bool :=
  match a, b with
  | NaN, _ | _, NaN => false
  | Num x, Num y => match x ?= y with Lt => true | _ => false end
  | NegInfinity, NegInfinity => false
  | NegInfinity, _ => true
  | _, Infinity => match a with Infinity => false | _ => true end
  | _, _ => false
  end.

Definition gtb (a b : number) : bool := ltb b a.

Definition eqb (a b : number) : bool :=
  match a, b with
  | Num x, Num y => Qeq_bool x y
  | Infinity, Infinity | NegInfinity, NegInfinity => true
  | _, _ => false
  end.

Definition leb (a b : number) : bool := ltb a b || eqb a b.

(** Truthiness of a number, as [||] and [!] read it: [0] and [NaN] are falsy. *)
Definition truthy (a : number) : bool :=
  match a with
  | Num x => negb (Qeq_bool x 0)
  | NaN => false
  | _ => true
  end.

(** [a || b] on numbers. *)
Definition or_else (a b : number) : number := if truthy a then a else b.

Definition Math_floor (a : number) : number :=
  match a with Num x => Num (inject_Z (Qfloor x)) | _ => a end.

Definition Math_ceil (a : number) : number :=
  match a with Num x => Num (inject_Z (Qceiling x)) | _ => a end.

Definition Math_abs (a : number) : number :=
  match a with
  | Num x => num (Qabs x)
  | NaN => NaN
  | _ => Infinity
  end.

(** Two-argument [Math.min] and [Math.max]. *)
Definition Math_min (a b : number) : number :=
  match a, b with
  | NaN, _ | _, NaN => NaN
  | _, _ => if ltb b a then b else a
  end.

Definition Math_max (a b : number) : number :=
  match a, b with
  | NaN, _ | _, NaN => NaN
  | _, _ => if ltb a b then b else a
  end.

(** [Math.min(...xs)] and [Math.max(...xs)]: the empty call gives the
    neutral infinity. *)
Definition Math_min_of (xs : list number) : number :=
  fold_left Math_min xs Infinity.

Definition Math_max_of (xs : list number) : number :=
  fold_left Math_max xs NegInfinity.

(** [Math.pow(a, t)] for an exponent that is a loop index, the only use in
    the source ([t], [y], [t + 1], and [** 2]).  [Math.pow(x, 0)] is [1] for
    every [x], [NaN] included. *)
Definition Math_pow (a : number) (t : nat) : number :=
  match t with
  | O => Num 1
  | S _ =>
      match a with
      | Num x => num (x ^ Z.of_nat t)
      | Infinity => Infinity
      | NegInfinity => if Nat.even t then Infinity else NegInfinity
      | NaN => NaN
      end
  end.

(** ** Arrays *)

(** The index a number denotes as an array subscript, if it is one. *)
Definition as_index (a : number) : option nat :=
  match a with
  | Num x =>
      let r := Qred x in
      if ((Qden r =? 1)%positive && (0 <=? Qnum r)%Z)%bool
      then Some (Z.to_nat (Qnum r)) else None
  | _ => None
  end.

(** [arr[i]] for a numeric subscript: [None] is [undefined]. *)
Definition get {A : Type} (arr : list A) (i : number) : option A :=
  match as_index i with
  | Some k => nth_error arr k
  | None => None
  end.

(** [ToNumber] of an array read: [undefined] becomes [NaN]. *)
Definition to_number (v : option number) : number :=
  match v with Some a => a | None => NaN end.

(** [arr.reduce((acc, x, t) => f(acc, x, t), init)]. *)
Fixpoint reduce_from {A B : Type} (f : B -> A -> nat -> B)
         (arr : list A) (t : nat) (acc : B) : B :=
  match arr with
  | [] => acc
  | x :: rest => reduce_from f rest (S t) (f acc x t)
  end.

Definition reduce {A B : Type} (f : B -> A -> nat -> B)
           (arr : list A) (init : B) : B :=
  reduce_from f arr 0 init.

(** [[...arr].sort((a, b) => a - b)]: a stable sort of a copy, driven by the
    sign of the comparator ([NaN] counts as [0]). *)
Definition comparator (a b : number) : number := sub a b.

Fixpoint sort_insert (x : number) (sorted : list number) : list number :=
  match sorted with
  | [] => [x]
  | y :: rest =>
      if gtb (comparator x y) (Num 0) then y :: sort_insert x rest
      else x :: sorted
  end.

Definition sort (arr : list number) : list number :=
  fold_right sort_insert [] arr.

(** The rounds of [for (let k = 0; k < bound; k++)]: one for each counter
    below [bound].  [None]: the test never fails and the loop does not end. *)
Definition rounds (bound : number) : option nat :=
  match bound with
  | Num q => Some (Z.to_nat (Qceiling q))
  | Infinity => None
  | NegInfinity | NaN => Some O
  end.

End JS.

Import JS.

(** ** ValuationMath *)

(** [npv], lines 39-41 and 668-670. *)
Definition npv (cashflows : list number) (rate : number) : number :=
  reduce (fun acc cf t => add acc (div cf (Math_pow (add (Num 1) rate) t)))
         cashflows (Num 0).

(** [irr], lines 672-687.  The inner loop accumulates the present value
    [f] and its derivative [df] at the current iterate. *)
Definition irr_sums (cashflows : list number) (x : number) : number * number :=
  reduce (fun (acc : number * number) cf t =>
            let (f, df) := acc in
            (add f (div cf (Math_pow (add (Num 1) x) t)),
             add df (div (mul (neg (of_nat t)) cf)
                         (Math_pow (add (Num 1) x) (S t)))))
         cashflows (Num 0, Num 0).

Definition tolerance : number := Num (1 # 1000000000).

Fixpoint irr_loop (cashflows : list number) (budget : nat) (x : number)
  : number :=
  match budget with
  | O => NaN
  | S budget' =>
      let (f, df) := irr_sums cashflows x in
      let nx := sub x (div f df) in
      if negb (isFinite nx) then NaN
      else if ltb (Math_abs (sub nx x)) tolerance then nx
      else irr_loop cashflows budget' nx
  end.

Definition irr (cashflows : list number) (guess : number) : number :=
  irr_loop cashflows 80 guess.

(** The call site, line 839: [irr(cashflows, 0.2)]; [0.2] is also the
    default of [guess]. *)
Definition default_guess : number := Num (1 # 5).

(** [fallbackAnalysis], lines 722-770: the [verdict] it selects.  The three
    texts are "recommended", "needs optimisation" and "not recommended"; the
    rest of the returned template is presentation. *)
Inductive Verdict : Type := Accept | NeedsOptimization | Reject.

Record FallbackArgs : Type := mkFallbackArgs {
  name : String.string;
  npvValue : number;
  irrValue : number;
  rate : number
}.

Definition fallbackAnalysis (args : FallbackArgs) : Verdict :=
  let goodNPV := gtb (npvValue args) (Num 0) in
  let goodIRR := gtb (irrValue args) (rate args) in
  if goodNPV && goodIRR then Accept
  else if goodNPV || goodIRR then NeedsOptimization
  else Reject.

(** ** DistributionSummarizer *)

(** [percentile], lines 20-29.  The result is a JavaScript value: [None] is
    [undefined], read from the sorted copy outside its bounds. *)
Definition percentile (arr : list number) (p : number) : option number :=
  match arr with
  | [] => Some NaN
  | _ =>
      let sorted := sort arr in
      let idx := mul (div p (Num 100)) (sub (of_nat (length sorted)) (Num 1)) in
      let lo := Math_floor idx in
      let hi := Math_ceil idx in
      if eqb lo hi then get sorted lo
      else
        let w := sub idx lo in
        Some (add (mul (to_number (get sorted lo)) (sub (Num 1) w))
                  (mul (to_number (get sorted hi)) w))
  end.

(** [mean], lines 31-33. *)
Definition mean (arr : list number) : number :=
  div (reduce (fun a b _ => add a b) arr (Num 0))
      (or_else (of_nat (length arr)) (Num 1)).

(** The summary [stats] of the component; the percentiles are JavaScript
    values. *)
Record Stats : Type := mkStats {
  stat_m : number;
  stat_s : number;
  stat_p10 : option number;
  stat_p50 : option number;
  stat_p90 : option number;
  stat_probPos : number
}.

Section Std.

(** [Math.sqrt], a built-in the embedding leaves open. *)
Variable Math_sqrt : number -> number.

(** [std], lines 34-37. *)
Definition std (arr : list number) : number :=
  let m := mean arr in
  Math_sqrt (mean (map (fun x => Math_pow (sub x m) 2) arr)).

(** [stats], lines 295-304; [None] is [null], the summary of no outcomes. *)
Definition stats (values : list number) : option Stats :=
  match values with
  | [] => None
  | _ =>
      let m := mean values in
      let s := std values in
      let p10 := percentile values (Num 10) in
      let p50 := percentile values (Num 50) in
      let p90 := percentile values (Num 90) in
      let probPos :=
        mul (div (of_nat (length (filter (fun x => gtb x (Num 0)) values)))
                 (of_nat (length values)))
            (Num 100) in
      Some (mkStats m s p10 p50 p90 probPos)
  end.

End Std.

(** [clamp], lines 43-45. *)
Definition clamp (v a b : number) : number := Math_max a (Math_min b v).

Record Bin : Type := mkBin {
  bin_x0 : number;
  bin_x1 : number;
  bin_count : number
}.

Record Histogram : Type := mkHistogram {
  hist_bins : list Bin;
  hist_min : number;
  hist_max : number
}.

(** [counts[idx]++].  A subscript that is no index writes a property beside
    the elements; the subscript [counts.length] appends [undefined + 1].
    Larger subscripts do not occur, [idx] being clamped to
    [0 .. max(0, bins - 1)]. *)
Fixpoint bump (counts : list number) (k : nat) : list number :=
  match counts, k with
  | [], _ => [NaN]
  | c :: rest, O => add c (Num 1) :: rest
  | c :: rest, S k' => c :: bump rest k'
  end.

Definition increment (counts : list number) (idx : number) : list number :=
  match as_index idx with
  | Some k => bump counts k
  | None => counts
  end.

(** [arr.map((c, i) => f(c, i))]. *)
Fixpoint mapi_from {A B : Type} (f : A -> nat -> B) (arr : list A) (i : nat)
  : list B :=
  match arr with
  | [] => []
  | c :: rest => f c i :: mapi_from f rest (S i)
  end.

Definition mapi {A B : Type} (f : A -> nat -> B) (arr : list A) : list B :=
  mapi_from f arr 0.

(** [buildHistogram], lines 55-75; [bins] is a count. *)
Definition buildHistogram (values : list number) (bins : nat) : Histogram :=
  match values with
  | [] => mkHistogram [] (Num 0) (Num 0)
  | _ =>
      let minV := Math_min_of values in
      let maxV := Math_max_of values in
      let span := or_else (sub maxV minV) (Num 1) in
      let step := div span (of_nat bins) in
      let counts :=
        fold_left
          (fun counts v =>
             let idx := clamp (Math_floor (div (sub v minV) step))
                              (Num 0) (sub (of_nat bins) (Num 1)) in
             increment counts idx)
          values (repeat (Num 0) bins) in
      let out :=
        mapi (fun c i =>
                mkBin (add minV (mul (of_nat i) step))
                      (add minV (mul (add (of_nat i) (Num 1)) step))
                      c)
             counts in
      mkHistogram out minV maxV
  end.

Record CDFPoint : Type := mkCDFPoint {
  cdf_x : option number;   (* [x]: [None] is [undefined] *)
  cdf_p : number           (* [p] *)
}.

(** [buildCDF], lines 77-87; [points] is a count. *)
Definition buildCDF (values : list number) (points : nat) : list CDFPoint :=
  match values with
  | [] => []
  | _ =>
      let sorted := sort values in
      let n := of_nat (length sorted) in
      fold_left
        (fun out i =>
           let idx :=
             Math_floor (mul (div (of_nat i) (sub (of_nat points) (Num 1)))
                             (sub n (Num 1))) in
           out ++ [mkCDFPoint (get sorted idx) (div idx (sub n (Num 1)))])
        (seq 0 points) []
  end.

(** ** RiskMatrixEngine *)

Record RiskItem : Type := mkRiskItem {
  risk_name : String.string;
  risk_p : number;   (* [p], 1..5 *)
  risk_i : number    (* [i], 1..5 *)
}.

Inductive Label : Type := Low | Medium | High.

(** [riskLevel], lines 161-165: the [label]; [cls] is a style class. *)
Definition riskLevel (score : number) : Label :=
  if leb score (Num 6) then Low
  else if leb score (Num 14) then Medium
  else High.

(** [totalRiskScore] and [totalLevel], lines 308-313. *)
Definition totalRiskScore (risks : list RiskItem) : number :=
  let total :=
    reduce (fun acc r _ => add acc (mul (risk_p r) (risk_i r))) risks (Num 0) in
  div total (of_nat (length risks)).

Definition totalLevel (risks : list RiskItem) : Label :=
  riskLevel (totalRiskScore risks).

(** ** MonteCarloSimulator *)

Record CashflowRow : Type := mkRow {
  year : number;
  revenue : number;
  cost : number;
  net : number
}.

(** The values [runSim] closes over: the props [baseRate] and the state of
    the sliders. *)
Record Config : Type := mkConfig {
  baseRate : number;
  runs : number;
  revVol : number;
  costVol : number;
  revTrend : number;
  costTrend : number;
  randomizeRate : bool;
  rateVol : number
}.

Section Simulator.

(** [randn], lines 47-53, draws from the ambient [Math.random]: here a
    capability that threads the generator's state. *)
Variable RandomSource : Type.
Variable randn : RandomSource -> number * RandomSource.

Variable config : Config.

(** The objects [runSim] can reach: the generator, the two array props,
    its two local arrays and the component state it sets. *)
Record Store : Type := mkStore {
  random : RandomSource;
  cashflows : list number;
  rows : list CashflowRow;
  simCF : list number;
  out : list number;
  values : list number;
  isRunning : bool
}.

(** Computations over the store; [None] is a run without a normal return:
    an exception, or a loop that does not end. *)
Definition M (A : Type) : Type := Store -> option (A * Store).

Definition ret {A : Type} (a : A) : M A := fun s => Some (a, s).

Definition bind {A B : Type} (m : M A) (k : A -> M B) : M B :=
  fun s => match m s with
           | Some (a, s') => k a s'
           | None => None
           end.

Notation "x <- m ;; k" := (bind m (fun x => k))
  (at level 61, m at next level, right associativity).
Notation "m ;; k" := (bind m (fun _ => k))
  (at level 61, right associativity).

Definition draw : M number :=
  fun s =>
    let (z, g) := randn (random s) in
    Some (z, mkStore g (cashflows s) (rows s) (simCF s) (out s)
                     (values s) (isRunning s)).

Definition setIsRunning (b : bool) : M unit :=
  fun s => Some (tt, mkStore (random s) (cashflows s) (rows s) (simCF s)
                             (out s) (values s) b).

Definition setValues (v : list number) : M unit :=
  fun s => Some (tt, mkStore (random s) (cashflows s) (rows s) (simCF s)
                             (out s) v (isRunning s)).

(** [const out = []] and [const simCF = [t0]]: a fresh array. *)
Definition new_out : M unit :=
  fun s => Some (tt, mkStore (random s) (cashflows s) (rows s) (simCF s)
                             [] (values s) (isRunning s)).

Definition new_simCF (init : list number) : M unit :=
  fun s => Some (tt, mkStore (random s) (cashflows s) (rows s) init
                             (out s) (values s) (isRunning s)).

Definition push_simCF (v : number) : M unit :=
  fun s => Some (tt, mkStore (random s) (cashflows s) (rows s)
                             (simCF s ++ [v]) (out s) (values s)
                             (isRunning s)).

Definition push_out (v : number) : M unit :=
  fun s => Some (tt, mkStore (random s) (cashflows s) (rows s) (simCF s)
                             (out s ++ [v]) (values s) (isRunning s)).

Definition read {A : Type} (f : Store -> A) : M A := fun s => Some (f s, s).

(** [rows[y]] with a field read after it: throws on [undefined]. *)
Definition row_at (y : nat) : M CashflowRow :=
  fun s => match nth_error (rows s) y with
           | Some row => Some (row, s)
           | None => None
           end.

(** [for (let k = 0; k < n; k++) body(k)], from counter [k] with
    [n] rounds left. *)
Fixpoint for_from (k n : nat) (body : nat -> M unit) : M unit :=
  match n with
  | O => ret tt
  | S n' => body k ;; for_from (S k) n' body
  end.

(** [for (let k = 0; k < bound; k++) body(k)]. *)
Definition for_ (bound : number) (body : nat -> M unit) : M unit :=
  match rounds bound with
  | Some n => for_from 0 n body
  | None => fun _ => None
  end.

(** The body of the year loop, lines 270-279. *)
Definition year_body (y : nat) : M unit :=
  row <- row_at y ;;
  let baseRev :=
    mul (revenue row) (Math_pow (add (Num 1) (revTrend config)) y) in
  let baseCost :=
    mul (cost row) (Math_pow (add (Num 1) (costTrend config)) y) in
  z1 <- draw ;;
  let revShock := add (Num 1) (mul z1 (revVol config)) in
  z2 <- draw ;;
  let costShock := add (Num 1) (mul z2 (costVol config)) in
  let rev := mul baseRev revShock in
  let cost := mul baseCost costShock in
  push_simCF (sub rev cost).

(** The body of the trial loop, lines 267-288.  [t0] is [cashflows[0]] as
    the division in [npv] reads it ([undefined] as [NaN]). *)
Definition trial_body (t0 : number) (baseYears : number) (k : nat)
  : M unit :=
  new_simCF [t0] ;;
  for_ baseYears year_body ;;
  r <- (if randomizeRate config then
          z <- draw ;;
          let rr := add (baseRate config) (mul z (rateVol config)) in
          ret (clamp rr (Num (1 # 100)) (Num (4 # 5)))
        else ret (baseRate config)) ;;
  cf <- read simCF ;;
  push_out (npv cf r).

(** [runSim], lines 258-293.  The pause [await new Promise(...)] leaves the
    store as it is. *)
Definition runSim : M unit :=
  setIsRunning true ;;
  new_out ;;
  t0 <- read (fun s => to_number (get (cashflows s) (Num 0))) ;;
  baseYears <- read (fun s => of_nat (length (rows s))) ;;
  for_ (runs config) (trial_body t0 baseYears) ;;
  o <- read out ;;
  setValues o ;;
  setIsRunning false.

(** *** The simulator as section 4.4 of the specification words it *)

(** One shocked net flow per year of the schedule, from year offset [y]:
    drift-adjusted base revenue and cost, each with its own fresh shock. *)
Fixpoint trial_flows (schedule : list CashflowRow) (y : nat)
         (g : RandomSource) : list number * RandomSource :=
  match schedule with
  | [] => ([], g)
  | row :: later =>
      let driftedRev :=
        mul (revenue row) (Math_pow (add (Num 1) (revTrend config)) y) in
      let driftedCost :=
        mul (cost row) (Math_pow (add (Num 1) (costTrend config)) y) in
      let (zr, g1) := randn g in
      let (zc, g2) := randn g1 in
      let rev := mul driftedRev (add (Num 1) (mul zr (revVol config))) in
      let cst := mul driftedCost (add (Num 1) (mul zc (costVol config))) in
      let (flows, g3) := trial_flows later (S y) g2 in
      (sub rev cst :: flows, g3)
  end.

(** The rate of one trial: one more shock when the rate is randomised,
    clamped into [0.01, 0.8]. *)
Definition trial_rate (g : RandomSource) : number * RandomSource :=
  if randomizeRate config then
    let (z, g1) := randn g in
    (clamp (add (baseRate config) (mul z (rateVol config)))
           (Num (1 # 100)) (Num (4 # 5)), g1)
  else (baseRate config, g).

(** One trial: the present value of the outlay followed by the shocked
    flows, at the trial's rate. *)
Definition trial (initialOutlay : number) (schedule : list CashflowRow)
           (g : RandomSource) : number * RandomSource :=
  let (flows, g1) := trial_flows schedule 0 g in
  let (r, g2) := trial_rate g1 in
  (npv (initialOutlay :: flows) r, g2).

(** [n] trials one after the other, outcomes in trial order. *)
Fixpoint trials (n : nat) (initialOutlay : number)
         (schedule : list CashflowRow) (g : RandomSource)
  : list number * RandomSource :=
  match n with
  | O => ([], g)
  | S n' =>
      let (v, g1) := trial initialOutlay schedule g in
      let (vs, g2) := trials n' initialOutlay schedule g1 in
      (v :: vs, g2)
  end.

End Simulator.

Arguments random {RandomSource} _.
Arguments cashflows {RandomSource} _.
Arguments rows {RandomSource} _.
Arguments simCF {RandomSource} _.
Arguments out {RandomSource} _.
Arguments values {RandomSource} _.
Arguments isRunning {RandomSource} _.
Arguments mkStore {RandomSource} _ _ _ _ _ _ _.
Arguments for_from {RandomSource} k n body _.
Arguments for_ {RandomSource} bound body _.
Arguments year_body {RandomSource} randn config y _.
Arguments trial_body {RandomSource} randn config t0 baseYears k _.
Arguments runSim {RandomSource} randn config _.
Arguments trial_flows {RandomSource} randn config schedule y g.
Arguments trial_rate {RandomSource} randn config g.
Arguments trial {RandomSource} randn config initialOutlay schedule g.
Arguments trials {RandomSource} randn config n initialOutlay schedule g.

(** ** The specification's formulas, over exact rationals *)

(** [sum over t of series[t] / (1 + rate)^t], the series starting at
    period [t]. *)
Fixpoint present_value_from (series : list Q) (r : Q) (t : nat) : Q :=
  match series with
  | [] => 0
  | c :: later => c / (1 + r) ^ Z.of_nat t + present_value_from later r (S t)
  end.

Definition present_value (series : list Q) (r : Q) : Q :=
  present_value_from series r 0.



(** Sign changes of a series: zero flows are skipped. *)
Fixpoint sign_changes_from (last : comparison) (series : list Q) : nat :=
  match series with
  | [] => O
  | c :: later =>
      let s := (c ?= 0)%Q in
      match s, last with
      | Eq, _ => sign_changes_from last later
      | Lt, Gt | Gt, Lt => S (sign_changes_from s later)
      | _, _ => sign_changes_from s later
      end
  end.

Definition sign_changes (series : list Q) : nat :=
  sign_changes_from Eq series.

(** [|v| < 1e-6]: the tolerance of the round-trip property; false of
    [NaN]. *)
Definition approx_zero (v : number) : bool :=
  ltb (Math_abs v) (Num (1 # 1000000)).

Definition sumQ (xs : list Q) : Q := fold_right Qplus 0 xs.

Definition count_of (xs : list Q) : Q := inject_Z (Z.of_nat (length xs)).

(** The population variance [(1/n) * sum (x - mean)^2], [mean = (sum x)/n]. *)
Definition population_mean (xs : list Q) : Q := sumQ xs / count_of xs.

Definition population_variance (xs : list Q) : Q :=
  (1 / count_of xs)
  * sumQ (map (fun x => (x - population_mean xs) ^ 2) xs).

(** The sample (Bessel-corrected) variance, dividing by [n - 1]. *)
Definition sample_variance (xs : list Q) : Q :=
  (1 / (count_of xs - 1))
  * sumQ (map (fun x => (x - population_mean xs) ^ 2) xs).

(** The verdict table of the fallback narrative. *)
Definition verdict_table (npvPositive irrAboveRate : bool) : Verdict :=
  match npvPositive, irrAboveRate with
  | true, true => Accept
  | false, false => Reject
  | _, _ => NeedsOptimization
  end.

(** Total of the bin counts of a histogram. *)
Definition total_count (h : Histogram) : number :=
  fold_left add (map bin_count (hist_bins h)) (Num 0).



(** ** The rest of the component and of the application *)

Section Literals.

Import String.
Local Open Scope string_scope.

(** [riskDefaults], lines 152-159. *)
Definition riskDefaults : list RiskItem :=
  [ mkRiskItem "ریسک بازار" (Num 3) (Num 4);
    mkRiskItem "ریسک مالی" (Num 3) (Num 3);
    mkRiskItem "ریسک تامین مالی" (Num 2) (Num 4);
    mkRiskItem "ریسک فناوری" (Num 2) (Num 3);
    mkRiskItem "ریسک حقوقی/قانونی" (Num 2) (Num 3);
    mkRiskItem "ریسک اجرایی" (Num 3) (Num 4) ].

(** The text the route handler answers with when the service sent none,
    line 53 of [part_000]. *)
Definition noAnswer : string := "پاسخی دریافت نشد".

End Literals.

(** [mapCell] of [RiskMatrix], line 168: one of the literals [0], [1], [2]. *)
Definition mapCell (v : number) : nat :=
  if leb v (Num 2) then 0%nat else if eqb v (Num 3) then 1%nat else 2%nat.

(** [arr[k] = f(arr[k])] for a subscript inside the array. *)
Fixpoint update_at {A : Type} (k : nat) (f : A -> A) (arr : list A) : list A :=
  match arr, k with
  | [], _ => []
  | a :: rest, O => f a :: rest
  | a :: rest, S k' => a :: update_at k' f rest
  end.

(** The grid [cells] of [RiskMatrix], lines 170-178: three rows of three
    lists of names; [cells[2 - y][x].list.push(r.name)] for every item.  The
    subscripts are results of [mapCell], so they are inside the grid. *)
Definition Cells : Type := list (list (list String.string)).

Definition empty_cells : Cells := repeat (repeat [] 3) 3.

Definition push_cell (row col : nat) (name : String.string) (cells : Cells)
  : Cells :=
  update_at row (update_at col (fun list => list ++ [name])) cells.

Definition RiskMatrix_cells (items : list RiskItem) : Cells :=
  fold_left
    (fun cells r =>
       let y := mapCell (risk_p r) in
       let x := mapCell (risk_i r) in
       push_cell (2 - y) x (risk_name r) cells)
    items empty_cells.

(** [[...arr].sort(cmp)] for any element type: the stable sort of [sort],
    with the comparator as a parameter. *)
Fixpoint insert_by {A : Type} (cmp : A -> A -> number) (x : A)
         (sorted : list A) : list A :=
  match sorted with
  | [] => [x]
  | y :: rest =>
      if gtb (cmp x y) (Num 0) then y :: insert_by cmp x rest
      else x :: sorted
  end.

Definition sort_by {A : Type} (cmp : A -> A -> number) (arr : list A)
  : list A :=
  fold_right (insert_by cmp) [] arr.

Record Mitigation : Type := mkMitigation {
  mit_name : String.string;
  mit_score : number;
  mit_level : Label;
  mit_tips : list String.string
}.

Section Mitigations.

(** [suggestions[r.name] || [...]], lines 318-330: the tips looked up for a
    risk name, the generic three when the table has none. *)
Variable tips_of : String.string -> list String.string.

(** [bestMitigation], lines 315-332. *)
Definition bestMitigation (risks : list RiskItem) : list Mitigation :=
  let sorted :=
    sort_by (fun a b => sub (mul (risk_p b) (risk_i b))
                            (mul (risk_p a) (risk_i a))) risks in
  let top := firstn 2 sorted in
  map (fun r =>
         mkMitigation (risk_name r)
                      (mul (risk_p r) (risk_i r))
                      (riskLevel (mul (risk_p r) (risk_i r)))
                      (tips_of (risk_name r)))
      top.

End Mitigations.

(** The bars of [MiniHistogram], lines 89-101: the height of each bar in
    per cent, [(b.count / maxCount) * 100] with
    [maxCount = Math.max(...counts, 1)]. *)
Definition MiniHistogram_heights (values : list number) : list number :=
  let hist := buildHistogram values 22 in
  let maxCount :=
    Math_max_of (map bin_count (hist_bins hist) ++ [Num 1]) in
  map (fun b => mul (div (bin_count b) maxCount) (Num 100)) (hist_bins hist).

(** [realRateFromNominal], lines 689-691. *)
Definition realRateFromNominal (nominal inflation : number) : number :=
  sub (div (add (Num 1) nominal) (add (Num 1) inflation)) (Num 1).

(** *** Digits *)

(** A JavaScript string, as its UTF-16 code units. *)
Definition jsstring : Type := list Z.

(** [\d] and [[0-9]]. *)
Definition is_digit (c : Z) : bool := ((48 <=? c) && (c <=? 57))%Z.

(** [farsiDigits], lines 6 and 647: the ten digits from U+06F0. *)
Definition farsiDigits : list jsstring :=
  [[1776]; [1777]; [1778]; [1779]; [1780]; [1781]; [1782]; [1783]; [1784];
   [1785]]%Z.

(** [s.replace(/.../g, f)] for a pattern that matches single code units:
    each matching unit is replaced by [f] of it. *)
Definition replace_units (matches : Z -> bool) (f : Z -> jsstring)
           (s : jsstring) : jsstring :=
  flat_map (fun c => if matches c then f c else [c]) s.

(** [parseInt(x, 10)] of one digit. *)
Definition parseInt_digit (x : Z) : nat := Z.to_nat (x - 48).

(** [toPersianDigits], lines 8-9 and 649-650, on a string (for a number, on
    its decimal text). *)
Definition toPersianDigits (s : jsstring) : jsstring :=
  replace_units is_digit (fun x => nth (parseInt_digit x) farsiDigits []) s.

(** [str.indexOf(d)] for one code unit [d]: [-1] when it is not there. *)
Fixpoint indexOf_from (str : jsstring) (d : Z) (k : Z) : Z :=
  match str with
  | [] => (-1)%Z
  | c :: rest => if (c =? d)%Z then k else indexOf_from rest d (k + 1)%Z
  end.

Definition indexOf (str : jsstring) (d : Z) : Z := indexOf_from str d 0.

(** [k.toString()] for [k] from [-1] to [9], the results of [indexOf] in a
    string of ten units. *)
Definition toString_index (k : Z) : jsstring :=
  if (k <? 0)%Z then [45; 49]%Z else [(48 + k)%Z].

Definition persianDigits : jsstring :=
  [1776; 1777; 1778; 1779; 1780; 1781; 1782; 1783; 1784; 1785]%Z.

Definition arabicDigits : jsstring :=
  [1632; 1633; 1634; 1635; 1636; 1637; 1638; 1639; 1640; 1641]%Z.

(** [parsePersianInput], lines 652-657. *)
Definition parsePersianInput (val : jsstring) : jsstring :=
  let s1 :=
    replace_units (fun c => (1776 <=? c) && (c <=? 1785))%Z
                  (fun d => toString_index (indexOf persianDigits d)) val in
  let s2 :=
    replace_units (fun c => (1632 <=? c) && (c <=? 1641))%Z
                  (fun d => toString_index (indexOf arabicDigits d)) s1 in
  filter (fun c => is_digit c || (c =? 46)%Z || (c =? 45)%Z) s2.

(** *** The application component *)

Module CapWiseApp.

Inductive Scenario : Type := base | optimistic | pessimistic.

(** The rows effect, lines 803-811; [years] is a count. *)
Definition rows (years : nat) : list CashflowRow :=
  map (fun i =>
         let y := add (of_nat i) (Num 1) in
         let revenue := Num 450000000 in
         let cost := Num 220000000 in
         mkRow y revenue cost (sub revenue cost))
      (seq 0 years).

(** [effectiveRate], lines 813-816. *)
Definition effectiveRate (useRealRate : bool) (discountRate inflation : number)
  : number :=
  if useRealRate then realRateFromNominal discountRate inflation
  else discountRate.

(** [scenarioRows], lines 818-829. *)
Definition mul (revMul costMul : number) (rows : list CashflowRow)
  : list CashflowRow :=
  map (fun r =>
         let revenue := JS.mul (revenue r) revMul in
         let cost := JS.mul (cost r) costMul in
         mkRow (year r) revenue cost (sub revenue cost))
      rows.

Definition scenarioRows (rows : list CashflowRow) (scenario : Scenario)
  : list CashflowRow :=
  match scenario with
  | optimistic => mul (Num (28 # 25)) (Num (19 # 20)) rows
  | pessimistic => mul (Num (22 # 25)) (Num (11 # 10)) rows
  | base => rows
  end.

(** [cashflows], lines 831-835. *)
Definition cashflows (initialInvestment : number)
           (scenarioRows : list CashflowRow) : list number :=
  neg (Math_abs initialInvestment) :: map net scenarioRows.

(** [KPI], lines 837-841. *)
Record Indicators : Type := mkIndicators { vNPV : number; vIRR : number }.

Definition KPI (cashflows : list number) (effectiveRate : number)
  : Indicators :=
  mkIndicators (npv cashflows effectiveRate) (irr cashflows (Num (1 # 5))).

(** [npvProfile], lines 843-847: [for (let r = 0; r <= 40; r += 2)].
    [None]: the loop has not ended within the allowance of rounds. *)
Fixpoint npvProfile_loop (cashflows : list number) (allowance : nat)
         (r : number) (pts : list number) : option (list number) :=
  match allowance with
  | O => None
  | S allowance' =>
      if leb r (Num 40) then
        npvProfile_loop cashflows allowance' (add r (Num 2))
                        (pts ++ [npv cashflows (div r (Num 100))])
      else Some pts
  end.

Definition npvProfile (cashflows : list number) : option (list number) :=
  npvProfile_loop cashflows 64 (Num 0) [].

End CapWiseApp.

(** *** The advisor: the route handler and its client *)

(** An awaited promise: rejected (the [await] throws) or resolved. *)
Inductive Awaited (A : Type) : Type :=
| Rejected
| Resolved (a : A).

Arguments Rejected {A}.
Arguments Resolved {A} a.

(** What the route handler [POST] of [part_000] meets: the request body
    ([None]: [req.json()] rejects or has nothing to destructure), the API
    key of the environment, and the answer of the upstream service. *)
Record Upstream : Type := mkUpstream {
  up_status : nat;
  up_ok : bool;
  (** [response.json()], and in it the text the optional chain reads *)
  up_data : Awaited (option String.string)
}.

Inductive ReplyBody : Type :=
| KeyMissing
| QuotaExceeded
| UpstreamError (status : nat)
| Answer (text : String.string)
| FetchFailed.

Record Reply : Type := mkReply {
  reply_status : nat;
  reply_ok : bool;
  reply_body : ReplyBody
}.

(** [text || "..."]: the empty string is falsy too. *)
Definition text_or (text : option String.string) (other : String.string)
  : String.string :=
  match text with
  | Some t => if String.eqb t String.EmptyString then other else t
  | None => other
  end.

(** [POST], lines 3-61 of [part_000]. *)
Definition POST (body : Awaited String.string) (apiKey : option String.string)
           (upstream : Awaited Upstream) : Reply :=
  match body with
  | Rejected => mkReply 500 false FetchFailed
  | Resolved prompt =>
      match apiKey with
      | None => mkReply 500 false KeyMissing
      | Some key =>
          if String.eqb key String.EmptyString then
            mkReply 500 false KeyMissing
          else
            match upstream with
            | Rejected => mkReply 500 false FetchFailed
            | Resolved response =>
                match up_data response with
                | Rejected => mkReply 500 false FetchFailed
                | Resolved text =>
                    if (up_status response =? 429)%nat then
                      mkReply 429 false QuotaExceeded
                    else if negb (up_ok response) then
                      mkReply 500 false (UpstreamError (up_status response))
                    else
                      mkReply 200 true
                              (Answer (text_or text noAnswer))
                end
            end
      end
  end.

(** What one [fetch("/api/gemini")] of the client gives: [res.status],
    [res.ok] and the [text] of the parsed body. *)
Record Fetched : Type := mkFetched {
  res_status : nat;
  res_ok : bool;
  res_text : option String.string
}.

Inductive AdvisorError : Type :=
| RATE_LIMIT | API_ERROR | NETWORK_ERROR | UNKNOWN.

Inductive AdvisorResult : Type :=
| Advice (text : option String.string)
| Failure (error : AdvisorError).

(** The result of a call together with the requests it made and the
    milliseconds it waited between them. *)
Record AdvisorRun : Type := mkAdvisorRun {
  run_result : AdvisorResult;
  run_requests : nat;
  run_waited : nat
}.

(** [callGeminiWithRetry], lines 862-892; [retries] is a count.  [network k]
    is what the request of round [k] gives: rejected when [fetch] or
    [res.json()] throws.  [left] rounds of the loop remain. *)
Fixpoint callGemini_from (network : nat -> Awaited Fetched) (retries : nat)
         (attempt left waited : nat) : AdvisorRun :=
  match left with
  | O => mkAdvisorRun (Failure UNKNOWN) attempt waited
  | S left' =>
      match network attempt with
      | Resolved res =>
          if (res_status res =? 429)%nat then
            if (attempt <? retries)%nat then
              callGemini_from network retries (S attempt) left'
                              (waited + 5000)
            else mkAdvisorRun (Failure RATE_LIMIT) (S attempt) waited
          else if negb (res_ok res) then
            mkAdvisorRun (Failure API_ERROR) (S attempt) waited
          else mkAdvisorRun (Advice (res_text res)) (S attempt) waited
      | Rejected =>
          if (attempt <? retries)%nat then
            callGemini_from network retries (S attempt) left' (waited + 2000)
          else mkAdvisorRun (Failure NETWORK_ERROR) (S attempt) waited
      end
  end.

Definition callGeminiWithRetry (network : nat -> Awaited Fetched)
           (retries : nat) : AdvisorRun :=
  callGemini_from network retries 0 (S retries) 0.

(** The bin a finite outcome [q] is counted in,
    [clamp(floor((q - minV) / step), 0, bins - 1)], as a natural number. *)
Definition bin_of (minV step : Q) (bins : nat) (q : Q) : nat :=
  Z.to_nat (Z.max 0 (Z.min (Z.of_nat bins - 1) (Qfloor ((q - minV) / step)))).

(** The rank [idx] of the [i]-th point of [buildCDF] among [n] sorted
    outcomes, [Math.floor((i / (points - 1)) * (n - 1))], as a natural
    number. *)
Definition cdf_rank (points n i : nat) : nat :=
  Z.to_nat (Qfloor (inject_Z (Z.of_nat i) / inject_Z (Z.of_nat points - 1)
                    * inject_Z (Z.of_nat n - 1))).

(** A risk with finite ratings, and its score [p * i] as a rational. *)
Definition finite_risk (t : String.string * Q * Q) : RiskItem :=
  let '(name, p, i) := t in mkRiskItem name (Num p) (Num i).

Definition item_score (t : String.string * Q * Q) : Q :=
  let '(_, p, i) := t in p * i.

(** Whether a risk belongs in the cell of row [row] and column [col] of
    the matrix: [2 - mapCell(r.p)] is its row and [mapCell(r.i)] its
    column. *)
Definition in_cell (row col : nat) (r : RiskItem) : bool :=
  ((2 - mapCell (risk_p r) =? row) && (mapCell (risk_i r) =? col))%nat.

(** What the client's [fetch("/api/gemini")] gives when the route handler
    replies [reply]: the status of the reply, [res.ok] for a status from 200
    to 299, and the [text] of the body, which only an answer has. *)
Definition fetched_reply (reply : Reply) : Fetched :=
  mkFetched (reply_status reply)
            ((200 <=? reply_status reply) && (reply_status reply <=? 299))%nat
            (match reply_body reply with
             | Answer text => Some text
             | _ => None
             end).

(** A round the client retries: the request failed, or came back with
    status 429. *)
Definition retried (round : Awaited Fetched) : Prop :=
  match round with
  | Rejected => True
  | Resolved res => res_status res = 429%nat
  end.

(** ** The numbers of the runtime

    Above, a number is an exact rational.  The runtime computes in binary64
    and rounds every result; where that decides a property, the function is
    embedded a second time over the binary64 numbers themselves.  The names
    are those of the source again. *)

Module Binary64.

Import PrimFloat SpecFloat FloatOps.
Local Open Scope float_scope.

Definition of_Z (z : Z) : float :=
  if (z <? 0)%Z then - of_uint63 (Uint63.of_Z (- z))
  else of_uint63 (Uint63.of_Z z).

Definition of_nat (n : nat) : float := of_Z (Z.of_nat n).

(** [Math.floor]: a number with no fraction bits, an infinity, a zero and
    [NaN] are returned as they are; otherwise the significand is shifted
    down, towards minus infinity. *)
Definition Math_floor (x : float) : float :=
  match Prim2SF x with
  | S754_finite s m e =>
      if (0 <=? e)%Z then x
      else of_Z (Z.shiftr (if s then Z.neg m else Z.pos m) (- e))
  | _ => x
  end.

Definition Math_ceil (x : float) : float := - Math_floor (- x).

(** A subscript that is an index: a zero, or a positive whole number. *)
Definition as_index (x : float) : option nat :=
  match Prim2SF x with
  | S754_zero _ => Some 0%nat
  | S754_finite false m e =>
      if (0 <=? e)%Z then Some (Z.to_nat (Z.shiftl (Z.pos m) e))
      else if (Z.land (Z.pos m) (Z.ones (- e)) =? 0)%Z
           then Some (Z.to_nat (Z.shiftr (Z.pos m) (- e)))
           else None
  | _ => None
  end.

Definition get (arr : list float) (i : float) : option float :=
  match as_index i with
  | Some k => nth_error arr k
  | None => None
  end.

Definition to_number (v : option float) : float :=
  match v with Some a => a | None => nan end.

Fixpoint sort_insert (x : float) (sorted : list float) : list float :=
  match sorted with
  | [] => [x]
  | y :: rest =>
      if 0 <? x - y then y :: sort_insert x rest else x :: sorted
  end.

Definition sort (arr : list float) : list float :=
  fold_right sort_insert [] arr.

(** [percentile], lines 20-29. *)
Definition percentile (arr : list float) (p : float) : option float :=
  match arr with
  | [] => Some nan
  | _ =>
      let sorted := sort arr in
      let idx := p / 100 * (of_nat (length sorted) - 1) in
      let lo := Math_floor idx in
      let hi := Math_ceil idx in
      if lo =? hi then get sorted lo
      else
        let w := idx - lo in
        Some (to_number (get sorted lo) * (1 - w)
              + to_number (get sorted hi) * w)
  end.

End Binary64.

(** ** The range of binary64

    A property of the exact numbers above is a property of the running code
    only while no result leaves the range of binary64.  [2^1022] bounds the
    outcomes, so that a difference of two of them does not overflow;
    [2^-1022], the least normal number, is what a quotient has to reach to be
    rounded like any other and not to zero. *)
Definition binary64_large : Q := inject_Z (2 ^ 1022).

Definition binary64_least_normal : Q := 1 # (2 ^ 1022).

(** Every outcome is at most [2^1022] in size. *)
Definition in_range (qs : list Q) : bool :=
  forallb (fun q => Qle_bool (Qabs q) binary64_large) qs.

(** Two outcomes that differ, differ by [bins * 2^-1022] at least: the
    width of a bin is then a normal number. *)
Definition apart (bins : nat) (qs : list Q) : bool :=
  forallb
    (fun x =>
       forallb
         (fun y =>
            Qle_bool y x
            || Qle_bool (inject_Z (Z.of_nat bins) * binary64_least_normal)
                        (y - x))
         qs)
    qs.

(** The handlers of the two sliders of a row of the risk table, lines
    563-566 and 577-580:
    [setRisks(prev => prev.map((x, i) => i === idx ? { ...x, p: v } : x))],
    and the same for [i]. *)
Inductive RatingUpdate : Type :=
| SetP (idx : nat) (v : number)
| SetI (idx : nat) (v : number).

Definition setRisks (prev : list RiskItem) (u : RatingUpdate)
  : list RiskItem :=
  match u with
  | SetP idx v =>
      mapi (fun x i =>
              if (i =? idx)%nat then mkRiskItem (risk_name x) v (risk_i x)
              else x)
           prev
  | SetI idx v =>
      mapi (fun x i =>
              if (i =? idx)%nat then mkRiskItem (risk_name x) (risk_p x) v
              else x)
           prev
  end.

(** The register after a sequence of slider moves: the state starts as
    [useState(riskDefaults)], line 306, and nothing else sets it. *)
Definition risks_after (updates : list RatingUpdate) : list RiskItem :=
  fold_left setRisks updates riskDefaults.

(** What a slider with [min={1}] and [max={5}] reports: a whole number from
    1 to 5. *)
Definition slider_value (u : RatingUpdate) : Prop :=
  exists k : Z,
    (1 <= k <= 5)%Z
    /\ match u with SetP _ v | SetI _ v => v = Num (inject_Z k) end.

(** A rating from 1 to 5 on both scales. *)
Definition rated_1_to_5 (t : String.string * Q * Q) : Prop :=
  let '(_, p, i) := t in 1 <= p /\ p <= 5 /\ 1 <= i /\ i <= 5.

(** * Properties *)

(** ** Numbers in lowest terms *)

(** The special cases the source runs into. *)
Example number_special_cases :
  div (Num 0) (Num 0) = NaN
  /\ div (Num 1) (Num 0) = Infinity
  /\ div (Num (-1)) (Num 0) = NegInfinity
  /\ sub Infinity Infinity = NaN
  /\ mul (Num 0) Infinity = NaN
  /\ leb NaN (Num 6) = false
  /\ ltb NaN NaN = false
  /\ Math_pow NaN 0 = Num 1
  /\ Math_pow (Num 0) 0 = Num 1
  /\ Math_floor NaN = NaN
  /\ get [Num 7] NaN = None
  /\ or_else (Num 0) (Num 1) = Num 1
  /\ or_else NaN (Num 1) = Num 1.
Proof. repeat split. Qed.

Lemma num_ext (a b : Q) : a == b -> num a = num b.
Proof. intros H. unfold num. f_equal. now apply Qred_complete. Qed.

Lemma Qred_inject_Z (z : Z) : Qred (inject_Z z) = inject_Z z.
Proof.
  pose proof (gcd_Qred (inject_Z z)) as G.
  pose proof (Qred_correct (inject_Z z)) as E.
  destruct (Qred (inject_Z z)) as [p q].
  unfold Qeq, inject_Z in *. simpl in *.
  rewrite Z.mul_1_r in E. subst p.
  rewrite Z.gcd_comm, Z.mul_comm, Z.gcd_mul_diag_l in G by apply Pos2Z.is_nonneg.
  injection G as ->. now rewrite Z.mul_1_r.
Qed.

Lemma num_inject_Z (a : Q) (z : Z) : a == inject_Z z -> num a = Num (inject_Z z).
Proof.
  intros H. rewrite (num_ext _ _ H). unfold num. now rewrite Qred_inject_Z.
Qed.

Lemma Qeq_bool_false (a b : Q) : ~ a == b -> Qeq_bool a b = false.
Proof.
  intros H. destruct (Qeq_bool a b) eqn:E; [|reflexivity].
  apply Qeq_bool_iff in E. contradiction.
Qed.

Lemma ltb_Num (a b : Q) : ltb (Num a) (Num b) = true <-> a < b.
Proof.
  unfold ltb. destruct (Qcompare_spec a b); split; intros H';
    try discriminate; try reflexivity; lra.
Qed.

Lemma div_Num (a b : Q) : ~ b == 0 -> div (Num a) (Num b) = num (a / b).
Proof. intros H. unfold div. now rewrite (Qeq_bool_false _ _ H). Qed.

Lemma div_by_zero_not_finite (a b : Q) :
  b == 0 -> isFinite (div (Num a) (Num b)) = false.
Proof.
  intros H. unfold div. apply Qeq_bool_iff in H. rewrite H.
  now destruct (a ?= 0).
Qed.

Lemma add_not_finite_l (a b : number) :
  isFinite a = false -> isFinite (add a b) = false.
Proof. now destruct a, b. Qed.

Lemma add_not_finite_r (a b : number) :
  isFinite b = false -> isFinite (add a b) = false.
Proof. now destruct a, b. Qed.

Lemma Math_pow_Num (x : Q) (t : nat) :
  exists v, Math_pow (Num x) t = Num v /\ v == x ^ Z.of_nat t.
Proof.
  destruct t as [|t].
  - exists 1. split; reflexivity.
  - eexists. split; [reflexivity|]. apply Qred_correct.
Qed.

Lemma length_map_Num (xs : list Q) : length (map Num xs) = length xs.
Proof. apply length_map. Qed.

(** ** ValuationMath: present value *)


Lemma npv_unfold (cashflows : list number) (rate : number) :
  npv cashflows rate =
  reduce_from (fun acc cf t => add acc (div cf (Math_pow (add (Num 1) rate) t)))
              cashflows 0 (Num 0).
Proof. reflexivity. Qed.

(** Away from the singularity the fold computes the discounted sum. *)
Lemma npv_from_finite (series : list Q) (r : Q) :
  ~ 1 + r == 0 ->
  forall (t : nat) (a : Q),
  exists v,
    reduce_from (fun acc cf t => add acc (div cf (Math_pow (add (Num 1) (Num r)) t)))
                (map Num series) t (Num a) = Num v
    /\ v == a + present_value_from series r t.
Proof.
  intros Hr. induction series as [|c later IH]; intros t a.
  - exists a. split; [reflexivity|]. simpl. lra.
  - cbn [map reduce_from present_value_from].
    destruct (Math_pow_Num (Qred (1 + r)) t) as [d [Hd Hdv]].
    change (add (Num 1) (Num r)) with (Num (Qred (1 + r))).
    rewrite Hd.
    assert (Hd0 : ~ d == 0).
    { rewrite Hdv. apply Qpower_not_0. now rewrite Qred_correct. }
    rewrite (div_Num _ _ Hd0).
    change (add (Num a) (num (c / d))) with (Num (Qred (a + Qred (c / d)))).
    destruct (IH (S t) (Qred (a + Qred (c / d)))) as [v [Hv Hvv]].
    exists v. split; [exact Hv|].
    rewrite Hvv, !Qred_correct, Hdv, Qred_correct. lra.
Qed.

Lemma npv_finite (series : list Q) (r : Q) :
  ~ 1 + r == 0 ->
  exists v, npv (map Num series) (Num r) = Num v /\ v == present_value series r.
Proof.
  intros Hr. rewrite npv_unfold.
  destruct (npv_from_finite series r Hr 0 0) as [v [Hv Hvv]].
  exists v. split; [exact Hv|]. unfold present_value. rewrite Hvv. lra.
Qed.

(** A non-finite accumulator stays non-finite. *)
Lemma npv_from_not_finite (cashflows : list number) (rate : number) :
  forall (t : nat) (acc : number),
  isFinite acc = false ->
  isFinite
    (reduce_from (fun acc cf t => add acc (div cf (Math_pow (add (Num 1) rate) t)))
                 cashflows t acc) = false.
Proof.
  induction cashflows as [|cf later IH]; intros t acc H.
  - exact H.
  - cbn [reduce_from]. apply IH. now apply add_not_finite_l.
Qed.

Lemma one_plus_rate_zero (r : Q) :
  r == -1 -> add (Num 1) (Num r) = Num 0.
Proof.
  intros H. change (add (Num 1) (Num r)) with (num (1 + r)).
  apply (num_inject_Z _ 0%Z). rewrite H. reflexivity.
Qed.

Lemma Math_pow_zero (t : nat) : Math_pow (Num 0) (S t) = Num 0.
Proof.
  unfold Math_pow. apply (num_inject_Z _ 0%Z).
  apply Qpower_0. lia.
Qed.

(** C1: the end-to-end scenario.  [npv([-800000000, 230000000], 0.25)] is
    [-800000000 + 230000000/1.25 = -616000000]; the result is exact, so it
    lies within every tolerance. *)
Theorem npv_end_to_end_scenario :
  npv [Num (-800000000); Num 230000000] (Num (1 # 4)) = Num (-616000000)
  /\ -800000000 + 230000000 / (1 + (1 # 4)) == -616000000.
Proof. split; [vm_compute; reflexivity | reflexivity]. Qed.

(** C2, refuted as stated: at rate [-2], and at rate [-1] on a one-entry
    series, [npv] returns a finite number. *)
Lemma npv_finite_at_rate_below_minus_one :
  -2 <= -1
  /\ npv [Num (-800000000); Num 230000000] (Num (-2)) = Num (-1030000000)
  /\ isFinite (npv [Num (-800000000); Num 230000000] (Num (-2))) = true
  /\ npv [Num (-800000000)] (Num (-1)) = Num (-800000000).
Proof.
  split; [discriminate|]. repeat split; vm_compute; reflexivity.
Qed.

Lemma div_zero_divisor_not_finite (a : number) (b : Q) :
  b == 0 -> isFinite (div a (Num b)) = false.
Proof.
  intros H. destruct a as [x| | |]; [now apply div_by_zero_not_finite | | |].
  - cbn [div]. rewrite H. reflexivity.
  - cbn [div]. rewrite H. reflexivity.
  - reflexivity.
Qed.

(** C2, as amended: [npv] has no domain check and gives a number at every
    rate.  At the rate [-1] the divisor of the second flow is [0]: with two
    flows or more, whatever they are, the result is not finite; a single
    flow is returned as it is.  Below [-1] nothing marks the result: it is
    what the sum evaluates to, and can be finite. *)
Theorem npv_at_or_below_minus_one (cashflows : list number) (r : Q) :
  r == -1 ->
  ((2 <= length cashflows)%nat ->
   isFinite (npv cashflows (Num r)) = false)
  /\ (forall c, cashflows = [Num c] ->
      exists v, npv cashflows (Num r) = Num v /\ v == c).
Proof.
  intros Hr. split.
  - intros Hlen.
    destruct cashflows as [|c [|c' later]]; [simpl in Hlen; lia ..|].
    rewrite npv_unfold. cbn [reduce_from].
    apply npv_from_not_finite. apply add_not_finite_r.
    rewrite (one_plus_rate_zero r Hr), Math_pow_zero.
    now apply div_zero_divisor_not_finite.
  - intros c ->. eexists. split; [reflexivity|].
    rewrite !Qred_correct. field.
Qed.

Lemma npv_at_or_below_minus_one_witness :
  isFinite (npv [Num (-800000000); Num 230000000] (Num (-1))) = false
  /\ (exists v, npv [Num (-800000000)] (Num (-1)) = Num v
                /\ v == -800000000).
Proof.
  split.
  - apply (proj1 (npv_at_or_below_minus_one
                    [Num (-800000000); Num 230000000] (-1) ltac:(reflexivity))).
    simpl. lia.
  - apply (proj2 (npv_at_or_below_minus_one
                    [Num (-800000000)] (-1) ltac:(reflexivity))).
    reflexivity.
Defined.


(** ** The fallback narrative *)

(** C9: the verdict of [fallbackAnalysis] is the table over the two
    comparisons [npvValue > 0] and [irrValue > rate], for all numbers
    ([NaN] and the infinities included): accept when both hold, reject when
    neither does, needs-optimisation when exactly one does. *)
Theorem fallbackAnalysis_verdict (args : FallbackArgs) :
  fallbackAnalysis args
  = verdict_table (gtb (npvValue args) (Num 0))
                  (gtb (irrValue args) (rate args)).
Proof.
  unfold fallbackAnalysis, verdict_table.
  destruct (gtb (npvValue args) (Num 0)), (gtb (irrValue args) (rate args));
    reflexivity.
Qed.

(** The verdict does not depend on the project name, and an IRR that could
    not be computed ([NaN]) never counts as above the rate. *)
Lemma fallbackAnalysis_irr_NaN (n : String.string) (v r : number) :
  fallbackAnalysis (mkFallbackArgs n v NaN r)
  = if gtb v (Num 0) then NeedsOptimization else Reject.
Proof.
  unfold fallbackAnalysis. cbn [npvValue irrValue rate].
  assert (H : gtb NaN r = false) by now destruct r.
  rewrite H. now destruct (gtb v (Num 0)).
Qed.

(** ** RiskMatrixEngine *)

(** C7, refuted as stated: on the empty risk list the aggregate score is
    [0/0 = NaN], and since [NaN <= 6] and [NaN <= 14] are both false the
    level is [High].  Nothing guards the empty list. *)
Theorem totalRiskScore_empty :
  totalRiskScore [] = NaN /\ totalLevel [] = High.
Proof. split; reflexivity. Qed.

(** The thresholds of section 4.6, on the three scores the specification
    lists. *)
Example riskLevel_scores :
  riskLevel (mul (Num 3) (Num 4)) = Medium
  /\ riskLevel (mul (Num 5) (Num 5)) = High
  /\ riskLevel (mul (Num 1) (Num 1)) = Low.
Proof. repeat split; reflexivity. Qed.

(** ** DistributionSummarizer: the CDF sampler *)

(** With [points = 1] the only sample has rank
    [floor(0/0 * (n - 1)) = NaN]: its value is [undefined] and its
    probability [NaN], whatever the non-empty outcome sequence. *)
Lemma buildCDF_one_point (v : number) (vs : list number) :
  buildCDF (v :: vs) 1 = [mkCDFPoint None NaN].
Proof.
  unfold buildCDF. cbn [seq fold_left app].
  assert (H0 : div (of_nat 0) (sub (of_nat 1) (Num 1)) = NaN) by reflexivity.
  rewrite H0.
  assert (Hm : forall a, mul NaN a = NaN) by now intros [].
  rewrite Hm. cbn [Math_floor].
  assert (Hd : forall a, div NaN a = NaN) by now intros [].
  rewrite Hd. reflexivity.
Qed.

(** C8, refuted as stated: [buildCDF] has no guard for one point; the single
    sample of four outcomes is [{ x: undefined, p: NaN }]. *)
Lemma buildCDF_one_point_unguarded :
  buildCDF [Num 1; Num 2; Num 5; Num 3] 1 = [mkCDFPoint None NaN].
Proof. reflexivity. Qed.

(** A single outcome gives [p = 0/0 = NaN] at every sample, whatever the
    number of points. *)
Example buildCDF_one_value :
  buildCDF [Num 5] 3
  = [mkCDFPoint (Some (Num 5)) NaN; mkCDFPoint (Some (Num 5)) NaN;
     mkCDFPoint (Some (Num 5)) NaN].
Proof. reflexivity. Qed.

(** ** DistributionSummarizer: mean and standard deviation *)

Lemma sum_reduce_from (xs : list Q) :
  forall (t : nat) (a : Q),
  exists v,
    reduce_from (fun a b (_ : nat) => add a b) (map Num xs) t (Num a) = Num v
    /\ v == a + sumQ xs.
Proof.
  induction xs as [|x later IH]; intros t a.
  - exists a. split; [reflexivity|]. simpl. lra.
  - cbn [map reduce_from].
    change (add (Num a) (Num x)) with (Num (Qred (a + x))).
    destruct (IH (S t) (Qred (a + x))) as [v [Hv Hvv]].
    exists v. split; [exact Hv|].
    rewrite Hvv, Qred_correct. simpl. lra.
Qed.

Lemma count_of_nonzero (xs : list Q) : xs <> [] -> ~ count_of xs == 0.
Proof.
  intros H. destruct xs as [|x later]; [contradiction|].
  unfold count_of, Qeq. simpl. lia.
Qed.

Lemma length_or_one (xs : list Q) :
  xs <> [] ->
  or_else (of_nat (length (map Num xs))) (Num 1) = Num (count_of xs).
Proof.
  intros H. rewrite length_map_Num. unfold or_else, of_nat, truthy.
  fold (count_of xs).
  now rewrite (Qeq_bool_false _ _ (count_of_nonzero xs H)).
Qed.

Lemma mean_finite (xs : list Q) :
  xs <> [] ->
  exists m, mean (map Num xs) = Num m /\ m == sumQ xs / count_of xs.
Proof.
  intros H. unfold mean, reduce.
  destruct (sum_reduce_from xs 0 0) as [v [Hv Hvv]].
  rewrite Hv, (length_or_one xs H), (div_Num _ _ (count_of_nonzero xs H)).
  eexists. split; [reflexivity|].
  rewrite Qred_correct, Hvv. field. apply (count_of_nonzero xs H).
Qed.

Lemma sumQ_map_ext (f g : Q -> Q) (xs : list Q) :
  (forall x, f x == g x) -> sumQ (map f xs) == sumQ (map g xs).
Proof.
  intros H. induction xs as [|x later IH]; simpl; [reflexivity|].
  now rewrite IH, H.
Qed.

Lemma squared_deviations (xs : list Q) (m : Q) :
  map (fun x => Math_pow (sub x (Num m)) 2) (map Num xs)
  = map Num (map (fun x => Qred (Qred (x - m) ^ 2)) xs).
Proof. rewrite !map_map. reflexivity. Qed.

Lemma std_population_variance
      (Math_sqrt : number -> number) (xs : list Q) :
  xs <> [] ->
  exists v,
    std Math_sqrt (map Num xs) = Math_sqrt (Num v)
    /\ v == population_variance xs.
Proof.
  intros H. unfold std.
  destruct (mean_finite xs H) as [m [Hm Hmv]].
  rewrite Hm, squared_deviations.
  assert (H' : map (fun x => Qred (Qred (x - m) ^ 2)) xs <> []).
  { destruct xs; [contradiction | discriminate]. }
  destruct (mean_finite _ H') as [v [Hv Hvv]].
  exists v. split; [now rewrite Hv|].
  rewrite Hvv. unfold population_variance, population_mean, count_of.
  rewrite length_map.
  rewrite (sumQ_map_ext _ (fun x => (x - sumQ xs / count_of xs) ^ 2)).
  - unfold count_of. field. apply (count_of_nonzero xs H).
  - intros x. now rewrite !Qred_correct, Hmv.
Qed.

(** C10: for a non-empty sequence of finite outcomes the summary exists and
    its standard deviation is [std] of the outcomes, the square root of the
    population variance [(1/n) * sum (x - mean)^2] with [mean = (sum x)/n]:
    the divisor is [n], not [n - 1]. *)
Theorem stats_deviation_is_population
        (Math_sqrt : number -> number) (xs : list Q) :
  xs <> [] ->
  exists summary v,
    stats Math_sqrt (map Num xs) = Some summary
    /\ stat_s summary = std Math_sqrt (map Num xs)
    /\ stat_s summary = Math_sqrt (Num v)
    /\ v == population_variance xs.
Proof.
  intros H.
  destruct (std_population_variance Math_sqrt xs H) as [v [Hs Hv]].
  destruct xs as [|x later]; [contradiction|].
  eexists. exists v. split; [reflexivity|].
  cbn [stat_s]. repeat split; assumption.
Qed.

Lemma stats_deviation_is_population_witness :
  exists summary v,
    stats (fun a => a) (map Num [1; 3]) = Some summary
    /\ stat_s summary = std (fun a => a) (map Num [1; 3])
    /\ stat_s summary = Num v
    /\ v == population_variance [1; 3].
Proof.
  apply (stats_deviation_is_population (fun a => a) [1; 3]). discriminate.
Defined.

(** The divisor matters: on [[1, 3]] the population variance is [1], the
    sample variance [2], and [std] takes the root of [1]. *)
Example std_divides_by_n (Math_sqrt : number -> number) :
  std Math_sqrt [Num 1; Num 3] = Math_sqrt (Num 1)
  /\ population_variance [1; 3] == 1
  /\ sample_variance [1; 3] == 2.
Proof. repeat split. Qed.

(** ** DistributionSummarizer: the histogram *)

Lemma Qcompare_inject_Z (a b : Z) : (inject_Z a ?= inject_Z b) = (a ?= b)%Z.
Proof. unfold Qcompare, inject_Z. simpl. now rewrite !Z.mul_1_r. Qed.

Lemma Math_min_inject_Z (a b : Z) :
  Math_min (Num (inject_Z a)) (Num (inject_Z b)) = Num (inject_Z (Z.min a b)).
Proof.
  unfold Math_min, ltb. rewrite Qcompare_inject_Z.
  destruct (Z.compare_spec b a) as [E|L|G].
  - subst. now rewrite Z.min_id.
  - rewrite Z.min_r by lia. reflexivity.
  - rewrite Z.min_l by lia. reflexivity.
Qed.

Lemma Math_max_inject_Z (a b : Z) :
  Math_max (Num (inject_Z a)) (Num (inject_Z b)) = Num (inject_Z (Z.max a b)).
Proof.
  unfold Math_max, ltb. rewrite Qcompare_inject_Z.
  destruct (Z.compare_spec a b) as [E|L|G].
  - subst. now rewrite Z.max_id.
  - rewrite Z.max_r by lia. reflexivity.
  - rewrite Z.max_l by lia. reflexivity.
Qed.

Lemma as_index_inject_Z (k : Z) :
  (0 <= k)%Z -> as_index (Num (inject_Z k)) = Some (Z.to_nat k).
Proof.
  intros H. unfold as_index. rewrite Qred_inject_Z. simpl.
  apply Z.leb_le in H. now rewrite H.
Qed.

Lemma of_nat_pred (n : nat) :
  sub (of_nat n) (Num 1) = Num (inject_Z (Z.of_nat n - 1)).
Proof.
  unfold sub, of_nat. apply num_inject_Z.
  unfold Qeq, Qminus, Qplus, inject_Z. simpl. lia.
Qed.

Lemma of_nat_succ (n : nat) : add (of_nat n) (Num 1) = of_nat (S n).
Proof.
  unfold add, of_nat. apply num_inject_Z.
  unfold Qeq, Qplus, inject_Z. simpl. lia.
Qed.

Lemma of_nat_add (a b : nat) : add (of_nat a) (of_nat b) = of_nat (a + b).
Proof.
  unfold add, of_nat. apply num_inject_Z.
  unfold Qeq, Qplus, inject_Z. simpl. lia.
Qed.

(** The clamped subscript of a finite value is one of the [bins] indices. *)
Lemma bin_index_in_range (q mn st : Q) (bins : nat) :
  ~ st == 0 -> (1 <= bins)%nat ->
  exists j,
    as_index (clamp (Math_floor (div (sub (Num q) (Num mn)) (Num st)))
                    (Num 0) (sub (of_nat bins) (Num 1))) = Some j
    /\ (j < bins)%nat.
Proof.
  intros Hst Hb.
  change (sub (Num q) (Num mn)) with (Num (Qred (q - mn))).
  rewrite (div_Num _ _ Hst), of_nat_pred.
  unfold num, Math_floor, clamp.
  set (z := Qfloor (Qred (Qred (q - mn) / st))).
  rewrite Math_min_inject_Z.
  change (Num 0) with (Num (inject_Z 0)).
  rewrite Math_max_inject_Z.
  exists (Z.to_nat (Z.max 0 (Z.min (Z.of_nat bins - 1) z))).
  split; [apply as_index_inject_Z|]; lia.
Qed.

Lemma bump_counts (cs : list nat) :
  forall j, (j < length cs)%nat ->
  exists cs',
    bump (map of_nat cs) j = map of_nat cs'
    /\ length cs' = length cs
    /\ list_sum cs' = S (list_sum cs).
Proof.
  induction cs as [|c rest IH]; intros j Hj; [simpl in Hj; lia|].
  destruct j as [|j].
  - exists (S c :: rest). cbn [map bump]. rewrite of_nat_succ.
    repeat split.
  - destruct (IH j) as [cs' [Hb [Hl Hs]]]; [simpl in Hj; lia|].
    exists (c :: cs'). cbn [map bump]. rewrite Hb.
    repeat split; simpl; lia.
Qed.

Lemma counts_loop (mn st : Q) (bins : nat) :
  ~ st == 0 -> (1 <= bins)%nat ->
  forall (qs : list Q) (cs : list nat),
  length cs = bins ->
  exists cs',
    fold_left
      (fun counts v =>
         increment counts
                   (clamp (Math_floor (div (sub v (Num mn)) (Num st)))
                          (Num 0) (sub (of_nat bins) (Num 1))))
      (map Num qs) (map of_nat cs) = map of_nat cs'
    /\ length cs' = bins
    /\ list_sum cs' = (list_sum cs + length qs)%nat.
Proof.
  intros Hst Hb. induction qs as [|q later IH]; intros cs Hl.
  - exists cs. cbn [map fold_left length]. repeat split; [exact Hl | lia].
  - cbn [map fold_left].
    destruct (bin_index_in_range q mn st bins Hst Hb) as [j [Hj Hlt]].
    unfold increment at 2. rewrite Hj.
    destruct (bump_counts cs j) as [cs1 [Hb1 [Hl1 Hs1]]]; [lia|].
    rewrite Hb1.
    destruct (IH cs1) as [cs' [Hf [Hl' Hs']]]; [lia|].
    exists cs'. repeat split; [exact Hf | exact Hl' |].
    rewrite Hs', Hs1. simpl. lia.
Qed.

Lemma Math_min_fold_finite (qs : list Q) :
  forall a, exists m, fold_left Math_min (map Num qs) (Num a) = Num m.
Proof.
  induction qs as [|q later IH]; intros a; [now exists a|].
  cbn [map fold_left]. unfold Math_min at 2.
  destruct (ltb (Num q) (Num a)); apply IH.
Qed.

Lemma Math_max_fold_finite (qs : list Q) :
  forall a, exists m, fold_left Math_max (map Num qs) (Num a) = Num m.
Proof.
  induction qs as [|q later IH]; intros a; [now exists a|].
  cbn [map fold_left]. unfold Math_max at 2.
  destruct (ltb (Num a) (Num q)); apply IH.
Qed.

Lemma Math_min_of_finite (qs : list Q) :
  qs <> [] -> exists m, Math_min_of (map Num qs) = Num m.
Proof.
  destruct qs as [|q later]; [contradiction|]. intros _.
  apply (Math_min_fold_finite later q).
Qed.

Lemma Math_max_of_finite (qs : list Q) :
  qs <> [] -> exists m, Math_max_of (map Num qs) = Num m.
Proof.
  destruct qs as [|q later]; [contradiction|]. intros _.
  apply (Math_max_fold_finite later q).
Qed.

(** [maxV - minV || 1] is finite and not zero. *)
Lemma span_nonzero (mx mn : Q) :
  exists sp, or_else (sub (Num mx) (Num mn)) (Num 1) = Num sp /\ ~ sp == 0.
Proof.
  unfold or_else, sub, num, truthy.
  destruct (Qeq_bool (Qred (mx - mn)) 0) eqn:E.
  - exists 1. split; [reflexivity | discriminate].
  - eexists. split; [reflexivity|]. now apply Qeq_bool_neq.
Qed.

Lemma step_nonzero (sp : Q) (bins : nat) :
  ~ sp == 0 -> (1 <= bins)%nat ->
  exists st, div (Num sp) (of_nat bins) = Num st /\ ~ st == 0.
Proof.
  intros Hsp Hb. unfold of_nat.
  assert (Hn : ~ inject_Z (Z.of_nat bins) == 0).
  { unfold Qeq, inject_Z. simpl. lia. }
  rewrite (div_Num _ _ Hn). eexists. split; [reflexivity|].
  rewrite Qred_correct. intros H.
  apply Hsp. rewrite <- (Qmult_div_r sp _ Hn), H. ring.
Qed.

Lemma bin_count_mapi (f g : number -> nat -> number) (counts : list number) :
  forall i,
  map bin_count (mapi_from (fun c i => mkBin (f c i) (g c i) c) counts i)
  = counts.
Proof.
  induction counts as [|c rest IH]; intros i; [reflexivity|].
  cbn [mapi_from map bin_count]. now rewrite IH.
Qed.

Lemma length_mapi_from {A B : Type} (f : A -> nat -> B) (arr : list A) :
  forall i, length (mapi_from f arr i) = length arr.
Proof.
  induction arr as [|c rest IH]; intros i; [reflexivity|].
  cbn [mapi_from length]. now rewrite IH.
Qed.

Lemma fold_add_counts (cs : list nat) :
  forall a, fold_left add (map of_nat cs) (of_nat a) = of_nat (a + list_sum cs).
Proof.
  induction cs as [|c rest IH]; intros a.
  - simpl. now rewrite Nat.add_0_r.
  - cbn [map fold_left]. rewrite of_nat_add, IH.
    replace (a + c + list_sum rest)%nat with (a + list_sum (c :: rest))%nat
      by (simpl; lia).
    reflexivity.
Qed.

Lemma list_sum_repeat_zero (n : nat) : list_sum (repeat 0%nat n) = 0%nat.
Proof. induction n; simpl; auto. Qed.

Lemma repeat_zero_counts (n : nat) :
  repeat (Num 0) n = map of_nat (repeat 0%nat n).
Proof. induction n; simpl; [reflexivity|]. now rewrite <- IHn. Qed.

(** C6, refuted as stated: an outcome that is [NaN] makes the least and the
    greatest outcome [NaN], so that no subscript is an index and no counter
    is incremented.  The simulation gives such outcomes for an investment
    that is not a number; the small histogram has 22 bins. *)
Lemma buildHistogram_NaN_outcomes :
  total_count (buildHistogram [NaN; NaN; NaN] 22) = Num 0
  /\ of_nat (length [NaN; NaN; NaN]) = Num 3
  /\ total_count (buildHistogram [Num 1; NaN; Num 2] 2) = Num 0.
Proof. repeat split; reflexivity. Qed.

(** C6, as amended: the bin counts of the histogram of a non-empty sequence
    of finite outcomes add up to the length of the sequence, for every bin
    count of at least one and within the range of binary64: outcomes of a
    size up to [2^1022], of which two that differ, differ by
    [bins * 2^-1022] at least, and fewer than [2^32] bins.  A span of zero is
    covered, [maxV - minV || 1] replacing it by [1].  There are [bins]
    bins. *)
Theorem buildHistogram_mass_conservation (qs : list Q) (bins : nat) :
  qs <> [] -> (1 <= bins)%nat -> (Z.of_nat bins < 2 ^ 32)%Z ->
  in_range qs = true -> apart bins qs = true ->
  total_count (buildHistogram (map Num qs) bins) = of_nat (length qs)
  /\ length (hist_bins (buildHistogram (map Num qs) bins)) = bins.
Proof.
  intros Hne Hb _ _ _.
  destruct (Math_min_of_finite qs Hne) as [mn Hmn].
  destruct (Math_max_of_finite qs Hne) as [mx Hmx].
  destruct (span_nonzero mx mn) as [sp [Hsp Hsp0]].
  destruct (step_nonzero sp bins Hsp0 Hb) as [st [Hst Hst0]].
  destruct (counts_loop mn st bins Hst0 Hb qs (repeat 0%nat bins))
    as [cs [Hcs [Hlen Hsum]]]; [apply repeat_length|].
  assert (Hun : buildHistogram (map Num qs) bins
                = mkHistogram
                    (mapi (fun c i =>
                             mkBin (add (Num mn) (mul (of_nat i) (Num st)))
                                   (add (Num mn)
                                        (mul (add (of_nat i) (Num 1)) (Num st)))
                                   c)
                          (map of_nat cs))
                    (Num mn) (Num mx)).
  { destruct qs as [|q later]; [contradiction|].
    change (map Num (q :: later)) with (Num q :: map Num later) in *.
    unfold buildHistogram. cbv beta iota zeta.
    rewrite Hmn, Hmx, Hsp, Hst, repeat_zero_counts, Hcs. reflexivity. }
  rewrite Hun. unfold total_count, mapi. cbn [hist_bins].
  split.
  - rewrite bin_count_mapi.
    change (Num 0) with (of_nat 0).
    rewrite fold_add_counts, Hsum, list_sum_repeat_zero. reflexivity.
  - now rewrite length_mapi_from, length_map.
Qed.

Lemma buildHistogram_mass_conservation_witness :
  total_count (buildHistogram (map Num [3; 1; 2; 10]) 4) = of_nat 4
  /\ length (hist_bins (buildHistogram (map Num [3; 1; 2; 10]) 4)) = 4%nat.
Proof.
  apply (buildHistogram_mass_conservation [3; 1; 2; 10] 4).
  - discriminate.
  - lia.
  - reflexivity.
  - vm_compute. reflexivity.
  - vm_compute. reflexivity.
Defined.

(** The degenerate span of section 8: all of [[5, 5, 5]] falls in bin 0. *)
Example buildHistogram_degenerate_span :
  map bin_count (hist_bins (buildHistogram [Num 5; Num 5; Num 5] 4))
  = [Num 3; Num 0; Num 0; Num 0].
Proof. reflexivity. Qed.

(** ** DistributionSummarizer: percentiles *)

Lemma comparator_positive (x y : Q) :
  gtb (comparator (Num x) (Num y)) (Num 0) = true <-> y < x.
Proof.
  unfold gtb, comparator, sub, num, ltb.
  destruct (Qcompare_spec 0 (Qred (x - y))) as [E|L|G];
    rewrite Qred_correct in *; split; intros H; try discriminate;
    try reflexivity; lra.
Qed.

(** Inserting into an ascending finite array keeps it finite and
    ascending. *)
Lemma sort_insert_finite (x : Q) (s : list Q) :
  exists s',
    sort_insert (Num x) (map Num s) = map Num s'
    /\ length s' = S (length s)
    /\ Permutation (x :: s) s'
    /\ (forall P : Q -> Prop, P x -> Forall P s -> Forall P s')
    /\ (StronglySorted Qle s -> StronglySorted Qle s').
Proof.
  induction s as [|y rest IH].
  - exists [x]. repeat split.
    + apply Permutation_refl.
    + intros P Hx _. now constructor.
    + intros _. repeat constructor.
  - cbn [map sort_insert].
    destruct (gtb (comparator (Num x) (Num y)) (Num 0)) eqn:E.
    + apply comparator_positive in E.
      destruct IH as [s' [Hs [Hl [Hp [Hall Hsorted]]]]].
      exists (y :: s'). cbn [map]. rewrite Hs. repeat split.
      * simpl. now rewrite Hl.
      * rewrite perm_swap. now constructor.
      * intros P Hx Hys. inversion Hys; subst. constructor; auto.
      * intros Hst. inversion Hst; subst. constructor; [auto|].
        apply Hall; [lra | assumption].
    + assert (Hxy : x <= y).
      { destruct (Qlt_le_dec y x) as [L|G]; [|exact G].
        apply comparator_positive in L. congruence. }
      exists (x :: y :: rest). repeat split.
      * apply Permutation_refl.
      * intros P Hx Hys. now constructor.
      * intros Hst. constructor; [exact Hst|].
        constructor; [exact Hxy|]. inversion Hst; subst.
        eapply Forall_impl; [|eassumption]. intros a Ha. cbv beta in Ha. lra.
Qed.

Lemma sort_finite (qs : list Q) :
  exists s,
    sort (map Num qs) = map Num s
    /\ length s = length qs
    /\ Permutation qs s
    /\ StronglySorted Qle s.
Proof.
  induction qs as [|q later IH].
  - exists []. repeat split; constructor.
  - destruct IH as [s [Hs [Hl [Hp Hst]]]].
    destruct (sort_insert_finite q s) as [s' [Hs' [Hl' [Hp' [_ Hst']]]]].
    exists s'. unfold sort in *. cbn [map fold_right]. rewrite Hs, Hs'.
    repeat split; [simpl; lia | | auto].
    rewrite <- Hp'. now constructor.
Qed.

Lemma ascending_nth (s : list Q) :
  StronglySorted Qle s ->
  forall i j, (i <= j < length s)%nat -> nth i s 0 <= nth j s 0.
Proof.
  induction 1 as [|a rest Hst IH Hall]; intros i j Hij; [simpl in Hij; lia|].
  destruct i as [|i], j as [|j]; simpl in *; try lia.
  - lra.
  - rewrite Forall_forall in Hall. apply Hall. apply nth_In. lia.
  - apply IH. lia.
Qed.

Section Interpolation.

Variable s : list Q.

Let top : Q := inject_Z (Z.of_nat (length s)) - 1.




End Interpolation.


Lemma get_finite (s : list Q) (k : Z) :
  (0 <= k < Z.of_nat (length s))%Z ->
  get (map Num s) (Num (inject_Z k)) = Some (Num (nth (Z.to_nat k) s 0)).
Proof.
  intros H. unfold get. rewrite as_index_inject_Z by lia.
  rewrite nth_error_map, (nth_error_nth' s 0) by lia. reflexivity.
Qed.





Section PercentileOrder.

Import PrimFloat.


End PercentileOrder.



(** The rule on a small sample: the median of four outcomes lies half way
    between the second and the third. *)
Example percentile_median :
  percentile [Num 3; Num 1; Num 2; Num 10] (Num 50) = Some (Num (5 # 2)).
Proof. reflexivity. Qed.

(** ** MonteCarloSimulator *)

Section SimulatorProperties.

Variable RandomSource : Type.
Variable randn : RandomSource -> number * RandomSource.
Variable config : Config.

(** Reading the fields of a store that is written out. *)
Ltac store_simpl :=
  cbn [random cashflows rows simCF out values isRunning].

(** The loop test [k < bound] holds for the counters below [rounds bound],
    and for no other. *)
Lemma rounds_test (bound : number) (n k : nat) :
  rounds bound = Some n ->
  ltb (of_nat k) bound = true <-> (k < n)%nat.
Proof.
  destruct bound as [q| | |]; cbn [rounds]; intros H; try discriminate;
    injection H as <-.
  - unfold of_nat. rewrite ltb_Num.
    pose proof (Qle_ceiling q) as Hc. pose proof (Qceiling_lt q) as Hl.
    split; intros H.
    + assert (H' : inject_Z (Z.of_nat k) < inject_Z (Qceiling q)) by lra.
      rewrite <- Zlt_Qlt in H'. lia.
    + assert (H' : (Z.of_nat k <= Qceiling q - 1)%Z) by lia.
      rewrite Zle_Qle in H'. lra.
  - split; [discriminate | lia].
  - split; [discriminate | lia].
Qed.

Lemma rounds_Infinity (k : nat) : ltb (of_nat k) Infinity = true.
Proof. reflexivity. Qed.

Lemma rounds_of_nat (n : nat) : rounds (of_nat n) = Some n.
Proof.
  unfold rounds, of_nat. now rewrite Qceiling_Z, Nat2Z.id.
Qed.

(** The year loop appends the shocked net flows of the remaining years to
    [simCF]; it reads [rows] and advances the generator. *)
Lemma year_loop_flows (later : list CashflowRow) :
  forall (before : list CashflowRow) (st : Store RandomSource),
  rows st = before ++ later ->
  for_from (length before) (length later) (year_body randn config) st
  = Some (tt,
          mkStore
            (snd (trial_flows randn config later (length before) (random st)))
            (cashflows st) (rows st)
            (simCF st
             ++ fst (trial_flows randn config later (length before) (random st)))
            (out st) (values st) (isRunning st)).
Proof.
  induction later as [|row rest IH];
    intros before [g cfs rws scf o v r] Hrows;
    cbn [rows] in Hrows; subst rws;
    store_simpl.
  - cbn. unfold ret. now rewrite (app_nil_r scf).
  - pose proof (IH (before ++ [row])) as IH'.
    rewrite length_app, Nat.add_1_r in IH'.
    cbn [length for_from trial_flows].
    unfold bind at 1. unfold year_body at 1. unfold bind at 1.
    unfold row_at. cbn [rows].
    rewrite nth_error_app2, Nat.sub_diag by lia.
    cbn [nth_error]. unfold bind at 1, draw at 1. cbn [random].
    destruct (randn g) as [z1 g1] eqn:E1.
    unfold bind at 1, draw at 1. cbn [random].
    destruct (randn g1) as [z2 g2] eqn:E2.
    unfold push_simCF. store_simpl.
    rewrite IH' by (cbn [rows]; now rewrite <- app_assoc).
    store_simpl.
    destruct (trial_flows randn config rest (S (length before)) g2)
      as [flows g3].
    cbn [fst snd]. now rewrite <- app_assoc.
Qed.

(** One round of the trial loop pushes the outcome of one trial. *)
Lemma trial_body_outcome (t0 : number) (k : nat) (st : Store RandomSource) :
  trial_body randn config t0 (of_nat (length (rows st))) k st
  = Some (tt,
          mkStore
            (snd (trial randn config t0 (rows st) (random st)))
            (cashflows st) (rows st)
            (t0 :: fst (trial_flows randn config (rows st) 0 (random st)))
            (out st ++ [fst (trial randn config t0 (rows st) (random st))])
            (values st) (isRunning st)).
Proof.
  destruct st as [g cfs rws scf o v r].
  store_simpl.
  unfold trial_body, for_. rewrite rounds_of_nat.
  unfold bind at 1, new_simCF at 1.
  store_simpl.
  unfold bind at 1.
  change 0%nat with (length (@nil CashflowRow)) at 1.
  rewrite (year_loop_flows rws []) by reflexivity.
  store_simpl. cbn [length app].
  unfold trial, trial_rate.
  destruct (trial_flows randn config rws 0 g) as [flows g1].
  cbn [fst snd].
  destruct (randomizeRate config).
  - unfold bind at 1 2, draw, ret, read, push_out.
    store_simpl.
    destruct (randn g1) as [z g2]. reflexivity.
  - reflexivity.
Qed.

(** The trial loop appends the outcomes of its trials, in trial order. *)
Lemma trial_loop_outcomes (t0 : number) (n : nat) :
  forall (k : nat) (st : Store RandomSource),
  exists scf,
    for_from k n (trial_body randn config t0 (of_nat (length (rows st)))) st
    = Some (tt,
            mkStore
              (snd (trials randn config n t0 (rows st) (random st)))
              (cashflows st) (rows st) scf
              (out st ++ fst (trials randn config n t0 (rows st) (random st)))
              (values st) (isRunning st)).
Proof.
  induction n as [|n IH]; intros k st.
  - exists (simCF st). destruct st. cbn. unfold ret. now rewrite app_nil_r.
  - cbn [for_from trials]. unfold bind at 1.
    rewrite trial_body_outcome.
    set (st1 := mkStore _ _ _ _ _ _ _).
    destruct (IH (S k) st1) as [scf Hscf].
    change (rows st1) with (rows st) in Hscf.
    exists scf. rewrite Hscf. subst st1.
    store_simpl.
    destruct (trial randn config t0 (rows st) (random st)) as [v g1].
    cbn [fst snd].
    destruct (trials randn config n t0 (rows st) g1) as [vs g2].
    cbn [fst snd]. now rewrite <- app_assoc.
Qed.

Lemma length_trials (t0 : number) (schedule : list CashflowRow) (n : nat) :
  forall g, length (fst (trials randn config n t0 schedule g)) = n.
Proof.
  induction n as [|n IH]; intros g; [reflexivity|].
  cbn [trials]. destruct (trial randn config t0 schedule g) as [v g1].
  specialize (IH g1).
  destruct (trials randn config n t0 schedule g1) as [vs g2].
  cbn [fst length] in *. now rewrite IH.
Qed.

(** C4: for an integer trial count [runs = n], one run of [runSim]
    returns, and leaves in [values] the outcomes of [n] trials, in trial
    order: exactly [n] of them, each the present value of the outlay
    [cashflows[0]] followed by that trial's shocked flows.  The arrays
    [cashflows] and [rows] are as before the run. *)
Theorem runSim_outcomes (n : nat) (st : Store RandomSource) :
  runs config = of_nat n ->
  exists st',
    runSim randn config st = Some (tt, st')
    /\ values st'
       = fst (trials randn config n
                     (to_number (get (cashflows st) (Num 0)))
                     (rows st) (random st))
    /\ length (values st') = n
    /\ cashflows st' = cashflows st
    /\ rows st' = rows st.
Proof.
  intros Hruns. unfold runSim, for_. rewrite Hruns, rounds_of_nat.
  unfold bind at 1, setIsRunning at 1. unfold bind at 1, new_out.
  store_simpl.
  unfold bind at 1, read at 1.
  store_simpl.
  unfold bind at 1, read at 1.
  store_simpl.
  unfold bind at 1.
  set (t0 := to_number (get (cashflows st) (Num 0))).
  set (st1 := mkStore _ _ _ _ _ _ _).
  destruct (trial_loop_outcomes t0 n 0 st1) as [scf Hloop].
  change (rows st1) with (rows st) in Hloop.
  rewrite Hloop. subst st1.
  store_simpl. cbn [app].
  eexists. split; [reflexivity|].
  store_simpl.
  repeat split. apply length_trials.
Qed.

End SimulatorProperties.

(** A run of two trials over a one-year schedule, the generator handing
    out [0, 1, 2, ...]: the outcomes appear in trial order. *)
Example runSim_two_trials :
  let config := mkConfig (Num (1 # 4)) (Num 2) (Num (1 # 10)) (Num 0) (Num 0)
                         (Num 0) false (Num (1 # 20)) in
  let st := mkStore 0%nat [Num (-800); Num 230]
                    [mkRow (Num 1) (Num 450) (Num 220) (Num 230)]
                    [] [] [] false in
  option_map (fun r => values (snd r))
             (runSim (fun g => (of_nat g, S g)) config st)
  = Some [Num (-616); Num (-544)].
Proof. vm_compute. reflexivity. Qed.

Lemma runSim_outcomes_witness :
  exists st',
    runSim (fun g => (of_nat g, S g))
           (mkConfig (Num (1 # 4)) (of_nat 200) (Num (3 # 20)) (Num (3 # 25))
                     (Num (3 # 100)) (Num (1 # 50)) true (Num (1 # 20)))
           (mkStore 0%nat [Num (-800000000); Num 230000000]
                    [mkRow (Num 1) (Num 450000000) (Num 220000000)
                           (Num 230000000)]
                    [] [] [] false)
    = Some (tt, st')
    /\ values st'
       = fst (trials (fun g => (of_nat g, S g))
                     (mkConfig (Num (1 # 4)) (of_nat 200) (Num (3 # 20))
                               (Num (3 # 25)) (Num (3 # 100)) (Num (1 # 50))
                               true (Num (1 # 20)))
                     200 (Num (-800000000))
                     [mkRow (Num 1) (Num 450000000) (Num 220000000)
                            (Num 230000000)]
                     0%nat)
    /\ length (values st') = 200%nat
    /\ cashflows st' = [Num (-800000000); Num 230000000]
    /\ rows st' = [mkRow (Num 1) (Num 450000000) (Num 220000000)
                         (Num 230000000)].
Proof.
  apply (runSim_outcomes nat (fun g => (of_nat g, S g))
           (mkConfig (Num (1 # 4)) (of_nat 200) (Num (3 # 20)) (Num (3 # 25))
                     (Num (3 # 100)) (Num (1 # 50)) true (Num (1 # 20)))
           200
           (mkStore 0%nat [Num (-800000000); Num 230000000]
                    [mkRow (Num 1) (Num 450000000) (Num 220000000)
                           (Num 230000000)]
                    [] [] [] false)).
  reflexivity.
Defined.

(** ** ValuationMath: rate of return *)

Lemma irr_sums_unfold (cashflows : list number) (x : number) :
  irr_sums cashflows x =
  reduce_from
    (fun (acc : number * number) cf t =>
       let (f, df) := acc in
       (add f (div cf (Math_pow (add (Num 1) x) t)),
        add df (div (mul (neg (of_nat t)) cf)
                    (Math_pow (add (Num 1) x) (S t)))))
    cashflows 0 (Num 0, Num 0).
Proof. reflexivity. Qed.



Lemma sub_not_finite_l (a b : number) :
  isFinite a = false -> isFinite (sub a b) = false.
Proof. now destruct a, b. Qed.

Lemma sub_not_finite_r (a b : number) :
  isFinite b = false -> isFinite (sub a b) = false.
Proof. now destruct a, b. Qed.











(** On [[-1, 1]] the iteration settles, five steps from the guess, and the
    round trip holds. *)
Example irr_round_trip_converges :
  sign_changes [-1; 1] = 1%nat
  /\ irr [Num (-1); Num 1] default_guess
     = Num (- (1 # 23283064365386962890625))
  /\ approx_zero (npv [Num (-1); Num 1] (irr [Num (-1); Num 1] default_guess))
     = true.
Proof. repeat split; vm_compute; reflexivity. Qed.



(** * More properties of the source *)

(** ** Present value: zero flows, the rate, the flows *)

Lemma Qpower_nat_pos (a : Q) (t : nat) : 0 < a -> 0 < a ^ Z.of_nat t.
Proof. intros H. now apply Qpower_0_lt. Qed.

Lemma Qpower_nat_succ (a : Q) (t : nat) :
  ~ a == 0 -> a ^ Z.of_nat (S t) == a * a ^ Z.of_nat t.
Proof.
  intros H. rewrite Nat2Z.inj_succ. unfold Z.succ.
  rewrite (Qpower_plus a _ 1 H). simpl (a ^ 1). ring.
Qed.

Lemma Qpower_nat_le (a b : Q) (t : nat) :
  0 < a -> a <= b -> a ^ Z.of_nat t <= b ^ Z.of_nat t.
Proof.
  intros Ha Hab. induction t as [|t IH].
  - simpl. lra.
  - rewrite !Qpower_nat_succ by lra.
    apply Qmult_le_compat_nonneg; split; try lra.
    apply Qlt_le_weak. now apply Qpower_nat_pos.
Qed.

Lemma Qdiv_le_denominator (c x y : Q) :
  0 <= c -> 0 < x -> x <= y -> c / y <= c / x.
Proof.
  intros Hc Hx Hxy.
  apply Qle_shift_div_l; [lra|].
  setoid_replace (c / y * x) with (c * (x / y)) by (field; lra).
  assert (H : x / y <= 1) by (apply Qle_shift_div_r; lra).
  assert (H' : 0 <= c * (1 - x / y)) by (apply Qmult_le_0_compat; lra).
  setoid_replace (c * (x / y)) with (c - c * (1 - x / y)) by ring. lra.
Qed.


(** The discounted sum of non-negative flows does not grow with the rate. *)
Lemma present_value_from_rate (flows : list Q) (r1 r2 : Q) :
  Forall (fun c => 0 <= c) flows -> -1 < r1 -> r1 <= r2 ->
  forall t, present_value_from flows r2 t <= present_value_from flows r1 t.
Proof.
  intros Hall H1 H12. induction Hall as [|c later Hc Hlater IH]; intros t.
  - simpl. lra.
  - cbn [present_value_from]. specialize (IH (S t)).
    assert (H : c / (1 + r2) ^ Z.of_nat t <= c / (1 + r1) ^ Z.of_nat t).
    { apply Qdiv_le_denominator; [exact Hc | apply Qpower_nat_pos; lra |].
      apply Qpower_nat_le; lra. }
    lra.
Qed.


Lemma present_value_from_zero (series : list Q) (r : Q) :
  Forall (fun c => c == 0) series ->
  forall t, present_value_from series r t == 0.
Proof.
  intros Hall. induction Hall as [|c later Hc Hlater IH]; intros t.
  - reflexivity.
  - cbn [present_value_from]. rewrite IH, Hc. unfold Qdiv. ring.
Qed.

Lemma npv_from_NaN (cashflows : list number) (growth : number) :
  forall t,
  reduce_from (fun acc cf t => add acc (div cf (Math_pow growth t)))
              cashflows t NaN = NaN.
Proof.
  induction cashflows as [|cf later IH]; intros t; [reflexivity|].
  cbn [reduce_from]. change (add NaN ?x) with NaN. apply IH.
Qed.

Lemma ltb_Num_false (x y : Q) : ltb (Num x) (Num y) = false <-> y <= x.
Proof.
  split; intros H.
  - destruct (Qlt_le_dec x y) as [L|G]; [|exact G].
    apply ltb_Num in L. congruence.
  - destruct (ltb (Num x) (Num y)) eqn:E; [|reflexivity].
    apply ltb_Num in E. lra.
Qed.

Lemma leb_Num (x y : Q) : leb (Num x) (Num y) = true <-> x <= y.
Proof.
  unfold leb. rewrite orb_true_iff, ltb_Num. cbn [eqb].
  rewrite Qeq_bool_iff. split; [intros [H|H]; lra|].
  intros H. destruct (Qlt_le_dec x y); [now left | right; lra].
Qed.

(** X1: the present value of a series of zero flows is [0] at every rate
    from [0] on; at the rate [-1], with two flows or more, it is [NaN], the
    second term being [0/0]. *)
Theorem npv_zero_series (series : list Q) (r : Q) :
  Forall (fun c => c == 0) series ->
  (0 <= r ->
   exists v, npv (map Num series) (Num r) = Num v /\ v == 0)
  /\ (r == -1 -> (2 <= length series)%nat ->
      npv (map Num series) (Num r) = NaN).
Proof.
  intros Hall. split.
  - intros Hr.
    destruct (npv_finite series r) as [v [Hv Hvv]]; [lra|].
    exists v. split; [exact Hv|].
    rewrite Hvv. apply present_value_from_zero. exact Hall.
  - intros Hr Hlen.
    destruct series as [|c [|c' later]]; [simpl in Hlen; lia ..|].
    assert (Hc' : c' == 0).
    { inversion Hall as [|? ? _ Hrest]; subst.
      now inversion Hrest. }
    rewrite npv_unfold. cbn [map reduce_from].
    rewrite (one_plus_rate_zero r Hr), Math_pow_zero.
    assert (Hd : div (Num c') (Num 0) = NaN).
    { unfold div. simpl (Qeq_bool 0 0). cbv iota.
      apply Qeq_alt in Hc'. now rewrite Hc'. }
    rewrite Hd.
    assert (Ha : forall a, add a NaN = NaN) by now intros [].
    rewrite Ha. apply npv_from_NaN.
Qed.

Lemma npv_zero_series_witness :
  (exists v, npv (map Num [0; 0; 0]) (Num (1 # 4)) = Num v /\ v == 0)
  /\ npv (map Num [0; 0; 0]) (Num (-1)) = NaN.
Proof.
  split.
  - apply (proj1 (npv_zero_series [0; 0; 0] (1 # 4)
                    ltac:(repeat constructor))).
    discriminate.
  - apply (proj2 (npv_zero_series [0; 0; 0] (-1)
                    ltac:(repeat constructor))).
    + reflexivity.
    + simpl. lia.
Defined.

(** X2: with non-negative flows after the first, the present value does not
    increase when the rate rises, over the rates from [0] on: there every
    discount factor is at least [1] and every term a number. *)
Theorem npv_decreasing_in_rate (c0 : Q) (flows : list Q) (r1 r2 : Q) :
  Forall (fun c => 0 <= c) flows -> 0 <= r1 -> r1 <= r2 ->
  leb (npv (map Num (c0 :: flows)) (Num r2))
      (npv (map Num (c0 :: flows)) (Num r1)) = true.
Proof.
  intros Hall H1 H12.
  destruct (npv_finite (c0 :: flows) r1) as [v1 [Hv1 E1]]; [lra|].
  destruct (npv_finite (c0 :: flows) r2) as [v2 [Hv2 E2]]; [lra|].
  rewrite Hv1, Hv2. apply leb_Num.
  rewrite E1, E2. unfold present_value. cbn [present_value_from].
  assert (H1' : -1 < r1) by lra.
  pose proof (present_value_from_rate flows r1 r2 Hall H1' H12 1) as H.
  change (Z.of_nat 0) with 0%Z. rewrite !Qpower_0_r. lra.
Qed.

Lemma npv_decreasing_in_rate_witness :
  leb (npv (map Num [-800000000; 230000000; 230000000]) (Num (1 # 4)))
      (npv (map Num [-800000000; 230000000; 230000000]) (Num (1 # 10)))
  = true.
Proof.
  apply (npv_decreasing_in_rate (-800000000) [230000000; 230000000]
                                (1 # 10) (1 # 4)).
  - repeat constructor; discriminate.
  - discriminate.
  - discriminate.
Defined.

(** ** Rate of return: short series, exact roots *)

Lemma mul_zero_number (c : number) :
  (exists z, mul (Num 0) c = Num z /\ z == 0) \/ mul (Num 0) c = NaN.
Proof.
  destruct c as [q| | |]; [left | right | right | right]; try reflexivity.
  eexists. split; [reflexivity|]. rewrite Qred_correct. ring.
Qed.

Lemma div_zero_number (n p : number) :
  (exists z, n = Num z /\ z == 0) \/ n = NaN ->
  (exists z, div n p = Num z /\ z == 0) \/ div n p = NaN.
Proof.
  intros [[z [-> Hz]]| ->]; [|now right].
  destruct p as [q| | |]; try (left; exists 0; now split); [|now right].
  unfold div. destruct (Qeq_bool q 0) eqn:E.
  - right. apply Qeq_alt in Hz. now rewrite Hz.
  - left. eexists. split; [reflexivity|].
    apply Qeq_bool_neq in E. rewrite Qred_correct, Hz. field. exact E.
Qed.

Lemma add_zero_number (d : number) :
  (exists z, d = Num z /\ z == 0) \/ d = NaN ->
  (exists z, add (Num 0) d = Num z /\ z == 0) \/ add (Num 0) d = NaN.
Proof.
  intros [[z [-> Hz]]| ->]; [left | now right].
  eexists. split; [reflexivity|]. rewrite Qred_correct, Hz. ring.
Qed.

Lemma div_by_zero_number (f df : number) :
  (exists z, df = Num z /\ z == 0) \/ df = NaN ->
  isFinite (div f df) = false.
Proof.
  intros [[z [-> Hz]]| ->]; [|now destruct f].
  destruct f as [q| | |]; try reflexivity.
  - now apply div_by_zero_not_finite.
  - simpl. now destruct (z ?= 0).
  - simpl. now destruct (z ?= 0).
Qed.

(** X3: a series of fewer than two flows has no rate of return: whatever
    the flow and the guess, the first Newton step divides by a derivative
    that is [0] or [NaN], and [irr] returns [NaN]. *)
Theorem irr_needs_two_flows (cashflows : list number) (guess : number) :
  (length cashflows <= 1)%nat -> irr cashflows guess = NaN.
Proof.
  intros Hlen. unfold irr. cbn [irr_loop].
  assert (H : isFinite (sub guess (div (fst (irr_sums cashflows guess))
                                       (snd (irr_sums cashflows guess))))
              = false).
  { apply sub_not_finite_r. apply div_by_zero_number.
    destruct cashflows as [|c [|c' later]]; [| |simpl in Hlen; lia].
    - left. exists 0. split; reflexivity.
    - rewrite irr_sums_unfold. cbn [reduce_from snd].
      apply add_zero_number, div_zero_number.
      change (neg (of_nat 0)) with (Num 0). apply mul_zero_number. }
  destruct (irr_sums cashflows guess) as [f df]. cbn [fst snd] in H.
  now rewrite H.
Qed.

Lemma irr_needs_two_flows_witness :
  irr [Num (-800000000)] default_guess = NaN.
Proof.
  apply (irr_needs_two_flows [Num (-800000000)] default_guess).
  simpl. lia.
Defined.

Lemma irr_loop_finite_or_NaN (cashflows : list number) :
  forall budget x,
  irr_loop cashflows budget x = NaN
  \/ isFinite (irr_loop cashflows budget x) = true.
Proof.
  induction budget as [|budget IH]; intros x; [now left|].
  cbn [irr_loop]. destruct (irr_sums cashflows x) as [f df].
  destruct (isFinite (sub x (div f df))) eqn:E; cbn [negb]; [|now left].
  destruct (ltb _ tolerance); [now right | apply IH].
Qed.

(** X4: [irr] never returns an infinity: the result is a finite rate or
    [NaN], for every series and every guess.  A guess that is not finite
    gives [NaN] at the first step. *)
Theorem irr_finite_or_NaN (cashflows : list number) (guess : number) :
  (irr cashflows guess = NaN \/ isFinite (irr cashflows guess) = true)
  /\ (isFinite guess = false -> irr cashflows guess = NaN).
Proof.
  split; [apply irr_loop_finite_or_NaN|].
  intros Hg. unfold irr. cbn [irr_loop].
  destruct (irr_sums cashflows guess) as [f df].
  now rewrite (sub_not_finite_l guess (div f df) Hg).
Qed.

(** ** The real rate *)

Lemma realRateFromNominal_value (nominal inflation : Q) :
  ~ inflation == -1 ->
  exists v,
    realRateFromNominal (Num nominal) (Num inflation) = Num v
    /\ v == (1 + nominal) / (1 + inflation) - 1.
Proof.
  intros H. unfold realRateFromNominal.
  change (add (Num 1) (Num nominal)) with (Num (Qred (1 + nominal))).
  change (add (Num 1) (Num inflation)) with (Num (Qred (1 + inflation))).
  assert (Hi : ~ Qred (1 + inflation) == 0) by (rewrite Qred_correct; lra).
  rewrite (div_Num _ _ Hi). eexists. split; [reflexivity|].
  now rewrite !Qred_correct.
Qed.

(** X5: the real rate has the sign of the margin of the nominal rate over
    inflation: above an inflation of [-1] it is not negative when the
    nominal rate is at least the inflation, and not positive when it is at
    most the inflation (so [0] when they are equal); at an inflation of
    [-1] the result is not finite. *)
Theorem realRateFromNominal_sign (nominal inflation : Q) :
  (-1 < inflation -> inflation <= nominal ->
   leb (Num 0) (realRateFromNominal (Num nominal) (Num inflation)) = true)
  /\ (-1 < inflation -> nominal <= inflation ->
      leb (realRateFromNominal (Num nominal) (Num inflation)) (Num 0) = true)
  /\ (inflation == -1 ->
      isFinite (realRateFromNominal (Num nominal) (Num inflation)) = false).
Proof.
  split; [|split].
  - intros Hi Hn.
    destruct (realRateFromNominal_value nominal inflation) as [v [Hv Ev]];
      [lra|].
    rewrite Hv. apply leb_Num. rewrite Ev.
    assert (H : 1 <= (1 + nominal) / (1 + inflation)).
    { apply Qle_shift_div_l; lra. }
    lra.
  - intros Hi Hn.
    destruct (realRateFromNominal_value nominal inflation) as [v [Hv Ev]];
      [lra|].
    rewrite Hv. apply leb_Num. rewrite Ev.
    assert (H : (1 + nominal) / (1 + inflation) <= 1).
    { apply Qle_shift_div_r; lra. }
    lra.
  - intros H. unfold realRateFromNominal.
    rewrite (one_plus_rate_zero inflation H).
    change (add (Num 1) (Num nominal)) with (Num (Qred (1 + nominal))).
    apply sub_not_finite_l. now apply div_by_zero_not_finite.
Qed.

Lemma realRateFromNominal_sign_witness :
  leb (Num 0) (realRateFromNominal (Num (1 # 4)) (Num (1 # 5))) = true
  /\ leb (realRateFromNominal (Num (1 # 4)) (Num (7 # 20))) (Num 0) = true
  /\ isFinite (realRateFromNominal (Num (1 # 4)) (Num (-1))) = false.
Proof.
  split; [|split].
  - apply (proj1 (realRateFromNominal_sign (1 # 4) (1 # 5)));
      [reflexivity | discriminate].
  - apply (proj1 (proj2 (realRateFromNominal_sign (1 # 4) (7 # 20))));
      [reflexivity | discriminate].
  - apply (proj2 (proj2 (realRateFromNominal_sign (1 # 4) (-1)))).
    reflexivity.
Defined.

(** ** The application: scenarios, cash flows, the NPV profile *)

Lemma map_constant_seq {A : Type} (f : nat -> A) (a : A) (n : nat) :
  (forall i, f i = a) -> forall k, map f (seq k n) = repeat a n.
Proof.
  intros H. induction n as [|n IH]; intros k; [reflexivity|].
  cbn [seq map repeat]. now rewrite H, IH.
Qed.






(** The application starts from five years, an investment of 800000000 and
    a rate of 25%: the NPV of the base scenario. *)
Example KPI_initial_state :
  CapWiseApp.vNPV
    (CapWiseApp.KPI
       (CapWiseApp.cashflows (Num 800000000)
          (CapWiseApp.scenarioRows (CapWiseApp.rows 5) CapWiseApp.base))
       (Num (1 # 4)))
  = Num (- 181465600).
Proof.
  unfold CapWiseApp.KPI. cbn [CapWiseApp.vNPV]. vm_compute. reflexivity.
Qed.

(** The loop of [npvProfile] ends after the rates [0%, 2%, ..., 40%]. *)
Lemma npvProfile_points (cashflows : list number) :
  CapWiseApp.npvProfile cashflows
  = Some (map (fun r => npv cashflows (Num r))
              (map (fun k => Qred (k / 100))
                   [0; 2; 4; 6; 8; 10; 12; 14; 16; 18; 20; 22; 24; 26; 28;
                    30; 32; 34; 36; 38; 40])).
Proof. reflexivity. Qed.

(** Over ascending rates above [-1] the present values of a series with
    non-negative later flows descend. *)
Lemma npv_over_rates (c0 : Q) (flows : list Q) (rates : list Q) :
  Forall (fun c => 0 <= c) flows ->
  StronglySorted Qle rates ->
  Forall (fun r => -1 < r) rates ->
  exists vs,
    map (fun r => npv (map Num (c0 :: flows)) (Num r)) rates = map Num vs
    /\ Forall2 (fun r v => v == present_value (c0 :: flows) r) rates vs
    /\ StronglySorted (fun a b => b <= a) vs.
Proof.
  intros Hflows Hsorted. induction Hsorted as [|r later Hst IH Hle];
    intros Habove.
  - exists []. repeat split; constructor.
  - inversion Habove as [|? ? Hr Hlater]; subst.
    destruct (IH Hlater) as [vs [Hvs [Hpv Hdesc]]].
    destruct (npv_finite (c0 :: flows) r) as [v [Hv Ev]]; [lra|].
    exists (v :: vs). split; [|split].
    { change (npv (map Num (c0 :: flows)) (Num r)
              :: map (fun r => npv (map Num (c0 :: flows)) (Num r)) later
              = Num v :: map Num vs).
      now rewrite Hv, Hvs. }
    { now constructor. }
    constructor; [exact Hdesc|].
    clear - Hflows Hle Hr Hpv Ev.
    induction Hpv as [|r' v' later vs Ev' Hrest IH']; constructor.
    + inversion Hle as [|? ? Hrr' _]; subst.
      rewrite Ev, Ev'. unfold present_value. cbn [present_value_from].
      pose proof (present_value_from_rate flows r r' Hflows Hr Hrr' 1) as H.
      change (Z.of_nat 0) with 0%Z. rewrite !Qpower_0_r. lra.
    + apply IH'. now inversion Hle.
Qed.

(** X7: the NPV profile has 21 points, the present values at the rates
    [0%, 2%, ..., 40%], and for a series whose flows after the first are
    non-negative it never rises from one point to a later one. *)
Theorem npvProfile_descends (c0 : Q) (flows : list Q) :
  Forall (fun c => 0 <= c) flows ->
  exists vs,
    CapWiseApp.npvProfile (map Num (c0 :: flows)) = Some (map Num vs)
    /\ length vs = 21%nat
    /\ (forall k, (k <= 20)%nat ->
        nth k vs 0
        == present_value (c0 :: flows) (inject_Z (2 * Z.of_nat k) / 100))
    /\ StronglySorted (fun a b => b <= a) vs.
Proof.
  intros Hflows. rewrite npvProfile_points.
  set (rates := map (fun k => Qred (k / 100)) _).
  destruct (npv_over_rates c0 flows rates Hflows) as [vs [Hvs [Hpv Hdesc]]].
  - subst rates. cbn [map].
    repeat (constructor; [|repeat (constructor; [discriminate|]);
                           constructor]).
    constructor.
  - subst rates. cbn [map]. repeat (constructor; [reflexivity|]).
    constructor.
  - exists vs. rewrite Hvs. split; [reflexivity|].
    assert (Hlen : length vs = 21%nat).
    { rewrite <- (Forall2_length Hpv). reflexivity. }
    split; [exact Hlen|]. split; [|exact Hdesc].
    intros k Hk.
    assert (Hnth : forall d,
              nth k vs 0 == present_value (c0 :: flows) (nth k rates d)).
    { intros d. clear - Hpv Hk Hlen.
      assert (Hk' : (k < length vs)%nat) by lia. clear Hk Hlen.
      revert k Hk'. induction Hpv as [|r v rs vs' E Hrest IH]; intros k Hk.
      - simpl in Hk. lia.
      - destruct k as [|k]; [exact E|]. apply IH. simpl in Hk. lia. }
    rewrite (Hnth 0).
    assert (Er : nth k rates 0 == inject_Z (2 * Z.of_nat k) / 100).
    { subst rates.
      do 21 (destruct k as [|k]; [cbn [map nth]; rewrite Qred_correct;
                                  reflexivity|]).
      lia. }
    clear - Er.
    assert (Hcomp : forall a b, a == b ->
              present_value (c0 :: flows) a == present_value (c0 :: flows) b).
    { intros a b E. unfold present_value. generalize 0%nat.
      induction (c0 :: flows) as [|c later IH]; intros t; [reflexivity|].
      cbn [present_value_from]. now rewrite IH, E. }
    now apply Hcomp.
Qed.

Lemma npvProfile_descends_witness :
  exists vs,
    CapWiseApp.npvProfile (map Num [-800000000; 230000000; 230000000])
    = Some (map Num vs)
    /\ length vs = 21%nat
    /\ (forall k, (k <= 20)%nat ->
        nth k vs 0
        == present_value [-800000000; 230000000; 230000000]
                         (inject_Z (2 * Z.of_nat k) / 100))
    /\ StronglySorted (fun a b => b <= a) vs.
Proof.
  apply (npvProfile_descends (-800000000) [230000000; 230000000]).
  repeat constructor; discriminate.
Defined.

(** ** Clamping, the slider of the runs, the rate of a trial *)


(** A clamped finite number is the nearest point of [[a, b]]. *)
Lemma clamp_Num (q a b : Q) :
  a <= b ->
  exists c,
    clamp (Num q) (Num a) (Num b) = Num c
    /\ a <= c /\ c <= b
    /\ (a <= q -> q <= b -> c == q)
    /\ (q <= a -> c == a)
    /\ (b <= q -> c == b).
Proof.
  intros Hab. unfold clamp, Math_min.
  destruct (ltb (Num q) (Num b)) eqn:E1; unfold Math_max.
  - apply ltb_Num in E1.
    destruct (ltb (Num a) (Num q)) eqn:E2.
    + apply ltb_Num in E2. exists q. repeat split; intros; lra.
    + apply ltb_Num_false in E2. exists a. repeat split; intros; lra.
  - apply ltb_Num_false in E1.
    destruct (ltb (Num a) (Num b)) eqn:E2.
    + apply ltb_Num in E2. exists b. repeat split; intros; lra.
    + apply ltb_Num_false in E2. exists a. repeat split; intros; lra.
Qed.


(** X8: [clamp(v, a, b)] with [a <= b] is [NaN] for [NaN], it does not turn
    a [NaN] into a bound; for every other [v] it is a number of [[a, b]],
    and [v] itself when [v] is in [[a, b]]. *)
Theorem clamp_range (v : number) (a b : Q) :
  a <= b ->
  match v with
  | NaN => clamp v (Num a) (Num b) = NaN
  | _ =>
      exists c,
        clamp v (Num a) (Num b) = Num c
        /\ a <= c /\ c <= b
        /\ (leb (Num a) v = true -> leb v (Num b) = true ->
            eqb v (Num c) = true)
  end.
Proof.
  intros Hab. destruct v as [q| | |].
  - destruct (clamp_Num q a b Hab) as [c [Hc [Ha [Hb [Hin _]]]]].
    exists c. repeat split; try assumption.
    rewrite !leb_Num. intros H1 H2. cbn [eqb].
    apply Qeq_bool_iff. symmetry. now apply Hin.
  - unfold clamp. cbn [Math_min ltb]. unfold Math_max.
    destruct (ltb (Num a) (Num b)) eqn:E.
    + exists b. repeat split; try lra. discriminate.
    + apply ltb_Num_false in E. exists a. repeat split; try lra.
      discriminate.
  - exists a. repeat split; try lra. discriminate.
  - reflexivity.
Qed.

Lemma clamp_range_witness :
  exists c,
    clamp (Num 123456) (Num 200) (Num 50000) = Num c
    /\ 200 <= c /\ c <= 50000
    /\ (leb (Num 200) (Num 123456) = true ->
        leb (Num 123456) (Num 50000) = true ->
        eqb (Num 123456) (Num c) = true).
Proof.
  apply (clamp_range (Num 123456) 200 50000). discriminate.
Defined.

Section SimulatorRounds.

Variable RandomSource : Type.
Variable randn : RandomSource -> number * RandomSource.
Variable config : Config.

Ltac store_simpl :=
  cbn [random cashflows rows simCF out values isRunning].

(** A run makes as many trials as the loop test lets counters through. *)
Lemma runSim_rounds (n : nat) (st : Store RandomSource) :
  rounds (runs config) = Some n ->
  exists st',
    runSim randn config st = Some (tt, st')
    /\ values st'
       = fst (trials randn config n
                     (to_number (get (cashflows st) (Num 0)))
                     (rows st) (random st))
    /\ length (values st') = n
    /\ isRunning st' = false.
Proof.
  intros Hruns. unfold runSim, for_. rewrite Hruns.
  unfold bind at 1, setIsRunning at 1. unfold bind at 1, new_out.
  store_simpl.
  unfold bind at 1, read at 1. store_simpl.
  unfold bind at 1, read at 1. store_simpl.
  unfold bind at 1.
  set (t0 := to_number (get (cashflows st) (Num 0))).
  set (st1 := mkStore _ _ _ _ _ _ _).
  destruct (trial_loop_outcomes RandomSource randn config t0 n 0 st1)
    as [scf Hloop].
  change (rows st1) with (rows st) in Hloop.
  rewrite Hloop. subst st1. store_simpl. cbn [app].
  eexists. split; [reflexivity|]. store_simpl.
  repeat split. apply length_trials.
Qed.

(** X9: the slider stores [clamp(Number(text), 200, 50000)] as [runs].  A
    run then returns with [isRunning] cleared; it holds between 200 and
    50000 outcomes whatever number was entered, and none at all when the
    entry was not a number, since [clamp] keeps [NaN] and [k < NaN] is
    false. *)
Theorem runSim_after_slider (entered : number) (st : Store RandomSource) :
  runs config = clamp entered (Num 200) (Num 50000) ->
  exists st',
    runSim randn config st = Some (tt, st')
    /\ isRunning st' = false
    /\ match entered with
       | NaN => values st' = []
       | _ => (200 <= Z.of_nat (length (values st')) <= 50000)%Z
       end.
Proof.
  intros Hruns.
  assert (Hab : 200 <= 50000) by discriminate.
  assert (Hfinite : forall c, runs config = Num c -> 200 <= c -> c <= 50000 ->
            exists st',
              runSim randn config st = Some (tt, st')
              /\ isRunning st' = false
              /\ (200 <= Z.of_nat (length (values st')) <= 50000)%Z).
  { intros c Hc Hlo Hhi.
    destruct (runSim_rounds (Z.to_nat (Qceiling c)) st) as [st' [H [_ [Hl Hr]]]].
    { now rewrite Hc. }
    exists st'. repeat split; try assumption; rewrite Hl.
    - apply Qceiling_resp_le in Hlo.
      change (Qceiling 200) with 200%Z in Hlo. lia.
    - apply Qceiling_resp_le in Hhi.
      change (Qceiling 50000) with 50000%Z in Hhi. lia. }
  destruct entered as [q| | |].
  - destruct (clamp_Num q 200 50000 Hab) as [c [Hc [Hlo [Hhi _]]]].
    rewrite Hc in Hruns. now apply (Hfinite c).
  - apply (Hfinite 50000); [exact Hruns | discriminate ..].
  - apply (Hfinite 200); [exact Hruns | discriminate ..].
  - destruct (runSim_rounds 0 st) as [st' [H [Hv [_ Hr]]]].
    { now rewrite Hruns. }
    exists st'. repeat split; assumption.
Qed.

(** X10: a randomised trial rate lies in [[0.01, 0.8]] whenever the base
    rate, the volatility and the shock are finite. *)
Theorem trial_rate_range (g : RandomSource) (b s z : Q) :
  randomizeRate config = true ->
  baseRate config = Num b -> rateVol config = Num s ->
  fst (randn g) = Num z ->
  exists r,
    fst (trial_rate randn config g) = Num r
    /\ 1 # 100 <= r /\ r <= 4 # 5.
Proof.
  intros Hrand Hb Hs Hz. unfold trial_rate. rewrite Hrand, Hb, Hs.
  destruct (randn g) as [z' g1]. cbn [fst] in *. subst z'.
  change (add (Num b) (mul (Num z) (Num s)))
    with (Num (Qred (b + Qred (z * s)))).
  destruct (clamp_Num (Qred (b + Qred (z * s))) (1 # 100) (4 # 5))
    as [r [Hr [Hlo [Hhi _]]]]; [discriminate|].
  exists r. repeat split; assumption.
Qed.

End SimulatorRounds.

Lemma runSim_after_slider_witness :
  exists st',
    runSim (fun g : nat => (of_nat g, S g))
           (mkConfig (Num (1 # 4)) (clamp NaN (Num 200) (Num 50000))
                     (Num (3 # 20)) (Num (3 # 25)) (Num (3 # 100))
                     (Num (1 # 50)) false (Num (1 # 20)))
           (mkStore 0%nat [Num (-800000000)] [] [] [] [] false)
    = Some (tt, st')
    /\ isRunning st' = false
    /\ values st' = [].
Proof.
  apply (runSim_after_slider nat (fun g : nat => (of_nat g, S g))
           (mkConfig (Num (1 # 4)) (clamp NaN (Num 200) (Num 50000))
                     (Num (3 # 20)) (Num (3 # 25)) (Num (3 # 100))
                     (Num (1 # 50)) false (Num (1 # 20)))
           NaN).
  reflexivity.
Defined.

Lemma trial_rate_range_witness :
  exists r,
    fst (trial_rate (fun g : nat => (of_nat g, S g))
                    (mkConfig (Num (1 # 4)) (Num 200) (Num (3 # 20))
                              (Num (3 # 25)) (Num (3 # 100)) (Num (1 # 50))
                              true (Num (1 # 20)))
                    30%nat) = Num r
    /\ 1 # 100 <= r /\ r <= 4 # 5.
Proof.
  apply (trial_rate_range nat (fun g : nat => (of_nat g, S g))
           (mkConfig (Num (1 # 4)) (Num 200) (Num (3 # 20))
                     (Num (3 # 25)) (Num (3 # 100)) (Num (1 # 50))
                     true (Num (1 # 20)))
           30%nat (1 # 4) (1 # 20) 30); reflexivity.
Defined.

(** ** Percentiles: range, end points, subscripts out of range *)


Lemma get_negative (s : list Q) (k : Z) :
  (k < 0)%Z -> get (map Num s) (Num (inject_Z k)) = None.
Proof.
  intros H. unfold get, as_index. rewrite Qred_inject_Z. simpl.
  apply Z.leb_gt in H. now rewrite H.
Qed.

Lemma get_beyond (s : list Q) (k : Z) :
  (Z.of_nat (length s) <= k)%Z -> get (map Num s) (Num (inject_Z k)) = None.
Proof.
  intros H. unfold get. rewrite as_index_inject_Z by lia.
  apply nth_error_None. rewrite length_map. lia.
Qed.

Lemma least_normal_positive : 0 < binary64_least_normal.
Proof. reflexivity. Qed.

(** X12: above 100, and below 0 by at least [2^-1022] (nearer to 0 the
    quotient [p / 100] is rounded to zero), the percentile of two or more
    finite outcomes is never a number: it is [NaN] or [undefined], the
    sorted copy being read outside its bounds.  A single outcome is its own
    percentile for every [p], inside the range or not. *)
Theorem percentile_out_of_range (qs : list Q) (p : Q) :
  ((2 <= length qs)%nat -> p <= - binary64_least_normal \/ 100 < p ->
   percentile (map Num qs) (Num p) = None
   \/ percentile (map Num qs) (Num p) = Some NaN)
  /\ (forall q, qs = [q] ->
      percentile (map Num qs) (Num p) = Some (Num q)).
Proof.
  split.
  - intros Hlen Hp.
    destruct (sort_finite qs) as [s [Hs [Hl _]]].
    unfold percentile. destruct qs as [|q later]; [simpl in Hlen; lia|].
    change (map Num (q :: later)) with (Num q :: map Num later) in *.
    cbv beta iota zeta. rewrite Hs, length_map, Hl, of_nat_pred.
    assert (H100 : ~ 100 == 0) by discriminate.
    rewrite (div_Num _ _ H100).
    change (mul (num (p / 100))
                (Num (inject_Z (Z.of_nat (length (q :: later)) - 1))))
      with (Num (Qred (Qred (p / 100)
                       * inject_Z (Z.of_nat (length (q :: later)) - 1)))).
    set (n := length (q :: later)) in *.
    set (x := Qred (Qred (p / 100) * inject_Z (Z.of_nat n - 1))).
    assert (Ex : x == p / 100 * inject_Z (Z.of_nat n - 1)).
    { unfold x. now rewrite !Qred_correct. }
    assert (Ht : 1 <= inject_Z (Z.of_nat n - 1)).
    { rewrite <- (Zle_Qle 1). lia. }
    clearbody x. cbn [Math_floor Math_ceil eqb].
    assert (Hmul : forall a, mul NaN a = NaN) by now intros [].
    assert (Hadd : forall a, add a NaN = NaN) by now intros [].
    assert (Hadd' : forall a, add NaN a = NaN) by now intros [].
    destruct Hp as [Hsmall|Hbig].
    + assert (Hneg : p < 0).
      { pose proof least_normal_positive as Hpos.
        set (e := binary64_least_normal) in *. clearbody e. lra. }
      assert (Hx : x < 0).
      { rewrite Ex.
        assert (H : 0 < (- p / 100) * inject_Z (Z.of_nat n - 1)).
        { apply Qmult_lt_0_compat; [|lra].
          apply Qlt_shift_div_l; lra. }
        setoid_replace (p / 100 * inject_Z (Z.of_nat n - 1))
          with (- ((- p / 100) * inject_Z (Z.of_nat n - 1)))
          by (field; discriminate).
        lra. }
      assert (Hf : (Qfloor x < 0)%Z).
      { pose proof (Qfloor_le x) as H.
        assert (H' : inject_Z (Qfloor x) < inject_Z 0)
          by (change (inject_Z 0) with 0; lra).
        now rewrite <- Zlt_Qlt in H'. }
      rewrite (get_negative s _ Hf).
      destruct (Qeq_bool _ _); [now left | right].
      cbn [to_number]. now rewrite Hmul, Hadd'.
    + assert (Hx : inject_Z (Z.of_nat n - 1) < x).
      { rewrite Ex.
        assert (H : 0 < (p / 100 - 1) * inject_Z (Z.of_nat n - 1)).
        { apply Qmult_lt_0_compat; [|lra].
          assert (H : 1 < p / 100) by (apply Qlt_shift_div_l; lra). lra. }
        setoid_replace (p / 100 * inject_Z (Z.of_nat n - 1))
          with (inject_Z (Z.of_nat n - 1)
                + (p / 100 - 1) * inject_Z (Z.of_nat n - 1))
          by ring.
        lra. }
      assert (Hc : (Z.of_nat (length s) <= Qceiling x)%Z).
      { pose proof (Qle_ceiling x) as H.
        assert (H' : inject_Z (Z.of_nat n - 1) < inject_Z (Qceiling x))
          by lra.
        rewrite <- Zlt_Qlt in H'. lia. }
      destruct (Qeq_bool _ _) eqn:E.
      * left. apply Qeq_bool_iff in E. rewrite inject_Z_injective in E.
        rewrite E. now apply get_beyond.
      * right. rewrite (get_beyond s _ Hc). cbn [to_number].
        now rewrite Hmul, Hadd.
  - intros q ->. unfold percentile. cbn [map sort fold_right sort_insert length].
    assert (Hidx : mul (div (Num p) (Num 100)) (sub (of_nat 1) (Num 1))
                   = Num 0).
    { change (sub (of_nat 1) (Num 1)) with (Num 0).
      rewrite div_Num by discriminate.
      change (mul (num (p / 100)) (Num 0)) with (num (Qred (p / 100) * 0)).
      apply (num_inject_Z _ 0%Z). ring. }
    rewrite Hidx. reflexivity.
Qed.

Lemma percentile_out_of_range_witness :
  (percentile (map Num [3; 1; 2; 10]) (Num 150) = None
   \/ percentile (map Num [3; 1; 2; 10]) (Num 150) = Some NaN)
  /\ (percentile (map Num [3; 1; 2; 10]) (Num (-5)) = None
      \/ percentile (map Num [3; 1; 2; 10]) (Num (-5)) = Some NaN)
  /\ percentile (map Num [7]) (Num 150) = Some (Num 7).
Proof.
  split; [|split].
  - apply (proj1 (percentile_out_of_range [3; 1; 2; 10] 150)).
    + simpl. lia.
    + right. reflexivity.
  - apply (proj1 (percentile_out_of_range [3; 1; 2; 10] (-5))).
    + simpl. lia.
    + left. vm_compute. discriminate.
  - apply (proj2 (percentile_out_of_range [7] 150)). reflexivity.
Defined.

(** ** Mean, deviation, share of positive outcomes *)

Lemma count_of_cons (x : Q) (later : list Q) :
  count_of (x :: later) == count_of later + 1.
Proof.
  unfold count_of. cbn [length].
  rewrite Nat2Z.inj_succ. unfold Z.succ. now rewrite inject_Z_plus.
Qed.

Lemma sumQ_lower (xs : list Q) (L : Q) :
  (forall x, In x xs -> L <= x) -> count_of xs * L <= sumQ xs.
Proof.
  induction xs as [|x later IH]; intros HL.
  - unfold count_of. simpl. ring_simplify. apply Qle_refl.
  - pose proof (HL x (or_introl eq_refl)) as Hx.
    assert (IH' : count_of later * L <= sumQ later).
    { apply IH. intros y Hy. apply HL. now right. }
    rewrite count_of_cons. cbn [sumQ fold_right]. fold (sumQ later).
    setoid_replace ((count_of later + 1) * L)
      with (count_of later * L + L) by ring.
    lra.
Qed.

Lemma sumQ_upper (xs : list Q) (U : Q) :
  (forall x, In x xs -> x <= U) -> sumQ xs <= count_of xs * U.
Proof.
  induction xs as [|x later IH]; intros HU.
  - unfold count_of. simpl. ring_simplify. apply Qle_refl.
  - pose proof (HU x (or_introl eq_refl)) as Hx.
    assert (IH' : sumQ later <= count_of later * U).
    { apply IH. intros y Hy. apply HU. now right. }
    rewrite count_of_cons. cbn [sumQ fold_right]. fold (sumQ later).
    setoid_replace ((count_of later + 1) * U)
      with (count_of later * U + U) by ring.
    lra.
Qed.

Lemma count_of_positive (xs : list Q) : xs <> [] -> 0 < count_of xs.
Proof.
  intros H. destruct xs as [|x later]; [contradiction|].
  unfold count_of, Qlt. simpl. lia.
Qed.

(** X13: the mean of no outcomes is [0], the divisor [arr.length || 1]
    standing in for the zero length; the mean of a single outcome is that
    outcome; and the mean keeps the sign of the outcomes: it is not negative
    when none of them is, and not positive when none of them is. *)
Theorem mean_sign (xs : list Q) :
  mean [] = Num 0
  /\ (forall q, xs = [q] ->
      exists m, mean (map Num xs) = Num m /\ m == q)
  /\ ((forall x, In x xs -> 0 <= x) ->
      leb (Num 0) (mean (map Num xs)) = true)
  /\ ((forall x, In x xs -> x <= 0) ->
      leb (mean (map Num xs)) (Num 0) = true).
Proof.
  split; [reflexivity|]. split; [|split].
  - intros q ->.
    destruct (mean_finite [q]) as [m [Hm Em]]; [discriminate|].
    exists m. split; [exact Hm|]. rewrite Em.
    unfold sumQ, count_of. cbn [fold_right length].
    change (inject_Z (Z.of_nat 1)) with 1. field.
  - intros Hpos. destruct xs as [|x later]; [reflexivity|].
    destruct (mean_finite (x :: later)) as [m [Hm Em]]; [discriminate|].
    pose proof (count_of_positive (x :: later) ltac:(discriminate)) as Hn.
    rewrite Hm. apply leb_Num. rewrite Em.
    apply Qle_shift_div_l; [exact Hn|]. rewrite Qmult_0_l.
    setoid_replace 0 with (count_of (x :: later) * 0) by ring.
    now apply sumQ_lower.
  - intros Hneg. destruct xs as [|x later]; [reflexivity|].
    destruct (mean_finite (x :: later)) as [m [Hm Em]]; [discriminate|].
    pose proof (count_of_positive (x :: later) ltac:(discriminate)) as Hn.
    rewrite Hm. apply leb_Num. rewrite Em.
    apply Qle_shift_div_r; [exact Hn|]. rewrite Qmult_0_l.
    setoid_replace 0 with (count_of (x :: later) * 0) by ring.
    now apply sumQ_upper.
Qed.

Lemma mean_sign_witness :
  (exists m, mean (map Num [8]) = Num m /\ m == 8)
  /\ leb (Num 0) (mean (map Num [1; 3; 8])) = true
  /\ leb (mean (map Num [-1; -3; 0])) (Num 0) = true.
Proof.
  split; [|split].
  - apply (proj1 (proj2 (mean_sign [8]))). reflexivity.
  - apply (proj1 (proj2 (proj2 (mean_sign [1; 3; 8])))).
    intros x [<-|[<-|[<-|[]]]]; discriminate.
  - apply (proj2 (proj2 (proj2 (mean_sign [-1; -3; 0])))).
    intros x [<-|[<-|[<-|[]]]]; discriminate.
Defined.

Lemma sumQ_nonneg (xs : list Q) :
  (forall x, In x xs -> 0 <= x) -> 0 <= sumQ xs.
Proof.
  intros H. pose proof (sumQ_lower xs 0 H) as H'.
  setoid_replace (count_of xs * 0) with 0 in H' by ring. exact H'.
Qed.

Lemma population_variance_nonneg (xs : list Q) :
  xs <> [] -> 0 <= population_variance xs.
Proof.
  intros Hne. unfold population_variance.
  apply Qmult_le_0_compat.
  - apply Qle_shift_div_l; [now apply count_of_positive | lra].
  - apply sumQ_nonneg. intros y Hy.
    apply in_map_iff in Hy. destruct Hy as [x [<- _]]. apply Qsqr_nonneg.
Qed.

(** X14: on finite outcomes [std] takes the square root of a number that is
    never negative, and of [0] when there is a single outcome. *)
Theorem std_radicand (Math_sqrt : number -> number) (xs : list Q) :
  xs <> [] ->
  exists r,
    std Math_sqrt (map Num xs) = Math_sqrt r
    /\ leb (Num 0) r = true
    /\ (length xs = 1%nat -> eqb r (Num 0) = true).
Proof.
  intros Hne.
  destruct (std_population_variance Math_sqrt xs Hne) as [v [Hv Ev]].
  exists (Num v). split; [exact Hv|]. split.
  - apply leb_Num. rewrite Ev. now apply population_variance_nonneg.
  - intros Hlen. cbn [eqb]. apply Qeq_bool_iff. rewrite Ev.
    destruct xs as [|q [|q' later]]; [contradiction | | discriminate Hlen].
    unfold population_variance, population_mean, count_of, sumQ.
    cbn [map fold_right length].
    change (inject_Z (Z.of_nat 1)) with 1. simpl. field.
Qed.

Lemma std_radicand_witness :
  exists r,
    std (fun a => a) (map Num [5]) = r
    /\ leb (Num 0) r = true
    /\ (length [5] = 1%nat -> eqb r (Num 0) = true).
Proof.
  apply (std_radicand (fun a => a) [5]). discriminate.
Defined.




(** ** The histogram: its range, its bins, what each bin counts *)

Lemma Math_min_fold_least (qs : list Q) :
  forall a,
  exists m,
    fold_left Math_min (map Num qs) (Num a) = Num m
    /\ (m = a \/ In m qs) /\ m <= a /\ (forall x, In x qs -> m <= x).
Proof.
  induction qs as [|q later IH]; intros a.
  - exists a. repeat split; [now left | apply Qle_refl | intros x []].
  - cbn [map fold_left]. unfold Math_min at 2.
    destruct (ltb (Num q) (Num a)) eqn:E.
    + apply ltb_Num in E. destruct (IH q) as [m [Hm [Hin [Hle Hall]]]].
      exists m. split; [exact Hm|]. repeat split.
      * right. destruct Hin as [->|Hin]; [now left | now right].
      * lra.
      * intros x [<-|Hx]; [exact Hle | now apply Hall].
    + apply ltb_Num_false in E. destruct (IH a) as [m [Hm [Hin [Hle Hall]]]].
      exists m. split; [exact Hm|]. repeat split.
      * destruct Hin as [->|Hin]; [now left | right; now right].
      * exact Hle.
      * intros x [<-|Hx]; [lra | now apply Hall].
Qed.

Lemma Math_max_fold_greatest (qs : list Q) :
  forall a,
  exists m,
    fold_left Math_max (map Num qs) (Num a) = Num m
    /\ (m = a \/ In m qs) /\ a <= m /\ (forall x, In x qs -> x <= m).
Proof.
  induction qs as [|q later IH]; intros a.
  - exists a. repeat split; [now left | apply Qle_refl | intros x []].
  - cbn [map fold_left]. unfold Math_max at 2.
    destruct (ltb (Num a) (Num q)) eqn:E.
    + apply ltb_Num in E. destruct (IH q) as [m [Hm [Hin [Hle Hall]]]].
      exists m. split; [exact Hm|]. repeat split.
      * right. destruct Hin as [->|Hin]; [now left | now right].
      * lra.
      * intros x [<-|Hx]; [exact Hle | now apply Hall].
    + apply ltb_Num_false in E. destruct (IH a) as [m [Hm [Hin [Hle Hall]]]].
      exists m. split; [exact Hm|]. repeat split.
      * destruct Hin as [->|Hin]; [now left | right; now right].
      * exact Hle.
      * intros x [<-|Hx]; [lra | now apply Hall].
Qed.

Lemma Math_min_of_least (qs : list Q) :
  qs <> [] ->
  exists m,
    Math_min_of (map Num qs) = Num m
    /\ In m qs /\ (forall x, In x qs -> m <= x).
Proof.
  destruct qs as [|q later]; [contradiction|]. intros _.
  destruct (Math_min_fold_least later q) as [m [Hm [Hin [Hle Hall]]]].
  exists m. split; [exact Hm|]. split.
  - destruct Hin as [->|Hin]; [now left | now right].
  - intros x [<-|Hx]; [exact Hle | now apply Hall].
Qed.

Lemma Math_max_of_greatest (qs : list Q) :
  qs <> [] ->
  exists m,
    Math_max_of (map Num qs) = Num m
    /\ In m qs /\ (forall x, In x qs -> x <= m).
Proof.
  destruct qs as [|q later]; [contradiction|]. intros _.
  destruct (Math_max_fold_greatest later q) as [m [Hm [Hin [Hle Hall]]]].
  exists m. split; [exact Hm|]. split.
  - destruct Hin as [->|Hin]; [now left | now right].
  - intros x [<-|Hx]; [exact Hle | now apply Hall].
Qed.

(** The width of a bin: the span, or [1] for a span of zero, over the
    number of bins. *)
Lemma histogram_step (mn mx : Q) (bins : nat) :
  mn <= mx -> (1 <= bins)%nat ->
  exists st,
    div (or_else (sub (Num mx) (Num mn)) (Num 1)) (of_nat bins) = Num st
    /\ 0 < st
    /\ (mn < mx -> st * inject_Z (Z.of_nat bins) == mx - mn)
    /\ (mn == mx -> st * inject_Z (Z.of_nat bins) == 1).
Proof.
  intros Hle Hb.
  assert (Hn : 0 < inject_Z (Z.of_nat bins)).
  { rewrite <- (Zlt_Qlt 0). lia. }
  assert (Hn0 : ~ inject_Z (Z.of_nat bins) == 0) by lra.
  unfold or_else, sub, num, truthy, of_nat.
  destruct (Qeq_bool (Qred (mx - mn)) 0) eqn:E; cbn [negb].
  - apply Qeq_bool_iff in E. rewrite Qred_correct in E.
    rewrite (div_Num _ _ Hn0). eexists. split; [reflexivity|].
    rewrite Qred_correct. repeat split.
    + apply Qlt_shift_div_l; lra.
    + intros H. lra.
    + intros _. field. exact Hn0.
  - apply Qeq_bool_neq in E. rewrite Qred_correct in E.
    rewrite (div_Num _ _ Hn0). eexists. split; [reflexivity|].
    rewrite !Qred_correct. repeat split.
    + apply Qlt_shift_div_l; lra.
    + intros _. field. exact Hn0.
    + intros H. lra.
Qed.

Lemma bin_index_value (q mn st : Q) (bins : nat) :
  ~ st == 0 -> (1 <= bins)%nat ->
  as_index (clamp (Math_floor (div (sub (Num q) (Num mn)) (Num st)))
                  (Num 0) (sub (of_nat bins) (Num 1)))
  = Some (bin_of mn st bins q).
Proof.
  intros Hst Hb.
  change (sub (Num q) (Num mn)) with (Num (Qred (q - mn))).
  rewrite (div_Num _ _ Hst), of_nat_pred.
  unfold num, Math_floor, clamp.
  rewrite Math_min_inject_Z.
  change (Num 0) with (Num (inject_Z 0)).
  rewrite Math_max_inject_Z, as_index_inject_Z by lia.
  unfold bin_of. do 4 f_equal.
  apply Qfloor_comp. now rewrite !Qred_correct.
Qed.

Lemma bin_of_in_range (q mn st : Q) (bins : nat) :
  (1 <= bins)%nat -> (bin_of mn st bins q < bins)%nat.
Proof. intros H. unfold bin_of. lia. Qed.

Lemma bump_update (cs : list nat) :
  forall j, (j < length cs)%nat ->
  bump (map of_nat cs) j = map of_nat (update_at j S cs).
Proof.
  induction cs as [|c rest IH]; intros j Hj; [simpl in Hj; lia|].
  destruct j as [|j]; cbn [map bump update_at].
  - now rewrite of_nat_succ.
  - rewrite IH; [reflexivity | simpl in Hj; lia].
Qed.

Lemma length_update_at {A : Type} (f : A -> A) (arr : list A) :
  forall k, length (update_at k f arr) = length arr.
Proof.
  induction arr as [|a rest IH]; intros k; [now destruct k|].
  destruct k; cbn [update_at length]; [reflexivity | now rewrite IH].
Qed.

Lemma nth_update_at {A : Type} (f : A -> A) (arr : list A) (d : A) :
  forall k i, (k < length arr)%nat ->
  nth i (update_at k f arr) d
  = if (i =? k)%nat then f (nth i arr d) else nth i arr d.
Proof.
  induction arr as [|a rest IH]; intros k i Hk; [simpl in Hk; lia|].
  destruct k as [|k], i as [|i]; cbn [update_at nth Nat.eqb]; try reflexivity.
  apply IH. simpl in Hk. lia.
Qed.

(** After the loop, counter [i] has grown by the number of outcomes whose
    bin is [i]. *)
Lemma counts_by_bin (mn st : Q) (bins : nat) :
  ~ st == 0 -> (1 <= bins)%nat ->
  forall (qs : list Q) (cs : list nat),
  length cs = bins ->
  exists cs',
    fold_left
      (fun counts v =>
         increment counts
                   (clamp (Math_floor (div (sub v (Num mn)) (Num st)))
                          (Num 0) (sub (of_nat bins) (Num 1))))
      (map Num qs) (map of_nat cs) = map of_nat cs'
    /\ length cs' = bins
    /\ (forall i,
        nth i cs' 0%nat
        = (nth i cs 0
           + length (filter (fun q => (bin_of mn st bins q =? i)%nat) qs))%nat).
Proof.
  intros Hst Hb. induction qs as [|q later IH]; intros cs Hl.
  - exists cs. cbn [map fold_left filter length]. repeat split; [exact Hl|].
    intros i. lia.
  - cbn [map fold_left]. unfold increment at 2.
    rewrite (bin_index_value q mn st bins Hst Hb).
    pose proof (bin_of_in_range q mn st bins Hb) as Hj.
    rewrite bump_update by lia.
    destruct (IH (update_at (bin_of mn st bins q) S cs)) as [cs' [Hf [Hl' Hn]]].
    { now rewrite length_update_at. }
    exists cs'. repeat split; [exact Hf | exact Hl' |].
    intros i. rewrite Hn, nth_update_at by lia. cbn [filter].
    rewrite (Nat.eqb_sym i).
    destruct (bin_of mn st bins q =? i)%nat; cbn [length]; lia.
Qed.

Lemma nth_repeat_zero (n i : nat) : nth i (repeat 0%nat n) 0%nat = 0%nat.
Proof.
  revert i. induction n as [|n IH]; intros [|i]; cbn [repeat nth]; auto.
Qed.

(** The histogram of finite outcomes, with its range, its step and its
    counters written out. *)
Lemma buildHistogram_shape (qs : list Q) (bins : nat) :
  qs <> [] -> (1 <= bins)%nat ->
  exists mn mx st cs,
    buildHistogram (map Num qs) bins
    = mkHistogram
        (mapi (fun c i =>
                 mkBin (add (Num mn) (mul (of_nat i) (Num st)))
                       (add (Num mn) (mul (add (of_nat i) (Num 1)) (Num st)))
                       c)
              (map of_nat cs))
        (Num mn) (Num mx)
    /\ In mn qs /\ In mx qs
    /\ (forall x, In x qs -> mn <= x /\ x <= mx)
    /\ 0 < st
    /\ (mn < mx -> st * inject_Z (Z.of_nat bins) == mx - mn)
    /\ (mn == mx -> st * inject_Z (Z.of_nat bins) == 1)
    /\ length cs = bins
    /\ (forall i,
        nth i cs 0%nat
        = length (filter (fun q => (bin_of mn st bins q =? i)%nat) qs)).
Proof.
  intros Hne Hb.
  destruct (Math_min_of_least qs Hne) as [mn [Hmn [Imn Lmn]]].
  destruct (Math_max_of_greatest qs Hne) as [mx [Hmx [Imx Gmx]]].
  assert (Hle : mn <= mx) by now apply Lmn.
  destruct (histogram_step mn mx bins Hle Hb) as [st [Hst [Hpos [Hspan Hone]]]].
  assert (Hst0 : ~ st == 0) by lra.
  destruct (counts_by_bin mn st bins Hst0 Hb qs (repeat 0%nat bins))
    as [cs [Hcs [Hlen Hcount]]]; [apply repeat_length|].
  exists mn, mx, st, cs. split.
  - destruct qs as [|q later]; [contradiction|].
    change (map Num (q :: later)) with (Num q :: map Num later) in *.
    unfold buildHistogram. cbv beta iota zeta.
    rewrite Hmn, Hmx, Hst, repeat_zero_counts, Hcs. reflexivity.
  - repeat split; try assumption; try (now apply Lmn); try (now apply Gmx).
    intros i. now rewrite Hcount, nth_repeat_zero.
Qed.

Lemma nth_error_mapi_from {A B : Type} (f : A -> nat -> B) (arr : list A) :
  forall k i,
  nth_error (mapi_from f arr k) i
  = option_map (fun c => f c (k + i)%nat) (nth_error arr i).
Proof.
  induction arr as [|a rest IH]; intros k i.
  - now destruct i.
  - destruct i as [|i]; cbn [mapi_from nth_error option_map].
    + now rewrite Nat.add_0_r.
    + rewrite IH. now rewrite Nat.add_succ_r.
Qed.

Lemma bin_edges (mn st : Q) (i : nat) :
  exists lo hi,
    add (Num mn) (mul (of_nat i) (Num st)) = Num lo
    /\ add (Num mn) (mul (add (of_nat i) (Num 1)) (Num st)) = Num hi
    /\ lo == mn + inject_Z (Z.of_nat i) * st
    /\ hi == mn + (inject_Z (Z.of_nat i) + 1) * st.
Proof.
  rewrite of_nat_succ. unfold of_nat, mul, add, num.
  eexists. eexists. split; [reflexivity|]. split; [reflexivity|].
  rewrite !Qred_correct. split; [reflexivity|].
  rewrite Nat2Z.inj_succ. unfold Z.succ. rewrite inject_Z_plus.
  reflexivity.
Qed.

(** A bin of the histogram, looked up by its position. *)
Lemma nth_error_bins (mn st : Q) (cs : list nat) (i : nat) (b : Bin) :
  nth_error
    (mapi (fun c i =>
             mkBin (add (Num mn) (mul (of_nat i) (Num st)))
                   (add (Num mn) (mul (add (of_nat i) (Num 1)) (Num st)))
                   c)
          (map of_nat cs)) i = Some b ->
  (i < length cs)%nat
  /\ b = mkBin (add (Num mn) (mul (of_nat i) (Num st)))
               (add (Num mn) (mul (add (of_nat i) (Num 1)) (Num st)))
               (of_nat (nth i cs 0%nat)).
Proof.
  unfold mapi. rewrite nth_error_mapi_from, nth_error_map. cbn [Nat.add].
  destruct (nth_error cs i) as [c|] eqn:E; cbn [option_map]; [|discriminate].
  intros [= <-]. split.
  - apply nth_error_Some. congruence.
  - now rewrite (nth_error_nth _ _ _ E).
Qed.

(** X16: the bins of the histogram of finite outcomes are laid from the
    least outcome on: the range runs from the least to the greatest outcome,
    the first bin starts at the least outcome, no bin ends before it starts,
    and every bin ends exactly where the next one starts.  This within the
    range of binary64: outcomes of a size up to [2^1022] and fewer than
    [2^32] bins. *)
Theorem buildHistogram_bins_tile (qs : list Q) (bins : nat) :
  qs <> [] -> (1 <= bins)%nat -> (Z.of_nat bins < 2 ^ 32)%Z ->
  in_range qs = true ->
  exists mn mx,
    hist_min (buildHistogram (map Num qs) bins) = Num mn
    /\ hist_max (buildHistogram (map Num qs) bins) = Num mx
    /\ In mn qs /\ In mx qs
    /\ (forall x, In x qs -> mn <= x /\ x <= mx)
    /\ (forall i b,
        nth_error (hist_bins (buildHistogram (map Num qs) bins)) i = Some b ->
        exists lo hi,
          bin_x0 b = Num lo /\ bin_x1 b = Num hi
          /\ lo <= hi
          /\ (i = 0%nat -> lo == mn)
          /\ (forall b',
              nth_error (hist_bins (buildHistogram (map Num qs) bins)) (S i)
              = Some b' ->
              bin_x0 b' = bin_x1 b)).
Proof.
  intros Hne Hb _ _.
  destruct (buildHistogram_shape qs bins Hne Hb)
    as [mn [mx [st [cs [Hun [Imn [Imx [Hrange [Hpos [Hspan [Hone [Hlen _]]]]]]]]]]]].
  exists mn, mx. rewrite Hun. cbn [hist_min hist_max hist_bins].
  repeat (split; [assumption || reflexivity|]).
  intros i b Hi. apply nth_error_bins in Hi. destruct Hi as [Hi ->].
  destruct (bin_edges mn st i) as [lo [hi [Hlo [Hhi [Elo Ehi]]]]].
  exists lo, hi. cbn [bin_x0 bin_x1].
  split; [exact Hlo|]. split; [exact Hhi|]. split; [|split].
  - rewrite Elo, Ehi. nra.
  - intros ->. rewrite Elo. change (inject_Z (Z.of_nat 0)) with 0. ring.
  - intros b' Hb'. apply nth_error_bins in Hb'. destruct Hb' as [_ ->].
    cbn [bin_x0]. now rewrite of_nat_succ.
Qed.

Lemma buildHistogram_bins_tile_witness :
  exists mn mx,
    hist_min (buildHistogram (map Num [3; 1; 2]) 2) = Num mn
    /\ hist_max (buildHistogram (map Num [3; 1; 2]) 2) = Num mx
    /\ In mn [3; 1; 2] /\ In mx [3; 1; 2]
    /\ (forall x, In x [3; 1; 2] -> mn <= x /\ x <= mx)
    /\ (forall i b,
        nth_error (hist_bins (buildHistogram (map Num [3; 1; 2]) 2)) i
        = Some b ->
        exists lo hi,
          bin_x0 b = Num lo /\ bin_x1 b = Num hi
          /\ lo <= hi
          /\ (i = 0%nat -> lo == mn)
          /\ (forall b',
              nth_error (hist_bins (buildHistogram (map Num [3; 1; 2]) 2))
                        (S i) = Some b' ->
              bin_x0 b' = bin_x1 b)).
Proof.
  apply (buildHistogram_bins_tile [3; 1; 2] 2).
  - discriminate.
  - lia.
  - reflexivity.
  - vm_compute. reflexivity.
Defined.

Lemma filter_nonempty {A : Type} (f : A -> bool) (x : A) (xs : list A) :
  In x xs -> f x = true -> (1 <= length (filter f xs))%nat.
Proof.
  intros Hin Hf.
  assert (H : In x (filter f xs)) by (apply filter_In; now split).
  destruct (filter f xs); [contradiction | simpl; lia].
Qed.

Lemma bin_of_least (mn st : Q) (bins : nat) (q : Q) :
  q == mn -> bin_of mn st bins q = 0%nat.
Proof.
  intros E. unfold bin_of.
  assert (H : (q - mn) / st == inject_Z 0).
  { rewrite E. unfold Qdiv. change (inject_Z 0) with 0. ring. }
  rewrite (Qfloor_comp _ _ H), Qfloor_Z. lia.
Qed.

Lemma bin_of_greatest (mn mx st : Q) (bins : nat) :
  (1 <= bins)%nat -> 0 < st ->
  st * inject_Z (Z.of_nat bins) == mx - mn ->
  bin_of mn st bins mx = (bins - 1)%nat.
Proof.
  intros Hb Hst Hspan. unfold bin_of.
  assert (H : (mx - mn) / st == inject_Z (Z.of_nat bins)).
  { rewrite <- Hspan. field. lra. }
  rewrite (Qfloor_comp _ _ H), Qfloor_Z. lia.
Qed.

Lemma filter_all {A : Type} (f : A -> bool) (xs : list A) :
  (forall x, In x xs -> f x = true) -> filter f xs = xs.
Proof.
  induction xs as [|x later IH]; intros H; [reflexivity|].
  cbn [filter]. rewrite (H x (or_introl eq_refl)), IH; [reflexivity|].
  intros y Hy. apply H. now right.
Qed.

(** X17: the first bin is never empty, since the least outcome is counted
    there; when the outcomes are not all equal the last bin is not empty
    either, since the greatest outcome is counted there; and when they are
    all equal, all of them are counted in the first bin.  This within the
    range of binary64: outcomes of a size up to [2^1022] of which two that
    differ, differ by [bins * 2^-1022] at least, and fewer than [2^32]
    bins. *)
Theorem buildHistogram_end_bins (qs : list Q) (bins : nat) :
  qs <> [] -> (1 <= bins)%nat -> (Z.of_nat bins < 2 ^ 32)%Z ->
  in_range qs = true -> apart bins qs = true ->
  exists first last c0 cl,
    nth_error (hist_bins (buildHistogram (map Num qs) bins)) 0 = Some first
    /\ nth_error (hist_bins (buildHistogram (map Num qs) bins)) (bins - 1)
       = Some last
    /\ bin_count first = of_nat c0 /\ bin_count last = of_nat cl
    /\ (1 <= c0)%nat
    /\ ((exists x y, In x qs /\ In y qs /\ x < y) -> (1 <= cl)%nat)
    /\ ((forall x y, In x qs -> In y qs -> x == y) -> c0 = length qs).
Proof.
  intros Hne Hb _ _ _.
  destruct (buildHistogram_shape qs bins Hne Hb)
    as [mn [mx [st [cs [Hun [Imn [Imx [Hrange [Hpos [Hspan [_ [Hlen Hcount]]]]]]]]]]]].
  rewrite Hun. cbn [hist_bins]. unfold mapi.
  exists (mkBin (add (Num mn) (mul (of_nat 0) (Num st)))
                (add (Num mn) (mul (add (of_nat 0) (Num 1)) (Num st)))
                (of_nat (nth 0 cs 0%nat))),
         (mkBin (add (Num mn) (mul (of_nat (bins - 1)) (Num st)))
                (add (Num mn) (mul (add (of_nat (bins - 1)) (Num 1)) (Num st)))
                (of_nat (nth (bins - 1) cs 0%nat))),
         (nth 0 cs 0%nat), (nth (bins - 1) cs 0%nat).
  split; [|split; [|split; [|split; [|split; [|split]]]]].
  - rewrite nth_error_mapi_from, nth_error_map.
    rewrite (nth_error_nth' cs 0%nat) by lia. reflexivity.
  - rewrite nth_error_mapi_from, nth_error_map.
    rewrite (nth_error_nth' cs 0%nat) by lia. reflexivity.
  - reflexivity.
  - reflexivity.
  - rewrite Hcount. apply (filter_nonempty _ mn); [exact Imn|].
    apply Nat.eqb_eq. now apply bin_of_least.
  - intros [x [y [Hx [Hy Hxy]]]].
    assert (Hlt : mn < mx).
    { destruct (Hrange x Hx) as [H1 _]. destruct (Hrange y Hy) as [_ H2].
      lra. }
    rewrite Hcount. apply (filter_nonempty _ mx); [exact Imx|].
    apply Nat.eqb_eq. apply bin_of_greatest; [exact Hb | exact Hpos |].
    now apply Hspan.
  - intros Hsame. rewrite Hcount, filter_all; [reflexivity|].
    intros q Hq. apply Nat.eqb_eq. apply bin_of_least.
    now apply Hsame.
Qed.

Lemma buildHistogram_end_bins_witness :
  exists first last c0 cl,
    nth_error (hist_bins (buildHistogram (map Num [3; 1; 2]) 2)) 0
    = Some first
    /\ nth_error (hist_bins (buildHistogram (map Num [3; 1; 2]) 2)) (2 - 1)
       = Some last
    /\ bin_count first = of_nat c0 /\ bin_count last = of_nat cl
    /\ (1 <= c0)%nat
    /\ ((exists x y, In x [3; 1; 2] /\ In y [3; 1; 2] /\ x < y) ->
        (1 <= cl)%nat)
    /\ ((forall x y, In x [3; 1; 2] -> In y [3; 1; 2] -> x == y) ->
        c0 = length [3; 1; 2]).
Proof.
  apply (buildHistogram_end_bins [3; 1; 2] 2).
  - discriminate.
  - lia.
  - reflexivity.
  - vm_compute. reflexivity.
  - vm_compute. reflexivity.
Defined.

(** The example of a histogram over [1 .. 3] in two bins: [1] falls in
    [1, 2), and [2] and [3] in [2, 3]. *)
Example buildHistogram_two_bins :
  hist_bins (buildHistogram (map Num [3; 1; 2]) 2)
  = [mkBin (Num 1) (Num 2) (Num 1); mkBin (Num 2) (Num 3) (Num 2)].
Proof. reflexivity. Qed.

(** ** The bars of the small histogram *)

Lemma Math_max_of_nat (a b : nat) :
  Math_max (of_nat a) (of_nat b) = of_nat (Nat.max a b).
Proof. unfold of_nat. now rewrite Math_max_inject_Z, Nat2Z.inj_max. Qed.

Lemma Math_max_fold_counts (cs : list nat) :
  forall a,
  exists m,
    fold_left Math_max (map of_nat cs ++ [Num 1]) (of_nat a) = of_nat m
    /\ (1 <= m)%nat /\ (a <= m)%nat
    /\ (forall c, In c cs -> (c <= m)%nat)
    /\ (m = 1%nat \/ m = a \/ In m cs).
Proof.
  induction cs as [|c rest IH]; intros a.
  - exists (Nat.max a 1). cbn [map app fold_left].
    change (Num 1) with (of_nat 1). rewrite Math_max_of_nat.
    split; [reflexivity|]. split; [lia|]. split; [lia|].
    split; [intros c []|]. lia.
  - cbn [map app fold_left]. rewrite Math_max_of_nat.
    destruct (IH (Nat.max a c)) as [m [Hm [H1 [Ha [Hall Hin]]]]].
    exists m. split; [exact Hm|]. split; [exact H1|]. split; [lia|]. split.
    + intros x [<-|Hx]; [lia | now apply Hall].
    + destruct Hin as [->|[->|Hin]]; [now left | | right; right; now right].
      destruct (Nat.max_spec a c) as [[_ ->]|[_ ->]];
        [right; right; now left | right; now left].
Qed.

(** [Math.max(...counts, 1)] is the greatest counter, or [1] when every
    counter is zero. *)
Lemma Math_max_of_counts (cs : list nat) :
  exists m,
    Math_max_of (map of_nat cs ++ [Num 1]) = of_nat m
    /\ (1 <= m)%nat
    /\ (forall c, In c cs -> (c <= m)%nat)
    /\ (m = 1%nat \/ In m cs).
Proof.
  destruct cs as [|c rest].
  - exists 1%nat. split; [reflexivity|]. split; [lia|].
    split; [intros c []| now left].
  - unfold Math_max_of. cbn [map app fold_left].
    change (Math_max NegInfinity (of_nat c)) with (of_nat c).
    destruct (Math_max_fold_counts rest c) as [m [Hm [H1 [Hc [Hall Hin]]]]].
    exists m. split; [exact Hm|]. split; [exact H1|]. split.
    + intros x [<-|Hx]; [exact Hc | now apply Hall].
    + destruct Hin as [->|[->|Hin]];
        [now left | right; now left | right; now right].
Qed.

(** The height of a bar, [(count / maxCount) * 100]. *)
Lemma bar_height (c m : nat) :
  (1 <= m)%nat -> (c <= m)%nat ->
  exists v,
    mul (div (of_nat c) (of_nat m)) (Num 100) = Num v
    /\ 0 <= v /\ v <= 100
    /\ (c = m -> v = 100).
Proof.
  intros Hm Hc. unfold of_nat.
  assert (Hm0 : 0 < inject_Z (Z.of_nat m)).
  { change 0 with (inject_Z 0). rewrite <- Zlt_Qlt. lia. }
  assert (Hc0 : 0 <= inject_Z (Z.of_nat c)).
  { change 0 with (inject_Z 0). rewrite <- Zle_Qle. lia. }
  assert (Hcm : inject_Z (Z.of_nat c) <= inject_Z (Z.of_nat m)).
  { rewrite <- Zle_Qle. lia. }
  rewrite div_Num by lra. unfold num, mul.
  eexists. split; [reflexivity|].
  assert (L : 0 <= inject_Z (Z.of_nat c) / inject_Z (Z.of_nat m)).
  { apply Qle_shift_div_l; [exact Hm0 | lra]. }
  assert (U : inject_Z (Z.of_nat c) / inject_Z (Z.of_nat m) <= 1).
  { apply Qle_shift_div_r; [exact Hm0 | lra]. }
  split; [rewrite !Qred_correct; lra|]. split; [rewrite !Qred_correct; lra|].
  intros ->. change 100 with (Qred 100) at 2. apply Qred_complete.
  rewrite Qred_correct. field. lra.
Qed.

(** X18: the small histogram draws 22 bars for a non-empty sequence of
    finite outcomes; every bar is between 0 and 100 per cent high, and the
    tallest is exactly 100 per cent. *)
Theorem MiniHistogram_heights_range (qs : list Q) :
  qs <> [] ->
  length (MiniHistogram_heights (map Num qs)) = 22%nat
  /\ (forall h, In h (MiniHistogram_heights (map Num qs)) ->
      exists v, h = Num v /\ 0 <= v /\ v <= 100)
  /\ In (Num 100) (MiniHistogram_heights (map Num qs)).
Proof.
  intros Hne.
  assert (Hb : (1 <= 22)%nat) by lia.
  destruct (buildHistogram_shape qs 22 Hne Hb)
    as [mn [mx [st [cs [Hun [_ [_ [_ [_ [_ [_ [Hlen Hcount]]]]]]]]]]]].
  unfold MiniHistogram_heights. cbv zeta. rewrite Hun. cbn [hist_bins].
  unfold mapi.
  rewrite <- (map_map bin_count (fun c => mul (div c _) (Num 100))).
  rewrite !bin_count_mapi.
  destruct (Math_max_of_counts cs) as [m [Hm [H1 [Hall Hin]]]].
  rewrite Hm, map_map. split; [|split].
  - now rewrite length_map.
  - intros h Hh. apply in_map_iff in Hh. destruct Hh as [c [<- Hc]].
    destruct (bar_height c m H1 (Hall c Hc)) as [v [Hv [L [U _]]]].
    exists v. now split.
  - assert (Hfull : In m cs).
    { destruct Hin as [->|Hin]; [|exact Hin].
      destruct qs as [|q later]; [contradiction|].
      pose proof (bin_of_in_range q mn st 22 Hb) as Hj.
      set (j := bin_of mn st 22 q) in *.
      assert (Hc : In (nth j cs 0%nat) cs) by (apply nth_In; lia).
      assert (H : (1 <= nth j cs 0)%nat).
      { rewrite Hcount.
        apply (filter_nonempty _ q); [now left | apply Nat.eqb_refl]. }
      pose proof (Hall _ Hc) as Hle.
      replace 1%nat with (nth j cs 0%nat) by lia. exact Hc. }
    apply in_map_iff. exists m. split; [|exact Hfull].
    destruct (bar_height m m H1 (Nat.le_refl m)) as [v [Hv [_ [_ E]]]].
    rewrite Hv. now rewrite E.
Qed.

Lemma MiniHistogram_heights_range_witness :
  length (MiniHistogram_heights (map Num [3; 1; 2])) = 22%nat
  /\ (forall h, In h (MiniHistogram_heights (map Num [3; 1; 2])) ->
      exists v, h = Num v /\ 0 <= v /\ v <= 100)
  /\ In (Num 100) (MiniHistogram_heights (map Num [3; 1; 2])).
Proof. apply (MiniHistogram_heights_range [3; 1; 2]). discriminate. Defined.

(** ** The empirical distribution function *)

Lemma fold_left_push {A B : Type} (g : A -> B) (l : list A) :
  forall acc, fold_left (fun out i => out ++ [g i]) l acc = acc ++ map g l.
Proof.
  induction l as [|a rest IH]; intros acc; cbn [fold_left map].
  - now rewrite app_nil_r.
  - now rewrite IH, <- app_assoc.
Qed.

Lemma cdf_position_le (points n i j : nat) :
  (2 <= points)%nat -> (1 <= n)%nat -> (i <= j)%nat ->
  inject_Z (Z.of_nat i) / inject_Z (Z.of_nat points - 1)
  * inject_Z (Z.of_nat n - 1)
  <= inject_Z (Z.of_nat j) / inject_Z (Z.of_nat points - 1)
     * inject_Z (Z.of_nat n - 1).
Proof.
  intros Hp Hn Hij.
  assert (P : 0 < inject_Z (Z.of_nat points - 1)).
  { change 0 with (inject_Z 0). rewrite <- Zlt_Qlt. lia. }
  assert (N : 0 <= inject_Z (Z.of_nat n - 1)).
  { change 0 with (inject_Z 0). rewrite <- Zle_Qle. lia. }
  assert (IJ : inject_Z (Z.of_nat i) <= inject_Z (Z.of_nat j)).
  { rewrite <- Zle_Qle. lia. }
  apply Qmult_le_compat_r; [|exact N].
  unfold Qdiv. apply Qmult_le_compat_r; [exact IJ|].
  apply Qlt_le_weak, Qinv_lt_0_compat, P.
Qed.

Lemma cdf_position_first (points n : nat) :
  inject_Z (Z.of_nat 0) / inject_Z (Z.of_nat points - 1)
  * inject_Z (Z.of_nat n - 1) == inject_Z 0.
Proof. change (inject_Z (Z.of_nat 0)) with 0. unfold Qdiv. ring. Qed.

Lemma cdf_position_last (points n : nat) :
  (2 <= points)%nat ->
  inject_Z (Z.of_nat (points - 1)) / inject_Z (Z.of_nat points - 1)
  * inject_Z (Z.of_nat n - 1) == inject_Z (Z.of_nat n - 1).
Proof.
  intros Hp. rewrite Nat2Z.inj_sub by lia. change (Z.of_nat 1) with 1%Z.
  assert (P : 0 < inject_Z (Z.of_nat points - 1)).
  { change 0 with (inject_Z 0). rewrite <- Zlt_Qlt. lia. }
  field. lra.
Qed.

Lemma cdf_position_range (points n i : nat) :
  (2 <= points)%nat -> (1 <= n)%nat -> (i < points)%nat ->
  (0 <= Qfloor (inject_Z (Z.of_nat i) / inject_Z (Z.of_nat points - 1)
                * inject_Z (Z.of_nat n - 1)) <= Z.of_nat n - 1)%Z.
Proof.
  intros Hp Hn Hi. split.
  - rewrite <- (Qfloor_Z 0). apply Qfloor_resp_le.
    eapply Qle_trans; [|apply (cdf_position_le points n 0 i); lia].
    apply Qle_lteq. right. symmetry. apply cdf_position_first.
  - apply Z.le_trans with (Qfloor (inject_Z (Z.of_nat n - 1)));
      [|rewrite Qfloor_Z; lia].
    apply Qfloor_resp_le.
    eapply Qle_trans; [apply (cdf_position_le points n i (points - 1)); lia|].
    apply Qle_lteq. right. now apply cdf_position_last.
Qed.

(** The [i]-th point [buildCDF] pushes, over sorted finite outcomes. *)
Lemma buildCDF_point (s : list Q) (points i : nat) :
  (2 <= points)%nat -> (2 <= length s)%nat -> (i < points)%nat ->
  mkCDFPoint
    (get (map Num s)
         (Math_floor (mul (div (of_nat i) (sub (of_nat points) (Num 1)))
                          (sub (of_nat (length (map Num s))) (Num 1)))))
    (div (Math_floor (mul (div (of_nat i) (sub (of_nat points) (Num 1)))
                          (sub (of_nat (length (map Num s))) (Num 1))))
         (sub (of_nat (length (map Num s))) (Num 1)))
  = mkCDFPoint
      (Some (Num (nth (cdf_rank points (length s) i) s 0)))
      (num (inject_Z (Z.of_nat (cdf_rank points (length s) i))
            / inject_Z (Z.of_nat (length s) - 1))).
Proof.
  intros Hp Hn Hi.
  assert (P : ~ inject_Z (Z.of_nat points - 1) == 0).
  { change 0 with (inject_Z 0). rewrite inject_Z_injective. lia. }
  assert (N : ~ inject_Z (Z.of_nat (length s) - 1) == 0).
  { change 0 with (inject_Z 0). rewrite inject_Z_injective. lia. }
  rewrite length_map, !of_nat_pred. unfold of_nat at 1 2.
  rewrite (div_Num _ _ P). unfold num. cbn [mul]. unfold num.
  cbn [Math_floor].
  assert (E : Qfloor (Qred (Qred (inject_Z (Z.of_nat i)
                                  / inject_Z (Z.of_nat points - 1))
                            * inject_Z (Z.of_nat (length s) - 1)))
              = Qfloor (inject_Z (Z.of_nat i) / inject_Z (Z.of_nat points - 1)
                        * inject_Z (Z.of_nat (length s) - 1))).
  { apply Qfloor_comp. now rewrite !Qred_correct. }
  rewrite E.
  pose proof (cdf_position_range points (length s) i Hp ltac:(lia) Hi) as R.
  set (fl := Qfloor (inject_Z (Z.of_nat i) / inject_Z (Z.of_nat points - 1)
                     * inject_Z (Z.of_nat (length s) - 1))) in *.
  rewrite get_finite by lia. rewrite (div_Num _ _ N).
  unfold cdf_rank. fold fl. now rewrite Z2Nat.id by lia.
Qed.

(** The points by their ranks, in exact arithmetic: point [i] is the
    outcome of rank [floor(i / (points - 1) * (n - 1))]. *)
Lemma buildCDF_by_rank (qs : list Q) (points : nat) :
  (2 <= length qs)%nat -> (2 <= points)%nat ->
  exists s,
    Permutation qs s /\ StronglySorted Qle s
    /\ length (buildCDF (map Num qs) points) = points
    /\ (forall i, (i < points)%nat ->
        nth_error (buildCDF (map Num qs) points) i
        = Some (mkCDFPoint
                  (Some (Num (nth (cdf_rank points (length qs) i) s 0)))
                  (num (inject_Z (Z.of_nat (cdf_rank points (length qs) i))
                        / inject_Z (Z.of_nat (length qs) - 1)))))
    /\ (forall i j, (i <= j)%nat -> (j < points)%nat ->
        (cdf_rank points (length qs) i <= cdf_rank points (length qs) j)%nat)
    /\ nth_error (buildCDF (map Num qs) points) 0
       = Some (mkCDFPoint (Some (Num (nth 0 s 0))) (Num 0))
    /\ nth_error (buildCDF (map Num qs) points) (points - 1)
       = Some (mkCDFPoint (Some (Num (nth (length qs - 1) s 0))) (Num 1)).
Proof.
  intros Hn Hp.
  destruct (sort_finite qs) as [s [Hs [Hlen [Hperm Hsorted]]]].
  exists s. split; [exact Hperm|]. split; [exact Hsorted|].
  assert (Hun : buildCDF (map Num qs) points
                = map (fun i =>
                         mkCDFPoint
                           (Some (Num (nth (cdf_rank points (length qs) i) s 0)))
                           (num (inject_Z
                                   (Z.of_nat (cdf_rank points (length qs) i))
                                 / inject_Z (Z.of_nat (length qs) - 1))))
                      (seq 0 points)).
  { destruct qs as [|q later]; [simpl in Hn; lia|].
    change (map Num (q :: later)) with (Num q :: map Num later) in *.
    unfold buildCDF. cbv zeta. rewrite Hs, fold_left_push. cbn [app].
    apply map_ext_in. intros i Hi. apply in_seq in Hi.
    rewrite <- Hlen. apply buildCDF_point; lia. }
  assert (Hat : forall i, (i < points)%nat ->
                nth_error (buildCDF (map Num qs) points) i
                = Some (mkCDFPoint
                          (Some (Num (nth (cdf_rank points (length qs) i) s 0)))
                          (num (inject_Z
                                  (Z.of_nat (cdf_rank points (length qs) i))
                                / inject_Z (Z.of_nat (length qs) - 1))))).
  { intros i Hi. rewrite Hun, nth_error_map.
    rewrite (nth_error_nth' _ 0%nat) by (rewrite length_seq; lia).
    rewrite seq_nth by lia. reflexivity. }
  assert (R0 : cdf_rank points (length qs) 0 = 0%nat).
  { unfold cdf_rank.
    rewrite (Qfloor_comp _ _ (cdf_position_first points (length qs))).
    now rewrite Qfloor_Z. }
  assert (R1 : cdf_rank points (length qs) (points - 1)
               = (length qs - 1)%nat).
  { unfold cdf_rank.
    rewrite (Qfloor_comp _ _ (cdf_position_last points (length qs) Hp)).
    rewrite Qfloor_Z. lia. }
  assert (N : ~ inject_Z (Z.of_nat (length qs) - 1) == 0).
  { change 0 with (inject_Z 0). rewrite inject_Z_injective. lia. }
  split; [|split; [exact Hat|split; [|split]]].
  - now rewrite Hun, length_map, length_seq.
  - intros i j Hij Hj. unfold cdf_rank.
    pose proof (cdf_position_range points (length qs) i Hp ltac:(lia)
                                   ltac:(lia)) as Ri.
    apply Z2Nat.inj_le; try lia.
    + pose proof (cdf_position_range points (length qs) j Hp ltac:(lia) Hj).
      lia.
    + apply Qfloor_resp_le, cdf_position_le; lia.
  - rewrite Hat by lia. rewrite R0. reflexivity.
  - rewrite Hat by lia. rewrite R1. do 2 f_equal.
    change (Num 1) with (Num (inject_Z 1)). apply num_inject_Z.
    rewrite Nat2Z.inj_sub by lia. change (Z.of_nat 1) with 1%Z.
    change (inject_Z 1) with 1. field. exact N.
Qed.

(** C8, as amended: [buildCDF] has no guard for a single point, and the
    component asks for 45.  For at least two points and at least two finite
    outcomes every sample is one of the outcomes, with a share from 0 to 1;
    from one sample to a later one neither the outcome nor the share
    decreases; the first sample is the least outcome with share 0 and the
    last the greatest with share 1.  No sample is [undefined] and no share
    [NaN]. *)
Theorem buildCDF_samples (qs : list Q) (points : nat) :
  (2 <= length qs)%nat -> (2 <= points)%nat ->
  length (buildCDF (map Num qs) points) = points
  /\ (forall i j, (i <= j)%nat -> (j < points)%nat ->
      exists xi pi xj pj,
        nth_error (buildCDF (map Num qs) points) i
        = Some (mkCDFPoint (Some (Num xi)) (Num pi))
        /\ nth_error (buildCDF (map Num qs) points) j
           = Some (mkCDFPoint (Some (Num xj)) (Num pj))
        /\ In xi qs /\ In xj qs
        /\ 0 <= pi /\ pj <= 1
        /\ xi <= xj /\ pi <= pj)
  /\ (exists least greatest,
        nth_error (buildCDF (map Num qs) points) 0
        = Some (mkCDFPoint (Some (Num least)) (Num 0))
        /\ nth_error (buildCDF (map Num qs) points) (points - 1)
           = Some (mkCDFPoint (Some (Num greatest)) (Num 1))
        /\ In least qs /\ In greatest qs
        /\ (forall x, In x qs -> least <= x /\ x <= greatest)).
Proof.
  intros Hn Hp.
  destruct (buildCDF_by_rank qs points Hn Hp)
    as [s [Hperm [Hst [Hlen [Hat [Hmono [Hfirst Hlast]]]]]]].
  assert (Hl : length s = length qs).
  { symmetry. now apply Permutation_length. }
  assert (Hmem : forall k, (k < length s)%nat -> In (nth k s 0) qs).
  { intros k Hk. apply (Permutation_in _ (Permutation_sym Hperm)).
    now apply nth_In. }
  assert (Hrank : forall i, (i < points)%nat ->
                  (cdf_rank points (length qs) i <= length qs - 1)%nat).
  { intros i Hi. unfold cdf_rank.
    pose proof (cdf_position_range points (length qs) i Hp ltac:(lia) Hi).
    lia. }
  assert (N : 0 < inject_Z (Z.of_nat (length qs) - 1)).
  { change 0 with (inject_Z 0). rewrite <- Zlt_Qlt. lia. }
  split; [exact Hlen|]. split.
  - intros i j Hij Hj.
    pose proof (Hmono i j Hij Hj) as Hr.
    pose proof (Hrank i ltac:(lia)) as Hi1.
    pose proof (Hrank j Hj) as Hj1.
    do 4 eexists.
    split; [apply Hat; lia|]. split; [now apply Hat|].
    split; [apply Hmem; lia|]. split; [apply Hmem; lia|].
    split; [|split; [|split]].
    + rewrite Qred_correct. apply Qle_shift_div_l; [exact N|].
      rewrite Qmult_0_l. change 0 with (inject_Z 0). rewrite <- Zle_Qle. lia.
    + rewrite Qred_correct. apply Qle_shift_div_r; [exact N|].
      rewrite Qmult_1_l. rewrite <- Zle_Qle. lia.
    + apply (ascending_nth s Hst). lia.
    + rewrite !Qred_correct. apply Qmult_le_compat_r.
      * rewrite <- Zle_Qle. lia.
      * apply Qlt_le_weak, Qinv_lt_0_compat, N.
  - exists (nth 0 s 0), (nth (length qs - 1) s 0).
    split; [exact Hfirst|]. split; [exact Hlast|].
    split; [apply Hmem; lia|]. split; [apply Hmem; lia|].
    intros x Hx. apply (Permutation_in _ Hperm) in Hx.
    destruct (In_nth _ _ 0 Hx) as [k [Hk <-]].
    split; apply (ascending_nth s Hst); lia.
Qed.

Lemma buildCDF_samples_witness :
  length (buildCDF (map Num [3; 1; 2]) 45) = 45%nat
  /\ (forall i j, (i <= j)%nat -> (j < 45)%nat ->
      exists xi pi xj pj,
        nth_error (buildCDF (map Num [3; 1; 2]) 45) i
        = Some (mkCDFPoint (Some (Num xi)) (Num pi))
        /\ nth_error (buildCDF (map Num [3; 1; 2]) 45) j
           = Some (mkCDFPoint (Some (Num xj)) (Num pj))
        /\ In xi [3; 1; 2] /\ In xj [3; 1; 2]
        /\ 0 <= pi /\ pj <= 1
        /\ xi <= xj /\ pi <= pj)
  /\ (exists least greatest,
        nth_error (buildCDF (map Num [3; 1; 2]) 45) 0
        = Some (mkCDFPoint (Some (Num least)) (Num 0))
        /\ nth_error (buildCDF (map Num [3; 1; 2]) 45) (45 - 1)
           = Some (mkCDFPoint (Some (Num greatest)) (Num 1))
        /\ In least [3; 1; 2] /\ In greatest [3; 1; 2]
        /\ (forall x, In x [3; 1; 2] -> least <= x /\ x <= greatest)).
Proof. apply (buildCDF_samples [3; 1; 2] 45); simpl; lia. Defined.


(** The three points over [[3, 1, 2]]: the outcomes in ascending order with
    shares 0, 1/2 and 1. *)
Example buildCDF_three_points :
  buildCDF (map Num [3; 1; 2]) 3
  = [mkCDFPoint (Some (Num 1)) (Num 0);
     mkCDFPoint (Some (Num 2)) (Num (1 # 2));
     mkCDFPoint (Some (Num 3)) (Num 1)].
Proof. reflexivity. Qed.

(** X20: over a single outcome the share of every point is [NaN]: the rank
    is [0] and [n - 1] is [0], so [p] is [0 / 0].  The division has no
    guard. *)
Theorem buildCDF_single_outcome (q : Q) (points : nat) :
  (2 <= points)%nat ->
  buildCDF [Num q] points = repeat (mkCDFPoint (Some (Num q)) NaN) points.
Proof.
  intros Hp. unfold buildCDF. cbv zeta. rewrite fold_left_push. cbn [app].
  apply map_constant_seq. intros i.
  assert (P : ~ inject_Z (Z.of_nat points - 1) == 0).
  { change 0 with (inject_Z 0). rewrite inject_Z_injective. lia. }
  change (sort [Num q]) with [Num q]. cbn [length].
  change (sub (of_nat 1) (Num 1)) with (Num (inject_Z 0)).
  rewrite of_nat_pred. unfold of_nat. rewrite (div_Num _ _ P).
  unfold num. cbn [mul].
  rewrite (num_inject_Z _ 0) by (change (inject_Z 0) with 0; ring).
  reflexivity.
Qed.

Lemma buildCDF_single_outcome_witness :
  buildCDF [Num 5] 3 = repeat (mkCDFPoint (Some (Num 5)) NaN) 3.
Proof. apply (buildCDF_single_outcome 5 3). lia. Defined.

(** ** The risk register *)

Lemma risk_total (ts : list (String.string * Q * Q)) :
  forall (t : nat) (a : Q),
  exists v,
    reduce_from (fun acc r (_ : nat) => add acc (mul (risk_p r) (risk_i r)))
                (map finite_risk ts) t (Num a) = Num v
    /\ v == a + sumQ (map item_score ts).
Proof.
  induction ts as [|[[name p] i] later IH]; intros t a.
  - exists a. split; [reflexivity|]. simpl. lra.
  - cbn [map reduce_from finite_risk risk_p risk_i].
    change (add (Num a) (mul (Num p) (Num i)))
      with (Num (Qred (a + Qred (p * i)))).
    destruct (IH (S t) (Qred (a + Qred (p * i)))) as [v [Hv Hvv]].
    exists v. split; [exact Hv|].
    rewrite Hvv, !Qred_correct. cbn [map item_score sumQ fold_right].
    fold (sumQ (map item_score later)). lra.
Qed.

Lemma totalRiskScore_finite (ts : list (String.string * Q * Q)) :
  ts <> [] ->
  exists v,
    totalRiskScore (map finite_risk ts) = Num v
    /\ v == sumQ (map item_score ts) / count_of (map item_score ts).
Proof.
  intros Hne. unfold totalRiskScore, reduce.
  destruct (risk_total ts 0 0) as [t [Ht Et]]. rewrite Ht.
  assert (Hn : 0 < count_of (map item_score ts)).
  { apply count_of_positive. destruct ts; [contradiction | discriminate]. }
  rewrite !length_map. unfold count_of in Hn. rewrite length_map in Hn.
  unfold of_nat. rewrite div_Num by lra.
  eexists. split; [reflexivity|].
  rewrite Qred_correct, Et. unfold count_of. rewrite length_map.
  field. lra.
Qed.

Lemma sumQ_above (xs : list Q) (L : Q) :
  xs <> [] -> (forall x, In x xs -> L < x) -> count_of xs * L < sumQ xs.
Proof.
  induction xs as [|x later IH]; intros Hne HL; [contradiction|].
  pose proof (HL x (or_introl eq_refl)) as Hx.
  rewrite count_of_cons. cbn [sumQ fold_right]. fold (sumQ later).
  setoid_replace ((count_of later + 1) * L)
    with (count_of later * L + L) by ring.
  destruct later as [|y rest].
  - unfold count_of, sumQ. cbn [length fold_right].
    change (inject_Z (Z.of_nat 0)) with 0. lra.
  - assert (IH' : count_of (y :: rest) * L < sumQ (y :: rest)).
    { apply IH; [discriminate|]. intros z Hz. apply HL. now right. }
    lra.
Qed.

Lemma riskLevel_Num (s : Q) :
  riskLevel (Num s)
  = if Qle_bool s 6 then Low else if Qle_bool s 14 then Medium else High.
Proof.
  unfold riskLevel.
  destruct (Qle_bool s 6) eqn:E6.
  - apply Qle_bool_iff in E6. apply leb_Num in E6. now rewrite E6.
  - destruct (leb (Num s) (Num 6)) eqn:L6.
    + apply leb_Num in L6. apply Qle_bool_iff in L6. congruence.
    + destruct (Qle_bool s 14) eqn:E14.
      * apply Qle_bool_iff in E14. apply leb_Num in E14. now rewrite E14.
      * destruct (leb (Num s) (Num 14)) eqn:L14; [|reflexivity].
        apply leb_Num in L14. apply Qle_bool_iff in L14. congruence.
Qed.

Lemma Qle_bool_false (x y : Q) : Qle_bool x y = false <-> y < x.
Proof.
  split; intros H.
  - destruct (Qlt_le_dec y x) as [L|G]; [exact L|].
    apply Qle_bool_iff in G. congruence.
  - destruct (Qle_bool x y) eqn:E; [|reflexivity].
    apply Qle_bool_iff in E. lra.
Qed.

(** X21: the overall risk score of a non-empty register with finite ratings
    is the mean of the scores [p * i]: it lies between any two bounds of
    the single scores, so between 1 and 25 for ratings from 1 to 5.  When
    every risk alone has the same level, the register as a whole has that
    level. *)
Theorem totalRiskScore_between (ts : list (String.string * Q * Q)) :
  ts <> [] ->
  exists v,
    totalRiskScore (map finite_risk ts) = Num v
    /\ v == sumQ (map item_score ts) / count_of (map item_score ts)
    /\ (forall lo, (forall t, In t ts -> lo <= item_score t) -> lo <= v)
    /\ (forall hi, (forall t, In t ts -> item_score t <= hi) -> v <= hi)
    /\ (forall level,
        (forall t, In t ts ->
                   riskLevel (mul (risk_p (finite_risk t))
                                  (risk_i (finite_risk t))) = level) ->
        totalLevel (map finite_risk ts) = level).
Proof.
  intros Hne.
  destruct (totalRiskScore_finite ts Hne) as [v [Hv Ev]].
  assert (Hne' : map item_score ts <> []).
  { destruct ts; [contradiction | discriminate]. }
  pose proof (count_of_positive _ Hne') as Hn.
  assert (Lo : forall lo, (forall t, In t ts -> lo <= item_score t) ->
                          lo <= v).
  { intros lo H. rewrite Ev. apply Qle_shift_div_l; [exact Hn|].
    rewrite Qmult_comm. apply sumQ_lower.
    intros x Hx. apply in_map_iff in Hx. destruct Hx as [t [<- Ht]].
    now apply H. }
  assert (Hi : forall hi, (forall t, In t ts -> item_score t <= hi) ->
                          v <= hi).
  { intros hi H. rewrite Ev. apply Qle_shift_div_r; [exact Hn|].
    rewrite Qmult_comm. apply sumQ_upper.
    intros x Hx. apply in_map_iff in Hx. destruct Hx as [t [<- Ht]].
    now apply H. }
  assert (Above : forall lo, (forall t, In t ts -> lo < item_score t) ->
                             lo < v).
  { intros lo H. rewrite Ev. apply Qlt_shift_div_l; [exact Hn|].
    rewrite Qmult_comm. apply sumQ_above; [exact Hne'|].
    intros x Hx. apply in_map_iff in Hx. destruct Hx as [t [<- Ht]].
    now apply H. }
  exists v. split; [exact Hv|]. split; [exact Ev|].
  split; [exact Lo|]. split; [exact Hi|].
  intros level H. unfold totalLevel. rewrite Hv, riskLevel_Num.
  assert (Item : forall t, In t ts ->
                 (if Qle_bool (item_score t) 6 then Low
                  else if Qle_bool (item_score t) 14 then Medium else High)
                 = level).
  { intros [[name p] i] Ht. specialize (H _ Ht).
    cbn [finite_risk risk_p risk_i mul] in H. unfold num in H.
    rewrite riskLevel_Num in H. cbn [item_score].
    rewrite <- H.
    assert (E6 : Qle_bool (Qred (p * i)) 6 = Qle_bool (p * i) 6).
    { destruct (Qle_bool (p * i) 6) eqn:E.
      - apply Qle_bool_iff. apply Qle_bool_iff in E.
        now rewrite Qred_correct.
      - apply Qle_bool_false. apply Qle_bool_false in E.
        now rewrite Qred_correct. }
    assert (E14 : Qle_bool (Qred (p * i)) 14 = Qle_bool (p * i) 14).
    { destruct (Qle_bool (p * i) 14) eqn:E.
      - apply Qle_bool_iff. apply Qle_bool_iff in E.
        now rewrite Qred_correct.
      - apply Qle_bool_false. apply Qle_bool_false in E.
        now rewrite Qred_correct. }
    now rewrite E6, E14. }
  destruct level.
  - assert (U : v <= 6).
    { apply Hi. intros t Ht. specialize (Item t Ht).
      destruct (Qle_bool (item_score t) 6) eqn:E;
        [now apply Qle_bool_iff in E|].
      destruct (Qle_bool (item_score t) 14); discriminate. }
    apply Qle_bool_iff in U. now rewrite U.
  - assert (L : 6 < v).
    { apply Above. intros t Ht. specialize (Item t Ht).
      destruct (Qle_bool (item_score t) 6) eqn:E; [discriminate|].
      now apply Qle_bool_false in E. }
    assert (U : v <= 14).
    { apply Hi. intros t Ht. specialize (Item t Ht).
      destruct (Qle_bool (item_score t) 6); [discriminate|].
      destruct (Qle_bool (item_score t) 14) eqn:E;
        [now apply Qle_bool_iff in E | discriminate]. }
    apply Qle_bool_false in L. apply Qle_bool_iff in U. now rewrite L, U.
  - assert (L : 14 < v).
    { apply Above. intros t Ht. specialize (Item t Ht).
      destruct (Qle_bool (item_score t) 6); [discriminate|].
      destruct (Qle_bool (item_score t) 14) eqn:E; [discriminate|].
      now apply Qle_bool_false in E. }
    assert (L6 : 6 < v) by lra.
    apply Qle_bool_false in L. apply Qle_bool_false in L6.
    now rewrite L6, L.
Qed.

Section RiskExamples.

Import String.
Local Open Scope string_scope.

Lemma totalRiskScore_between_witness :
  exists v,
    totalRiskScore (map finite_risk [("a", 3, 4); ("b", 2, 3)]) = Num v
    /\ v == sumQ (map item_score [("a", 3, 4); ("b", 2, 3)])
            / count_of (map item_score [("a", 3, 4); ("b", 2, 3)])
    /\ (forall lo,
        (forall t, In t [("a", 3, 4); ("b", 2, 3)] -> lo <= item_score t) ->
        lo <= v)
    /\ (forall hi,
        (forall t, In t [("a", 3, 4); ("b", 2, 3)] -> item_score t <= hi) ->
        v <= hi)
    /\ (forall level,
        (forall t, In t [("a", 3, 4); ("b", 2, 3)] ->
                   riskLevel (mul (risk_p (finite_risk t))
                                  (risk_i (finite_risk t))) = level) ->
        totalLevel (map finite_risk [("a", 3, 4); ("b", 2, 3)]) = level).
Proof.
  apply (totalRiskScore_between [("a", 3, 4); ("b", 2, 3)]). discriminate.
Defined.

(** The register the component starts with: a score of 53/6, level
    Medium. *)
Example totalRiskScore_defaults :
  totalRiskScore riskDefaults = Num (53 # 6)
  /\ totalLevel riskDefaults = Medium.
Proof. split; reflexivity. Qed.

End RiskExamples.

(** *** The register the component holds *)

Lemma mapi_from_finite_risk
      (f : RiskItem -> nat -> RiskItem)
      (g : String.string * Q * Q -> nat -> String.string * Q * Q) :
  (forall t i, f (finite_risk t) i = finite_risk (g t i)) ->
  forall ts k,
  mapi_from f (map finite_risk ts) k = map finite_risk (mapi_from g ts k).
Proof.
  intros H. induction ts as [|t later IH]; intros k; [reflexivity|].
  cbn [map mapi_from]. now rewrite H, IH.
Qed.

Lemma Forall_mapi_from {A : Type} (P : A -> Prop) (g : A -> nat -> A) :
  (forall t i, P t -> P (g t i)) ->
  forall ts k, Forall P ts -> Forall P (mapi_from g ts k).
Proof.
  intros H. induction ts as [|t later IH]; intros k Hall; [constructor|].
  inversion Hall; subst. cbn [mapi_from]. constructor; auto.
Qed.

Lemma setRisks_register (ts : list (String.string * Q * Q))
      (u : RatingUpdate) :
  slider_value u -> Forall rated_1_to_5 ts ->
  exists ts',
    setRisks (map finite_risk ts) u = map finite_risk ts'
    /\ length ts' = length ts
    /\ Forall rated_1_to_5 ts'.
Proof.
  intros [k [Hk Hv]] Hall.
  assert (K1 : 1 <= inject_Z k).
  { change 1 with (inject_Z 1). rewrite <- Zle_Qle. lia. }
  assert (K5 : inject_Z k <= 5).
  { change 5 with (inject_Z 5). rewrite <- Zle_Qle. lia. }
  destruct u as [idx v|idx v]; subst v; unfold setRisks, mapi.
  - exists (mapi_from
              (fun t j => if (j =? idx)%nat
                          then (fst (fst t), inject_Z k, snd t) else t)
              ts 0).
    split; [|split].
    + apply mapi_from_finite_risk. intros [[name p] i] j.
      now destruct (j =? idx)%nat.
    + apply length_mapi_from.
    + apply Forall_mapi_from; [|exact Hall].
      intros [[name p] i] j H. destruct (j =? idx)%nat; [|exact H].
      cbn in *. tauto.
  - exists (mapi_from
              (fun t j => if (j =? idx)%nat
                          then (fst (fst t), snd (fst t), inject_Z k) else t)
              ts 0).
    split; [|split].
    + apply mapi_from_finite_risk. intros [[name p] i] j.
      now destruct (j =? idx)%nat.
    + apply length_mapi_from.
    + apply Forall_mapi_from; [|exact Hall].
      intros [[name p] i] j H. destruct (j =? idx)%nat; [|exact H].
      cbn in *. tauto.
Qed.

Lemma risks_after_register (updates : list RatingUpdate) :
  Forall slider_value updates ->
  forall ts,
  length ts = 6%nat -> Forall rated_1_to_5 ts ->
  exists ts',
    fold_left setRisks updates (map finite_risk ts) = map finite_risk ts'
    /\ length ts' = 6%nat
    /\ Forall rated_1_to_5 ts'.
Proof.
  induction 1 as [|u later Hu _ IH]; intros ts Hl Hall.
  - now exists ts.
  - cbn [fold_left].
    destruct (setRisks_register ts u Hu Hall) as [ts1 [E1 [L1 A1]]].
    rewrite E1. apply IH; [congruence | exact A1].
Qed.

Lemma riskDefaults_register :
  exists ts,
    riskDefaults = map finite_risk ts
    /\ length ts = 6%nat
    /\ Forall rated_1_to_5 ts.
Proof.
  exists (map (fun r => (risk_name r,
                         match risk_p r with Num q => q | _ => 0 end,
                         match risk_i r with Num q => q | _ => 0 end))
              riskDefaults).
  split; [reflexivity|]. split; [reflexivity|].
  repeat constructor; discriminate.
Qed.

(** C7, as amended: the computation has no answer for the empty register,
    and the component never holds one.  The register starts as the six
    default risks and is only ever replaced by a [map] over itself, one
    slider move at a time, so it always has six items; with the ratings the
    sliders report, whole numbers from 1 to 5, the overall score is a number
    from 1 to 25 and the level is the one the thresholds 6 and 14 give
    it. *)
Theorem totalRiskScore_register (updates : list RatingUpdate) :
  Forall slider_value updates ->
  length (risks_after updates) = 6%nat
  /\ exists v,
       totalRiskScore (risks_after updates) = Num v
       /\ 1 <= v /\ v <= 25
       /\ totalLevel (risks_after updates)
          = (if Qle_bool v 6 then Low
             else if Qle_bool v 14 then Medium else High).
Proof.
  intros Hup.
  destruct riskDefaults_register as [ts0 [E0 [L0 A0]]].
  unfold risks_after. rewrite E0.
  destruct (risks_after_register updates Hup ts0 L0 A0) as [ts [E [L A]]].
  rewrite E. split; [now rewrite length_map|].
  assert (Hne : ts <> []) by (destruct ts; [discriminate L | discriminate]).
  destruct (totalRiskScore_finite ts Hne) as [v [Hv Ev]].
  assert (Hne' : map item_score ts <> []).
  { destruct ts; [contradiction | discriminate]. }
  pose proof (count_of_positive _ Hne') as Hn.
  assert (Hscore : forall x, In x (map item_score ts) -> 1 <= x /\ x <= 25).
  { intros x Hx. apply in_map_iff in Hx. destruct Hx as [[[name p] i] [<- Ht]].
    rewrite Forall_forall in A. specialize (A _ Ht). cbn in A. cbn [item_score].
    nra. }
  exists v. split; [exact Hv|]. split; [|split].
  - rewrite Ev. apply Qle_shift_div_l; [exact Hn|].
    rewrite Qmult_comm. apply sumQ_lower. intros x Hx. now apply Hscore.
  - rewrite Ev. apply Qle_shift_div_r; [exact Hn|].
    rewrite Qmult_comm. apply sumQ_upper. intros x Hx. now apply Hscore.
  - unfold totalLevel. rewrite Hv. apply riskLevel_Num.
Qed.

Lemma totalRiskScore_register_witness :
  length (risks_after [SetP 0 (Num 5); SetI 2 (Num 1)]) = 6%nat
  /\ exists v,
       totalRiskScore (risks_after [SetP 0 (Num 5); SetI 2 (Num 1)]) = Num v
       /\ 1 <= v /\ v <= 25
       /\ totalLevel (risks_after [SetP 0 (Num 5); SetI 2 (Num 1)])
          = (if Qle_bool v 6 then Low
             else if Qle_bool v 14 then Medium else High).
Proof.
  apply (totalRiskScore_register [SetP 0 (Num 5); SetI 2 (Num 1)]).
  repeat constructor.
  - exists 5%Z. split; [lia | reflexivity].
  - exists 1%Z. split; [lia | reflexivity].
Defined.

(** ** The risk matrix *)

Lemma mapCell_range (v : number) : (mapCell v <= 2)%nat.
Proof.
  unfold mapCell. destruct (leb v (Num 2)); [lia|].
  destruct (eqb v (Num 3)); lia.
Qed.

Lemma nth_push_cell (cells : Cells) (r0 c0 : nat) (name : String.string) :
  (r0 < length cells)%nat -> (c0 < length (nth r0 cells []))%nat ->
  forall r c,
  nth c (nth r (push_cell r0 c0 name cells) []) []
  = if ((r =? r0) && (c =? c0))%nat
    then nth c (nth r cells []) [] ++ [name]
    else nth c (nth r cells []) [].
Proof.
  intros Hr Hc r c. unfold push_cell. rewrite nth_update_at by exact Hr.
  destruct (Nat.eqb_spec r r0) as [->|Hne]; cbn [andb]; [|reflexivity].
  now rewrite nth_update_at by exact Hc.
Qed.

Lemma length_push_cell (cells : Cells) (r0 c0 : nat) (name : String.string) :
  (r0 < length cells)%nat ->
  length (push_cell r0 c0 name cells) = length cells
  /\ (forall r, length (nth r (push_cell r0 c0 name cells) [])
                = length (nth r cells [])).
Proof.
  intros Hr. unfold push_cell. split; [apply length_update_at|].
  intros r. rewrite nth_update_at by exact Hr.
  destruct (r =? r0)%nat; [apply length_update_at | reflexivity].
Qed.

Lemma empty_cell (r c : nat) : nth c (nth r empty_cells []) [] = [].
Proof.
  destruct r as [|[|[|[|r]]]]; destruct c as [|[|[|[|c]]]]; reflexivity.
Qed.

Lemma RiskMatrix_loop (items : list RiskItem) :
  forall cells : Cells,
  length cells = 3%nat ->
  (forall r, (r < 3)%nat -> length (nth r cells []) = 3%nat) ->
  let filled :=
    fold_left
      (fun cells r =>
         push_cell (2 - mapCell (risk_p r)) (mapCell (risk_i r))
                   (risk_name r) cells)
      items cells in
  length filled = 3%nat
  /\ (forall r, (r < 3)%nat -> length (nth r filled []) = 3%nat)
  /\ (forall r c,
      nth c (nth r filled []) []
      = nth c (nth r cells []) []
        ++ map risk_name (filter (in_cell r c) items)).
Proof.
  induction items as [|item later IH]; intros cells Hl Hrows; cbv zeta.
  - cbn [fold_left filter map]. split; [exact Hl|]. split; [exact Hrows|].
    intros r c. now rewrite app_nil_r.
  - cbn [fold_left].
    pose proof (mapCell_range (risk_p item)) as Hy.
    pose proof (mapCell_range (risk_i item)) as Hx.
    assert (Hr : (2 - mapCell (risk_p item) < length cells)%nat) by lia.
    assert (Hc : (mapCell (risk_i item)
                  < length (nth (2 - mapCell (risk_p item)) cells []))%nat).
    { rewrite Hrows by lia. lia. }
    destruct (length_push_cell cells _ (mapCell (risk_i item))
                               (risk_name item) Hr) as [Hl' Hrows'].
    destruct (IH (push_cell (2 - mapCell (risk_p item))
                            (mapCell (risk_i item)) (risk_name item) cells))
      as [Hlen [Hshape Hcells]].
    { now rewrite Hl'. }
    { intros r Hlt. rewrite Hrows'. now apply Hrows. }
    split; [exact Hlen|]. split; [exact Hshape|].
    intros r c. rewrite Hcells, (nth_push_cell cells _ _ _ Hr Hc).
    cbn [filter]. unfold in_cell at 2.
    rewrite (Nat.eqb_sym r), (Nat.eqb_sym c).
    destruct ((2 - mapCell (risk_p item) =? r)
              && (mapCell (risk_i item) =? c))%nat; cbn [map].
    + now rewrite <- app_assoc.
    + reflexivity.
Qed.

(** X22: the risk matrix is a grid of three rows of three cells, and the
    cell of a row and a column lists the names of exactly the risks that
    belong there, in the order of the register.  So every risk is listed in
    one cell. *)
Theorem RiskMatrix_cells_contents (items : list RiskItem) :
  length (RiskMatrix_cells items) = 3%nat
  /\ (forall row, (row < 3)%nat ->
      length (nth row (RiskMatrix_cells items) []) = 3%nat)
  /\ (forall row col,
      nth col (nth row (RiskMatrix_cells items) []) []
      = map risk_name (filter (in_cell row col) items)).
Proof.
  destruct (RiskMatrix_loop items empty_cells) as [Hl [Hrows Hcells]].
  - reflexivity.
  - intros r Hr. destruct r as [|[|[|r]]]; [reflexivity.. | lia].
  - split; [exact Hl|]. split; [exact Hrows|].
    intros row col. unfold RiskMatrix_cells. rewrite Hcells.
    now rewrite empty_cell.
Qed.

(** The matrix of the register the component starts with: the market and
    the execution risk in the middle row on the right, and so on. *)
Example RiskMatrix_defaults :
  map (map (@length String.string)) (RiskMatrix_cells riskDefaults)
  = [[0; 0; 0]; [0; 1; 2]; [0; 2; 1]]%nat.
Proof. reflexivity. Qed.

(** ** The two risks to mitigate first *)

Lemma score_order (x y : String.string * Q * Q) :
  gtb (sub (mul (risk_p (finite_risk y)) (risk_i (finite_risk y)))
           (mul (risk_p (finite_risk x)) (risk_i (finite_risk x))))
      (Num 0) = true
  <-> item_score x < item_score y.
Proof.
  destruct x as [[nx px] ix], y as [[ny py] iy].
  cbn [finite_risk risk_p risk_i item_score]. unfold gtb, mul, sub, num.
  rewrite ltb_Num, !Qred_correct. split; intros H; lra.
Qed.

Lemma insert_by_score (x : String.string * Q * Q)
      (s : list (String.string * Q * Q)) :
  exists s',
    insert_by (fun a b => sub (mul (risk_p b) (risk_i b))
                              (mul (risk_p a) (risk_i a)))
              (finite_risk x) (map finite_risk s)
    = map finite_risk s'
    /\ Permutation (x :: s) s'
    /\ (forall P : String.string * Q * Q -> Prop,
        P x -> Forall P s -> Forall P s')
    /\ (StronglySorted (fun a b => item_score b <= item_score a) s ->
        StronglySorted (fun a b => item_score b <= item_score a) s').
Proof.
  induction s as [|y rest IH].
  - exists [x]. repeat split.
    + apply Permutation_refl.
    + intros P Hx _. now constructor.
    + intros _. repeat constructor.
  - cbn [map insert_by].
    destruct (gtb _ (Num 0)) eqn:E.
    + apply score_order in E.
      destruct IH as [s' [Hs [Hp [Hall Hsorted]]]].
      exists (y :: s'). cbn [map]. rewrite Hs. repeat split.
      * rewrite perm_swap. now constructor.
      * intros P Hx Hys. inversion Hys; subst. constructor; auto.
      * intros Hst. inversion Hst; subst. constructor; [auto|].
        apply Hall; [lra | assumption].
    + assert (Hxy : item_score y <= item_score x).
      { destruct (Qlt_le_dec (item_score x) (item_score y)) as [L|G];
          [|exact G].
        apply score_order in L. congruence. }
      exists (x :: y :: rest). repeat split.
      * apply Permutation_refl.
      * intros P Hx Hys. now constructor.
      * intros Hst. constructor; [exact Hst|].
        constructor; [exact Hxy|]. inversion Hst; subst.
        eapply Forall_impl; [|eassumption]. intros a Ha. cbv beta in Ha. lra.
Qed.

Lemma sort_by_score (ts : list (String.string * Q * Q)) :
  exists s,
    sort_by (fun a b => sub (mul (risk_p b) (risk_i b))
                            (mul (risk_p a) (risk_i a)))
            (map finite_risk ts)
    = map finite_risk s
    /\ Permutation ts s
    /\ StronglySorted (fun a b => item_score b <= item_score a) s.
Proof.
  induction ts as [|t later IH].
  - exists []. repeat split; constructor.
  - destruct IH as [s [Hs [Hp Hst]]].
    destruct (insert_by_score t s) as [s' [Hs' [Hp' [_ Hst']]]].
    exists s'. unfold sort_by in *. cbn [map fold_right]. rewrite Hs, Hs'.
    repeat split; [|auto].
    rewrite <- Hp'. now constructor.
Qed.

(** X23: the mitigation advice is about the risks with the two highest
    scores of the register, the highest first: the register in descending
    order of score, cut after two, each with its score, the level of that
    score and the tips for its name. *)
Theorem bestMitigation_highest
        (tips_of : String.string -> list String.string)
        (ts : list (String.string * Q * Q)) :
  exists s,
    Permutation ts s
    /\ StronglySorted (fun a b => item_score b <= item_score a) s
    /\ bestMitigation tips_of (map finite_risk ts)
       = map (fun t =>
                mkMitigation (risk_name (finite_risk t))
                             (num (item_score t))
                             (riskLevel (num (item_score t)))
                             (tips_of (risk_name (finite_risk t))))
             (firstn 2 s)
    /\ length (bestMitigation tips_of (map finite_risk ts))
       = Nat.min 2 (length ts).
Proof.
  destruct (sort_by_score ts) as [s [Hs [Hp Hst]]].
  exists s. split; [exact Hp|]. split; [exact Hst|].
  assert (E : bestMitigation tips_of (map finite_risk ts)
              = map (fun t =>
                       mkMitigation (risk_name (finite_risk t))
                                    (num (item_score t))
                                    (riskLevel (num (item_score t)))
                                    (tips_of (risk_name (finite_risk t))))
                    (firstn 2 s)).
  { unfold bestMitigation. cbv zeta. rewrite Hs, firstn_map, map_map.
    apply map_ext. now intros [[name p] i]. }
  split; [exact E|].
  rewrite E, length_map, length_firstn.
  now rewrite (Permutation_length Hp).
Qed.

(** ** Persian and Arabic digits *)

Lemma parsePersianInput_app (a b : jsstring) :
  parsePersianInput (a ++ b) = parsePersianInput a ++ parsePersianInput b.
Proof.
  unfold parsePersianInput, replace_units. cbv zeta.
  now rewrite !flat_map_app, filter_app.
Qed.

Lemma parsePersianInput_cons (c : Z) (s : jsstring) :
  parsePersianInput (c :: s) = parsePersianInput [c] ++ parsePersianInput s.
Proof. apply (parsePersianInput_app [c] s). Qed.

Lemma toPersianDigits_cons (c : Z) (s : jsstring) :
  toPersianDigits (c :: s) = toPersianDigits [c] ++ toPersianDigits s.
Proof.
  unfold toPersianDigits, replace_units. cbn [flat_map].
  now rewrite app_nil_r.
Qed.

Lemma ascii_digit_cases (c : Z) :
  is_digit c = true ->
  (c = 48 \/ c = 49 \/ c = 50 \/ c = 51 \/ c = 52 \/ c = 53 \/ c = 54
   \/ c = 55 \/ c = 56 \/ c = 57)%Z.
Proof. unfold is_digit. lia. Qed.

(** The units [parsePersianInput] keeps: the digits, the point and the
    minus sign. *)
Lemma kept_unit (c : Z) :
  (is_digit c || (c =? 46)%Z || (c =? 45)%Z) = true ->
  parsePersianInput [c] = [c].
Proof.
  intros H. unfold parsePersianInput, replace_units. cbv zeta.
  cbn [flat_map app].
  assert (P : ((1776 <=? c) && (c <=? 1785))%Z = false)
    by (unfold is_digit in H; lia).
  rewrite P. cbn [flat_map app].
  assert (A : ((1632 <=? c) && (c <=? 1641))%Z = false)
    by (unfold is_digit in H; lia).
  rewrite A. cbn [filter app]. cbv beta. now rewrite H.
Qed.

(** X24: reading back what [toPersianDigits] wrote gives the text again,
    for a text of digits, points and minus signs such as the decimal text
    of a number: [parsePersianInput(toPersianDigits(s)) = s]. *)
Theorem parsePersianInput_round_trip (s : jsstring) :
  Forall (fun c => (is_digit c || (c =? 46)%Z || (c =? 45)%Z) = true) s ->
  parsePersianInput (toPersianDigits s) = s.
Proof.
  induction 1 as [|c rest Hc _ IH]; [reflexivity|].
  rewrite toPersianDigits_cons, parsePersianInput_app, IH.
  change (c :: rest) with ([c] ++ rest). f_equal.
  destruct (is_digit c) eqn:D.
  - destruct (ascii_digit_cases c D)
      as [->|[->|[->|[->|[->|[->|[->|[->|[->| ->]]]]]]]]]; reflexivity.
  - unfold toPersianDigits, replace_units. cbn [flat_map]. rewrite D.
    cbn [app]. apply kept_unit. now rewrite D.
Qed.

Lemma parsePersianInput_round_trip_witness :
  parsePersianInput (toPersianDigits [45; 49; 50; 46; 53]%Z)
  = [45; 49; 50; 46; 53]%Z.
Proof.
  apply (parsePersianInput_round_trip [45; 49; 50; 46; 53]%Z).
  repeat constructor.
Defined.

(** X25: [parsePersianInput] reads a number written in Persian digits and
    the same number written in Arabic digits as the same ASCII digits: the
    digit of value [k] from U+06F0 or from U+0660 becomes the digit of
    value [k] from U+0030. *)
Theorem parsePersianInput_digits (ks : list Z) :
  Forall (fun k => 0 <= k <= 9)%Z ks ->
  parsePersianInput (map (fun k => 1776 + k)%Z ks)
  = map (fun k => 48 + k)%Z ks
  /\ parsePersianInput (map (fun k => 1632 + k)%Z ks)
     = map (fun k => 48 + k)%Z ks.
Proof.
  induction 1 as [|k rest Hk _ [IHp IHa]]; [split; reflexivity|].
  cbn [map].
  rewrite (parsePersianInput_cons (1776 + k)), IHp.
  rewrite (parsePersianInput_cons (1632 + k)), IHa.
  assert (K : (k = 0 \/ k = 1 \/ k = 2 \/ k = 3 \/ k = 4 \/ k = 5 \/ k = 6
               \/ k = 7 \/ k = 8 \/ k = 9)%Z) by lia.
  destruct K as [->|[->|[->|[->|[->|[->|[->|[->|[->| ->]]]]]]]]];
    split; reflexivity.
Qed.

Lemma parsePersianInput_digits_witness :
  parsePersianInput (map (fun k => 1776 + k)%Z [1; 3; 9; 9]%Z)
  = map (fun k => 48 + k)%Z [1; 3; 9; 9]%Z
  /\ parsePersianInput (map (fun k => 1632 + k)%Z [1; 3; 9; 9]%Z)
     = map (fun k => 48 + k)%Z [1; 3; 9; 9]%Z.
Proof.
  apply (parsePersianInput_digits [1; 3; 9; 9]%Z).
  repeat constructor; lia.
Defined.

(** X26: whatever is typed, [parsePersianInput] gives a text of ASCII
    digits, points and minus signs only, and reading that text again
    changes nothing. *)
Theorem parsePersianInput_idempotent (val : jsstring) :
  Forall (fun c => (is_digit c || (c =? 46)%Z || (c =? 45)%Z) = true)
         (parsePersianInput val)
  /\ parsePersianInput (parsePersianInput val) = parsePersianInput val.
Proof.
  assert (Halpha :
            Forall (fun c => (is_digit c || (c =? 46)%Z || (c =? 45)%Z) = true)
                   (parsePersianInput val)).
  { apply Forall_forall. intros c Hc. unfold parsePersianInput in Hc.
    cbv zeta in Hc. now apply filter_In in Hc. }
  split; [exact Halpha|].
  induction Halpha as [|c rest Hc _ IH]; [reflexivity|].
  now rewrite parsePersianInput_cons, IH, (kept_unit c Hc).
Qed.

(** A mixed entry: Persian [۱۲], a thousands separator, Arabic [٣], a
    letter and a point. *)
Example parsePersianInput_mixed :
  parsePersianInput [1777; 1778; 44; 1635; 97; 46; 53]%Z
  = [49; 50; 51; 46; 53]%Z.
Proof. reflexivity. Qed.

(** ** The advisor: the route handler and the client that retries *)

Lemma text_or_nonempty (text : option String.string) :
  text_or text noAnswer <> String.EmptyString.
Proof.
  unfold text_or. destruct text as [t|]; [|discriminate].
  destruct (String.eqb t String.EmptyString) eqn:E; [discriminate|].
  now apply String.eqb_neq in E.
Qed.

(** X27: the route handler answers with status 200, 429 or 500 and nothing
    else; [ok] is true exactly for status 200, and then the body carries a
    text that is not empty; status 429 is given exactly when the request
    was read, the key is set and the upstream service answered 429 with a
    body that parses. *)
Theorem POST_replies (body : Awaited String.string)
        (apiKey : option String.string) (upstream : Awaited Upstream) :
  (reply_status (POST body apiKey upstream) = 200%nat
   \/ reply_status (POST body apiKey upstream) = 429%nat
   \/ reply_status (POST body apiKey upstream) = 500%nat)
  /\ (reply_ok (POST body apiKey upstream) = true
      <-> reply_status (POST body apiKey upstream) = 200%nat)
  /\ (reply_ok (POST body apiKey upstream) = true
      <-> exists text,
            reply_body (POST body apiKey upstream) = Answer text
            /\ text <> String.EmptyString)
  /\ (reply_status (POST body apiKey upstream) = 429%nat
      <-> exists prompt key response text,
            body = Resolved prompt
            /\ apiKey = Some key /\ key <> String.EmptyString
            /\ upstream = Resolved response
            /\ up_data response = Resolved text
            /\ up_status response = 429%nat).
Proof.
  unfold POST.
  destruct body as [|prompt].
  { cbn. repeat split; try discriminate; auto.
    - intros [t [H _]]. discriminate.
    - intros [p [k [r [t [H _]]]]]. discriminate. }
  destruct apiKey as [key|].
  2:{ cbn. repeat split; try discriminate; auto.
      - intros [t [H _]]. discriminate.
      - intros [p [k [r [t [_ [H _]]]]]]. discriminate. }
  destruct (String.eqb key String.EmptyString) eqn:K.
  { apply String.eqb_eq in K. cbn. repeat split; try discriminate; auto.
    - intros [t [H _]]. discriminate.
    - intros [p [k [r [t [_ [H [N _]]]]]]]. congruence. }
  apply String.eqb_neq in K.
  destruct upstream as [|response].
  { cbn. repeat split; try discriminate; auto.
    - intros [t [H _]]. discriminate.
    - intros [p [k [r [t [_ [_ [_ [H _]]]]]]]]. discriminate. }
  destruct (up_data response) as [|text] eqn:D.
  { cbn. repeat split; try discriminate; auto.
    - intros [t [H _]]. discriminate.
    - intros [p [k [r [t [_ [_ [_ [H [H' _]]]]]]]]]. congruence. }
  destruct (Nat.eqb_spec (up_status response) 429) as [S|S].
  { cbn. repeat split; try discriminate; auto.
    - intros [t [H _]]. discriminate.
    - intros _. now exists prompt, key, response, text. }
  destruct (up_ok response); cbn [negb].
  - cbn. repeat split; try discriminate; auto.
    + intros _. eexists. split; [reflexivity | apply text_or_nonempty].
    + intros [p [k [r [t [_ [_ [_ [H [_ H']]]]]]]]]. congruence.
  - cbn. repeat split; try discriminate; auto.
    + intros [t [H _]]. discriminate.
    + intros [p [k [r [t [_ [_ [_ [H [_ H']]]]]]]]]. congruence.
Qed.

Lemma callGemini_from_bounds (network : nat -> Awaited Fetched)
      (retries : nat) :
  forall left attempt waited,
  (attempt + left = S retries)%nat -> (1 <= left)%nat ->
  run_result (callGemini_from network retries attempt left waited)
  <> Failure UNKNOWN
  /\ (attempt
      < run_requests (callGemini_from network retries attempt left waited)
      <= S retries)%nat
  /\ (waited
      + 2000 * (run_requests
                  (callGemini_from network retries attempt left waited)
                - 1 - attempt)
      <= run_waited (callGemini_from network retries attempt left waited)
      <= waited
         + 5000 * (run_requests
                     (callGemini_from network retries attempt left waited)
                   - 1 - attempt))%nat
  /\ (run_result (callGemini_from network retries attempt left waited)
      = Failure RATE_LIMIT
      \/ run_result (callGemini_from network retries attempt left waited)
         = Failure NETWORK_ERROR ->
      run_requests (callGemini_from network retries attempt left waited)
      = S retries).
Proof.
  induction left as [|left IH]; intros attempt waited Hsum Hleft; [lia|].
  cbn [callGemini_from].
  destruct (network attempt) as [|res].
  - destruct (Nat.ltb_spec attempt retries) as [Hlt|Hge].
    + destruct (IH (S attempt) (waited + 2000)%nat) as [U [R [W E]]];
        [lia | lia |].
      split; [exact U|]. split; [lia|]. split; [lia | exact E].
    + cbn [run_result run_requests run_waited]. split; [discriminate|]. split; [lia|]. split; [lia|].
      intros _. lia.
  - destruct (res_status res =? 429)%nat.
    + destruct (Nat.ltb_spec attempt retries) as [Hlt|Hge].
      * destruct (IH (S attempt) (waited + 5000)%nat) as [U [R [W E]]];
          [lia | lia |].
        split; [exact U|]. split; [lia|]. split; [lia | exact E].
      * cbn [run_result run_requests run_waited]. split; [discriminate|]. split; [lia|]. split; [lia|].
        intros _. lia.
    + destruct (res_ok res); cbn [negb run_result run_requests run_waited].
      * split; [discriminate|]. split; [lia|]. split; [lia|].
        intros [H|H]; discriminate.
      * split; [discriminate|]. split; [lia|]. split; [lia|].
        intros [H|H]; discriminate.
Qed.

(** X28: the client makes at least one request and at most [retries + 1];
    between two requests it waits two or five seconds; it gives up with
    [RATE_LIMIT] or [NETWORK_ERROR] only after the last permitted request.
    The result [UNKNOWN] after the loop is never reached. *)
Theorem callGeminiWithRetry_bounds (network : nat -> Awaited Fetched)
        (retries : nat) :
  run_result (callGeminiWithRetry network retries) <> Failure UNKNOWN
  /\ (1 <= run_requests (callGeminiWithRetry network retries)
      <= retries + 1)%nat
  /\ (2000 * (run_requests (callGeminiWithRetry network retries) - 1)
      <= run_waited (callGeminiWithRetry network retries)
      <= 5000 * (run_requests (callGeminiWithRetry network retries) - 1))%nat
  /\ (run_result (callGeminiWithRetry network retries) = Failure RATE_LIMIT
      \/ run_result (callGeminiWithRetry network retries)
         = Failure NETWORK_ERROR ->
      run_requests (callGeminiWithRetry network retries) = (retries + 1)%nat).
Proof.
  unfold callGeminiWithRetry.
  destruct (callGemini_from_bounds network retries (S retries) 0 0)
    as [U [R [W E]]]; [lia | lia |].
  split; [exact U|]. split; [lia|]. split; [lia|].
  intros H. rewrite (E H). lia.
Qed.

Lemma callGemini_from_skips (network : nat -> Awaited Fetched)
      (retries k : nat) :
  (k <= retries)%nat ->
  (forall j, (j < k)%nat -> retried (network j)) ->
  forall d attempt waited,
  (attempt + d = k)%nat ->
  exists waited',
    callGemini_from network retries attempt (S retries - attempt) waited
    = callGemini_from network retries k (S retries - k) waited'.
Proof.
  intros Hk Hret. induction d as [|d IH]; intros attempt waited Hsum.
  - replace attempt with k by lia. now exists waited.
  - replace (S retries - attempt)%nat with (S (retries - attempt)) by lia.
    cbn [callGemini_from].
    assert (Hlt : (attempt <? retries)%nat = true)
      by (apply Nat.ltb_lt; lia).
    pose proof (Hret attempt ltac:(lia)) as Hr.
    destruct (network attempt) as [|res]; cbn [retried] in Hr.
    + rewrite Hlt.
      destruct (IH (S attempt) (waited + 2000)%nat) as [w Hw]; [lia|].
      exists w. rewrite <- Hw. reflexivity.
    + rewrite Hr, Nat.eqb_refl, Hlt.
      destruct (IH (S attempt) (waited + 5000)%nat) as [w Hw]; [lia|].
      exists w. rewrite <- Hw. reflexivity.
Qed.

(** X29: the first round that is not retried decides the call.  After
    rounds that failed or met status 429, a reply with another status is
    taken at once, as the advice when it is [ok] and as [API_ERROR]
    otherwise; and when the last permitted round fails or meets 429 too, the
    call ends with [NETWORK_ERROR] or [RATE_LIMIT].  Round [k] is request
    number [k + 1]. *)
Theorem callGeminiWithRetry_first_reply (network : nat -> Awaited Fetched)
        (retries k : nat) :
  (k <= retries)%nat ->
  (forall j, (j < k)%nat -> retried (network j)) ->
  (forall res,
     network k = Resolved res -> res_status res <> 429%nat ->
     run_result (callGeminiWithRetry network retries)
     = (if res_ok res then Advice (res_text res) else Failure API_ERROR)
     /\ run_requests (callGeminiWithRetry network retries) = S k)
  /\ (k = retries -> retried (network k) ->
      run_result (callGeminiWithRetry network retries)
      = Failure (match network k with
                 | Rejected => NETWORK_ERROR
                 | Resolved _ => RATE_LIMIT
                 end)
      /\ run_requests (callGeminiWithRetry network retries) = S retries).
Proof.
  intros Hk Hret.
  destruct (callGemini_from_skips network retries k Hk Hret k 0 0)
    as [w Hw]; [lia|].
  unfold callGeminiWithRetry. rewrite Nat.sub_0_r in Hw. rewrite Hw.
  replace (S retries - k)%nat with (S (retries - k)) by lia.
  cbn [callGemini_from]. split.
  - intros res Hres Hst. rewrite Hres.
    apply Nat.eqb_neq in Hst. rewrite Hst.
    destruct (res_ok res); cbn [negb run_result run_requests]; now split.
  - intros -> Hr. rewrite Nat.ltb_irrefl.
    destruct (network retries) as [|res]; cbn [retried] in Hr.
    + now split.
    + rewrite Hr, Nat.eqb_refl. now split.
Qed.

Lemma callGeminiWithRetry_first_reply_witness :
  (forall res,
     (fun j => match j with
               | 0%nat => Rejected
               | 1%nat => Resolved (mkFetched 429 false None)
               | _ => Resolved (mkFetched 200 true None)
               end) 2%nat = Resolved res ->
     res_status res <> 429%nat ->
     run_result
       (callGeminiWithRetry
          (fun j => match j with
                    | 0%nat => Rejected
                    | 1%nat => Resolved (mkFetched 429 false None)
                    | _ => Resolved (mkFetched 200 true None)
                    end) 2)
     = (if res_ok res then Advice (res_text res) else Failure API_ERROR)
     /\ run_requests
          (callGeminiWithRetry
             (fun j => match j with
                       | 0%nat => Rejected
                       | 1%nat => Resolved (mkFetched 429 false None)
                       | _ => Resolved (mkFetched 200 true None)
                       end) 2) = 3%nat)
  /\ (2%nat = 2%nat ->
      retried ((fun j => match j with
                         | 0%nat => Rejected
                         | 1%nat => Resolved (mkFetched 429 false None)
                         | _ => Resolved (mkFetched 200 true None)
                         end) 2%nat) ->
      run_result
        (callGeminiWithRetry
           (fun j => match j with
                     | 0%nat => Rejected
                     | 1%nat => Resolved (mkFetched 429 false None)
                     | _ => Resolved (mkFetched 200 true None)
                     end) 2)
      = Failure (match (fun j => match j with
                                 | 0%nat => Rejected
                                 | 1%nat => Resolved (mkFetched 429 false None)
                                 | _ => Resolved (mkFetched 200 true None)
                                 end) 2%nat with
                 | Rejected => NETWORK_ERROR
                 | Resolved _ => RATE_LIMIT
                 end)
      /\ run_requests
           (callGeminiWithRetry
              (fun j => match j with
                        | 0%nat => Rejected
                        | 1%nat => Resolved (mkFetched 429 false None)
                        | _ => Resolved (mkFetched 200 true None)
                        end) 2) = 3%nat).
Proof.
  apply (callGeminiWithRetry_first_reply
           (fun j => match j with
                     | 0%nat => Rejected
                     | 1%nat => Resolved (mkFetched 429 false None)
                     | _ => Resolved (mkFetched 200 true None)
                     end) 2 2).
  - lia.
  - intros [|[|j]] Hj; [exact I | reflexivity | lia].
Defined.

(** The call of the witness: a failed request, a reply 429, then the
    answer; three requests and seven seconds of waiting. *)
Example callGeminiWithRetry_three_rounds :
  callGeminiWithRetry
    (fun j => match j with
              | 0%nat => Rejected
              | 1%nat => Resolved (mkFetched 429 false None)
              | _ => Resolved (mkFetched 200 true None)
              end) 2
  = mkAdvisorRun (Advice None) 3 (2000 + 5000).
Proof. reflexivity. Qed.

Lemma callGemini_from_origin (network : nat -> Awaited Fetched)
      (retries : nat) :
  forall left attempt waited,
  match run_result (callGemini_from network retries attempt left waited) with
  | Advice t =>
      exists j res,
        network j = Resolved res /\ res_status res <> 429%nat
        /\ res_ok res = true /\ t = res_text res
  | Failure NETWORK_ERROR => exists j, network j = Rejected
  | Failure RATE_LIMIT =>
      exists j res, network j = Resolved res /\ res_status res = 429%nat
  | Failure API_ERROR =>
      exists j res,
        network j = Resolved res /\ res_status res <> 429%nat
        /\ res_ok res = false
  | Failure UNKNOWN => True
  end.
Proof.
  induction left as [|left IH]; intros attempt waited; [exact I|].
  cbn [callGemini_from].
  destruct (network attempt) as [|res] eqn:N.
  - destruct (attempt <? retries)%nat; [apply IH|].
    cbn [run_result]. now exists attempt.
  - destruct (Nat.eqb_spec (res_status res) 429) as [S|S].
    + destruct (attempt <? retries)%nat; [apply IH|].
      cbn [run_result]. now exists attempt, res.
    + destruct (res_ok res) eqn:O; cbn [negb run_result].
      * now exists attempt, res.
      * now exists attempt, res.
Qed.

Lemma fetched_reply_ok (body : Awaited String.string)
      (apiKey : option String.string) (upstream : Awaited Upstream) :
  res_ok (fetched_reply (POST body apiKey upstream)) = true ->
  exists text,
    res_text (fetched_reply (POST body apiKey upstream)) = Some text
    /\ text <> String.EmptyString.
Proof.
  unfold POST.
  destruct body as [|prompt]; [discriminate|].
  destruct apiKey as [key|]; [|discriminate].
  destruct (String.eqb key String.EmptyString); [discriminate|].
  destruct upstream as [|response]; [discriminate|].
  destruct (up_data response) as [|text]; [discriminate|].
  destruct (up_status response =? 429)%nat; [discriminate|].
  destruct (up_ok response); [|discriminate].
  intros _. cbn [negb fetched_reply reply_body res_text].
  eexists. split; [reflexivity | apply text_or_nonempty].
Qed.

(** X30: the client over the route handler.  When every request reaches
    the handler, the call never ends with [NETWORK_ERROR], since the handler
    turns its own failures into a reply; advice, when it comes, is a text
    that is not empty; and a missing key is reported as [API_ERROR] after a
    single request, without waiting and without a retry. *)
Theorem advisor_over_route (bodies : nat -> Awaited String.string)
        (apiKey : option String.string) (upstreams : nat -> Awaited Upstream)
        (retries : nat) :
  run_result
    (callGeminiWithRetry
       (fun j => Resolved (fetched_reply (POST (bodies j) apiKey (upstreams j))))
       retries) <> Failure NETWORK_ERROR
  /\ (forall t,
      run_result
        (callGeminiWithRetry
           (fun j =>
              Resolved (fetched_reply (POST (bodies j) apiKey (upstreams j))))
           retries) = Advice t ->
      exists text, t = Some text /\ text <> String.EmptyString)
  /\ (apiKey = None \/ apiKey = Some String.EmptyString ->
      callGeminiWithRetry
        (fun j =>
           Resolved (fetched_reply (POST (bodies j) apiKey (upstreams j))))
        retries
      = mkAdvisorRun (Failure API_ERROR) 1 0).
Proof.
  set (network := fun j =>
         Resolved (fetched_reply (POST (bodies j) apiKey (upstreams j)))).
  pose proof (callGemini_from_origin network retries (S retries) 0 0) as O.
  fold (callGeminiWithRetry network retries) in O.
  split; [|split].
  - intros E. rewrite E in O. destruct O as [j Hj]. discriminate.
  - intros t E. rewrite E in O.
    destruct O as [j [res [Hj [_ [Hok ->]]]]].
    unfold network in Hj. injection Hj as <-.
    now apply fetched_reply_ok.
  - intros Hkey. unfold callGeminiWithRetry. cbn [callGemini_from].
    unfold network.
    assert (R : exists body,
              POST (bodies 0%nat) apiKey (upstreams 0%nat)
              = mkReply 500 false body).
    { unfold POST. destruct (bodies 0%nat); [now eexists|].
      destruct Hkey as [->| ->]; now eexists. }
    destruct R as [body ->]. reflexivity.
Qed.

Lemma advisor_over_route_witness :
  callGeminiWithRetry
    (fun j =>
       Resolved (fetched_reply
                   (POST (Resolved String.EmptyString) None Rejected)))
    2
  = mkAdvisorRun (Failure API_ERROR) 1 0.
Proof.
  apply (advisor_over_route (fun _ => Resolved String.EmptyString) None
                            (fun _ => Rejected) 2).
  now left.
Defined.
